(** * MDCRippleFoundation (packages/mdc-ripple/foundation.js)

    A shallow embedding of the ripple foundation: its activation state
    machine, the layout geometry and the unbounded-deactivation timing
    estimator, together with the adapter calls, frame callbacks and timers
    it issues.

    JavaScript numbers are IEEE-754 binary64 values and are modelled by the
    primitive floats of Rocq, which compute with the same rounding.  The
    timing estimator is written over an interface [JSNumber] of the
    arithmetic it uses; the foundation runs it on floats.  Its order
    properties follow from the laws [JSNumberLaws] of that interface, which
    are proved of binary64 from the specification of the primitive
    operations: a correctly rounded product or quotient is monotone. *)

From Stdlib Require Import Floats ZArith Bool List String Lia.
Import ListNotations.

Set Implicit Arguments.

(** ** JavaScript numbers *)

(** The arithmetic used by the timing estimator: [-], [*], [/], [<], [<=],
    [isFinite], [Math.min], [Math.max] and integer literals. *)
Class JSNumber (num : Type) : Type := {
  num_of_Z : Z -> num;
  num_sub : num -> num -> num;
  num_mul : num -> num -> num;
  num_div : num -> num -> num;
  num_lt : num -> num -> bool;
  num_le : num -> num -> bool;
  num_isFinite : num -> bool;
  Math_min : num -> num -> num;
  Math_max : num -> num -> num
}.

Declare Scope js_scope.
Delimit Scope js_scope with js.
Notation "a - b" := (num_sub a b) : js_scope.
Notation "a * b" := (num_mul a b) : js_scope.
Notation "a / b" := (num_div a b) : js_scope.
Notation "a <? b" := (num_lt a b) (at level 70, no associativity) : js_scope.
Notation "a <=? b" := (num_le a b) (at level 70, no associativity) : js_scope.
Notation "a >? b" := (num_lt b a) (at level 70, no associativity) : js_scope.

(** *** Binary64 *)

Module F64.
Local Open Scope float_scope.

(** An integer literal of the source. *)
Definition of_Z (z : Z) : float :=
  match z with
  | Z0 => 0
  | Zpos _ => of_uint63 (Uint63.of_Z z)
  | Zneg p => - of_uint63 (Uint63.of_Z (Zpos p))
  end.

(** [Math.max(x, y)]: NaN if either argument is NaN, and [+0] is larger
    than [-0]. *)
Definition max (x y : float) : float :=
  if is_nan x || is_nan y then nan
  else if x <? y then y
  else if y <? x then x
  else if get_sign x then y else x.

(** [Math.min(x, y)]: NaN if either argument is NaN, and [-0] is smaller
    than [+0]. *)
Definition min (x y : float) : float :=
  if is_nan x || is_nan y then nan
  else if x <? y then x
  else if y <? x then y
  else if get_sign x then x else y.

(** [Math.pow(x, 2)], the square of [x]. *)
Definition pow2 (x : float) : float := x * x.

Definition two52 : float := 4503599627370496.

(** [Math.floor(x)] for a number below 2^52 in magnitude; every other
    number is an integer, an infinity or NaN and is returned as it is. *)
Definition floor (x : float) : float :=
  if is_nan x || (two52 <=? abs x) then x
  else
    let a := abs x in
    let t := (a + two52) - two52 in
    let tr := if a <? t then t - 1 else t in
    if 0 <=? x then (if get_sign x then - tr else tr)
    else if tr =? a then - tr else - (tr + 1).

(** [Math.round(x)]: the nearest integer, a tie going to +∞; a zero result
    keeps the sign of a negative argument. *)
Definition round (x : float) : float :=
  if is_nan x || (two52 <=? abs x) then x
  else
    let f := floor x in
    let r := if 0.5 <=? x - f then f + 1 else f in
    if (r =? 0) && ((x <? 0) || get_sign x) then neg_zero else r.
End F64.

#[export] Instance JSNumber_float : JSNumber float := {
  num_of_Z := F64.of_Z;
  num_sub := PrimFloat.sub;
  num_mul := PrimFloat.mul;
  num_div := PrimFloat.div;
  num_lt := PrimFloat.ltb;
  num_le := PrimFloat.leb;
  num_isFinite := PrimFloat.is_finite;
  Math_min := F64.min;
  Math_max := F64.max
}.

(** *** Laws of the arithmetic

    The order facts the estimator's properties rest on.  [num_le x x] holds
    of every number but NaN.  Division and multiplication by a positive
    finite number are monotone.  Binary64 satisfies the laws
    ([JSNumberLaws_float]). *)
Class JSNumberLaws (num : Type) {N : JSNumber num} : Prop := {
  le_trans : forall x y z : num,
    (x <=? y)%js = true -> (y <=? z)%js = true -> (x <=? z)%js = true;
  le_refl_l : forall x y : num, (x <=? y)%js = true -> (x <=? x)%js = true;
  le_refl_r : forall x y : num, (x <=? y)%js = true -> (y <=? y)%js = true;
  one_number : ((num_of_Z 1 : num) <=? num_of_Z 1)%js = true;
  thousand_pos : (num_of_Z 0 <? num_of_Z 1000)%js = true
                 /\ num_isFinite (num_of_Z 1000 : num) = true;
  min_le_l : forall x y : num,
    (x <=? x)%js = true -> (y <=? y)%js = true -> (Math_min x y <=? x)%js = true;
  min_le_r : forall x y : num,
    (x <=? x)%js = true -> (y <=? y)%js = true -> (Math_min x y <=? y)%js = true;
  min_glb : forall x y z : num,
    (z <=? x)%js = true -> (z <=? y)%js = true -> (z <=? Math_min x y)%js = true;
  max_le_l : forall x y : num,
    (x <=? x)%js = true -> (y <=? y)%js = true -> (x <=? Math_max x y)%js = true;
  max_le_r : forall x y : num,
    (x <=? x)%js = true -> (y <=? y)%js = true -> (y <=? Math_max x y)%js = true;
  max_lub : forall x y z : num,
    (x <=? z)%js = true -> (y <=? z)%js = true -> (Math_max x y <=? z)%js = true;
  div_mono : forall x y a : num,
    (num_of_Z 0 <? a)%js = true -> num_isFinite a = true ->
    (x <=? y)%js = true -> (x / a <=? y / a)%js = true;
  div_self : forall a : num,
    (num_of_Z 0 <? a)%js = true -> num_isFinite a = true ->
    (num_of_Z 1 <=? a / a)%js = true;
  mul_mono : forall c x y : num,
    (num_of_Z 0 <? c)%js = true -> num_isFinite c = true ->
    (x <=? y)%js = true -> (c * x <=? c * y)%js = true
}.

Arguments JSNumberLaws num {N}.

(** ** Constants (constants.js) *)

(** [MDCRippleFoundation.numbers].  The table itself lives in constants.js;
    the foundation only reads these seven keys. *)
Record Numbers (num : Type) : Type := {
  FG_TRANSFORM_DELAY_MS : num;
  OPACITY_DURATION_DIVISOR : num;
  ACTIVE_OPACITY_DURATION_MS : num;
  UNBOUNDED_TRANSFORM_DURATION_MS : num;
  MIN_OPACITY_DURATION_MS : num;
  PADDING : num;
  INITIAL_ORIGIN_SCALE : num
}.

(** ** Timing estimator: [getUnboundedDeactivationInfo_] *)

Record DeactivationInfo (num : Type) : Type := {
  transformDuration : num;
  opacityDuration : num;
  approxCurScale : num
}.

Section TimingEstimator.
Context {num : Type} {N : JSNumber num}.
Variable numbers : Numbers num.
Local Open Scope js_scope.

(** The local [approxCurScale], from [msElapsed] and the two layout
    fields [xfDuration_] and [fgScale_] the method reads. *)
Definition approxCurScale_at (xfDuration_ fgScale_ msElapsed : num) : num :=
  if msElapsed >? FG_TRANSFORM_DELAY_MS numbers then
    let percentComplete :=
      Math_min ((msElapsed - FG_TRANSFORM_DELAY_MS numbers) / xfDuration_)
               (num_of_Z 1) in
    percentComplete * fgScale_
  else num_of_Z 0.

(** The local [approxOpacity]. *)
Definition approxOpacity_at (msElapsed : num) : num :=
  Math_min (msElapsed / ACTIVE_OPACITY_DURATION_MS numbers) (num_of_Z 1).

(** The local [opacityDuration]. *)
Definition opacityDuration_at (msElapsed : num) : num :=
  Math_max (MIN_OPACITY_DURATION_MS numbers)
           (num_of_Z 1000 * approxOpacity_at msElapsed
            / OPACITY_DURATION_DIVISOR numbers).

(** [getUnboundedDeactivationInfo_(activationStartTime)], with the value
    [Date_now] of [Date.now()] and the fields of [this] it reads. *)
Definition getUnboundedDeactivationInfo_
    (xfDuration_ fgScale_ Date_now activationStartTime : num)
    : DeactivationInfo num :=
  let msElapsed := Date_now - activationStartTime in
  {| transformDuration := UNBOUNDED_TRANSFORM_DURATION_MS numbers;
     opacityDuration := opacityDuration_at msElapsed;
     approxCurScale := approxCurScale_at xfDuration_ fgScale_ msElapsed |}.
End TimingEstimator.

(** ** Data model *)

(** [MDCRippleFoundation.cssClasses]: the keys the foundation reads. *)
Inductive CssClass : Type :=
  | ROOT | UNBOUNDED | BG_ACTIVE
  | BG_BOUNDED_ACTIVE_FILL | FG_BOUNDED_ACTIVE_FILL
  | FG_UNBOUNDED_ACTIVATION | FG_UNBOUNDED_DEACTIVATION.

(** [MDCRippleFoundation.strings]: the [VAR_] keys the foundation reads. *)
Inductive CssVar : Type :=
  | VAR_SURFACE_WIDTH | VAR_SURFACE_HEIGHT | VAR_FG_SIZE
  | VAR_FG_UNBOUNDED_OPACITY_DURATION | VAR_FG_UNBOUNDED_TRANSFORM_DURATION
  | VAR_LEFT | VAR_TOP | VAR_FG_APPROX_XF | VAR_FG_SCALE
  | VAR_FG_TRANSLATE_START | VAR_FG_TRANSLATE_END.

(** The second argument of [updateCssVariable], by the template that builds
    it. *)
Inductive CssValue : Type :=
  | Px (v : float)              (* `${v}px` *)
  | Ms (v : float)              (* `${v}ms` *)
  | PxPair (v1 v2 : float)      (* `${v1}px, ${v2}px` *)
  | ScaleOf (v : float)         (* `scale(${v})` *)
  | Plain (v : float)           (* the number itself *)
  | Null.

(** A DOM event, as far as the foundation and its helpers read it. *)
Record Event : Type := {
  type : string;
  pageX : float;
  pageY : float
}.

Record Point : Type := { x : float; y : float }.

(** A [ClientRect], as returned by [computeBoundingRect]. *)
Record ClientRect : Type := {
  rect_left : float;
  rect_top : float;
  width : float;
  height : float
}.

Record UnboundedCoords : Type := { coords_left : float; coords_top : float }.

(** The object returned by [defaultActivationState_] and mutated by
    [activate_]. *)
Record ActivationState : Type := {
  isActivated : bool;
  wasActivatedByPointer : bool;
  wasElementMadeActive : bool;
  activationStartTime : float;
  activationEvent : option Event
}.

(** The keys of [listeners_]. *)
Inductive Listener : Type :=
  | L_activate | L_deactivate | L_focus | L_blur.

(** The end event an animation waits for:
    [getCorrectEventName(window, 'transitionend' | 'animationend')]. *)
Inductive EndEvent : Type := TransitionEnd | AnimationEnd.

(** Calls the foundation makes on its adapter, and on [animateWithClass]
    and the cancel functions it returns.  util.js is not among the sources:
    a call of [animateWithClass] or of a cancel function is recorded, and
    what it does to the adapter in turn is not modelled. *)
Inductive Call : Type :=
  | BrowserSupportsCssVars
  | IsUnbounded
  | IsSurfaceActive
  | AddClass (c : CssClass)
  | RemoveClass (c : CssClass)
  | RegisterInteractionHandler (evtType : string) (l : Listener)
  | DeregisterInteractionHandler (evtType : string) (l : Listener)
  | RegisterResizeHandler
  | DeregisterResizeHandler
  | UpdateCssVariable (v : CssVar) (value : CssValue)
  | ComputeBoundingRect
  | GetWindowPageOffset
  | AnimateWithClass (c : CssClass) (endEvent : EndEvent) (handle : nat)
  | CancelAnimation (handle : nat).

(** What the adapter and the clock answer while one operation runs. *)
Record Env : Type := {
  browserSupportsCssVars : bool;
  isUnbounded : bool;
  isSurfaceActive : bool;
  computeBoundingRect : ClientRect;
  getWindowPageOffset : Point;
  Date_now : float
}.

(** The function passed to [requestAnimationFrame], by the place that
    creates it, with the variables it closes over. *)
Inductive FrameCallback : Type :=
  | InitFrame                                        (* init *)
  | ConfirmActivation (e : Event) (activationState : nat)   (* activate_ *)
  | AnimateDeactivation (e : Event) (state : ActivationState) (* deactivate_ *)
  | DestroyFrame                                     (* destroy *)
  | LayoutFrame                                      (* layout *)
  | FocusFrame                                       (* listeners_.focus *)
  | BlurFrame.                                       (* listeners_.blur *)

(** The fields of [this].  [activationState_] is a reference into the heap
    of activation-state objects; a cancel function is the handle of the
    animation it cancels, or [None] for the initial [() => {}].  Of
    [frame_] only [width] and [height] are ever read. *)
Record Foundation : Type := {
  layoutFrame_ : nat;
  frame_ : ClientRect;
  activationState_ : nat;
  xfDuration_ : float;
  initialSize_ : float;
  maxRadius_ : float;
  unboundedOpacityFadeTimer_ : nat;
  cancelBgBounded_ : option nat;
  cancelFgBounded_ : option nat;
  cancelFgUnbounded_ : option nat;
  unboundedCoords_ : UnboundedCoords;
  fgScale_ : float
}.

(** The foundation and what surrounds it: the heap of activation-state
    objects, the pending frame callbacks and timeouts, the adapter's table
    of the handlers the foundation itself has registered, and the calls
    made so far ([log], newest first).  A handler that [animateWithClass]
    (util.js) registers for the end of an animation is not in [handlers]:
    what is said of [handlers] concerns the foundation's own listeners. *)
Record World : Type := {
  this : Foundation;
  heap : list ActivationState;
  rafQueue : list (nat * FrameCallback);
  nextFrameId : nat;
  timeouts : list (nat * float);
  nextTimerId : nat;
  nextHandle : nat;
  handlers : list (string * Listener);
  resizeHandler : bool;
  log : list Call
}.

Definition trace (w : World) : list Call := rev (log w).

(** *** Field updates *)

Definition set_this (f : Foundation) (w : World) : World :=
  {| this := f; heap := heap w; rafQueue := rafQueue w;
     nextFrameId := nextFrameId w; timeouts := timeouts w;
     nextTimerId := nextTimerId w; nextHandle := nextHandle w;
     handlers := handlers w; resizeHandler := resizeHandler w; log := log w |}.

Definition set_heap (h : list ActivationState) (w : World) : World :=
  {| this := this w; heap := h; rafQueue := rafQueue w;
     nextFrameId := nextFrameId w; timeouts := timeouts w;
     nextTimerId := nextTimerId w; nextHandle := nextHandle w;
     handlers := handlers w; resizeHandler := resizeHandler w; log := log w |}.

Definition set_rafQueue (q : list (nat * FrameCallback)) (n : nat) (w : World)
    : World :=
  {| this := this w; heap := heap w; rafQueue := q;
     nextFrameId := n; timeouts := timeouts w;
     nextTimerId := nextTimerId w; nextHandle := nextHandle w;
     handlers := handlers w; resizeHandler := resizeHandler w; log := log w |}.

Definition set_timeouts (t : list (nat * float)) (n : nat) (w : World) : World :=
  {| this := this w; heap := heap w; rafQueue := rafQueue w;
     nextFrameId := nextFrameId w; timeouts := t;
     nextTimerId := n; nextHandle := nextHandle w;
     handlers := handlers w; resizeHandler := resizeHandler w; log := log w |}.

Definition set_nextHandle (n : nat) (w : World) : World :=
  {| this := this w; heap := heap w; rafQueue := rafQueue w;
     nextFrameId := nextFrameId w; timeouts := timeouts w;
     nextTimerId := nextTimerId w; nextHandle := n;
     handlers := handlers w; resizeHandler := resizeHandler w; log := log w |}.

Definition set_handlers (hs : list (string * Listener)) (w : World) : World :=
  {| this := this w; heap := heap w; rafQueue := rafQueue w;
     nextFrameId := nextFrameId w; timeouts := timeouts w;
     nextTimerId := nextTimerId w; nextHandle := nextHandle w;
     handlers := hs; resizeHandler := resizeHandler w; log := log w |}.

Definition set_resizeHandler (b : bool) (w : World) : World :=
  {| this := this w; heap := heap w; rafQueue := rafQueue w;
     nextFrameId := nextFrameId w; timeouts := timeouts w;
     nextTimerId := nextTimerId w; nextHandle := nextHandle w;
     handlers := handlers w; resizeHandler := b; log := log w |}.

(** One call on the adapter or on util.js. *)
Definition call (c : Call) (w : World) : World :=
  {| this := this w; heap := heap w; rafQueue := rafQueue w;
     nextFrameId := nextFrameId w; timeouts := timeouts w;
     nextTimerId := nextTimerId w; nextHandle := nextHandle w;
     handlers := handlers w; resizeHandler := resizeHandler w;
     log := c :: log w |}.

Definition set_layoutFrame_ (n : nat) (f : Foundation) : Foundation :=
  {| layoutFrame_ := n; frame_ := frame_ f;
     activationState_ := activationState_ f; xfDuration_ := xfDuration_ f;
     initialSize_ := initialSize_ f; maxRadius_ := maxRadius_ f;
     unboundedOpacityFadeTimer_ := unboundedOpacityFadeTimer_ f;
     cancelBgBounded_ := cancelBgBounded_ f;
     cancelFgBounded_ := cancelFgBounded_ f;
     cancelFgUnbounded_ := cancelFgUnbounded_ f;
     unboundedCoords_ := unboundedCoords_ f; fgScale_ := fgScale_ f |}.

Definition set_activationState_ (l : nat) (f : Foundation) : Foundation :=
  {| layoutFrame_ := layoutFrame_ f; frame_ := frame_ f;
     activationState_ := l; xfDuration_ := xfDuration_ f;
     initialSize_ := initialSize_ f; maxRadius_ := maxRadius_ f;
     unboundedOpacityFadeTimer_ := unboundedOpacityFadeTimer_ f;
     cancelBgBounded_ := cancelBgBounded_ f;
     cancelFgBounded_ := cancelFgBounded_ f;
     cancelFgUnbounded_ := cancelFgUnbounded_ f;
     unboundedCoords_ := unboundedCoords_ f; fgScale_ := fgScale_ f |}.

Definition set_unboundedOpacityFadeTimer_ (n : nat) (f : Foundation)
    : Foundation :=
  {| layoutFrame_ := layoutFrame_ f; frame_ := frame_ f;
     activationState_ := activationState_ f; xfDuration_ := xfDuration_ f;
     initialSize_ := initialSize_ f; maxRadius_ := maxRadius_ f;
     unboundedOpacityFadeTimer_ := n;
     cancelBgBounded_ := cancelBgBounded_ f;
     cancelFgBounded_ := cancelFgBounded_ f;
     cancelFgUnbounded_ := cancelFgUnbounded_ f;
     unboundedCoords_ := unboundedCoords_ f; fgScale_ := fgScale_ f |}.

Definition set_cancelBgBounded_ (h : option nat) (f : Foundation) : Foundation :=
  {| layoutFrame_ := layoutFrame_ f; frame_ := frame_ f;
     activationState_ := activationState_ f; xfDuration_ := xfDuration_ f;
     initialSize_ := initialSize_ f; maxRadius_ := maxRadius_ f;
     unboundedOpacityFadeTimer_ := unboundedOpacityFadeTimer_ f;
     cancelBgBounded_ := h;
     cancelFgBounded_ := cancelFgBounded_ f;
     cancelFgUnbounded_ := cancelFgUnbounded_ f;
     unboundedCoords_ := unboundedCoords_ f; fgScale_ := fgScale_ f |}.

Definition set_cancelFgBounded_ (h : option nat) (f : Foundation) : Foundation :=
  {| layoutFrame_ := layoutFrame_ f; frame_ := frame_ f;
     activationState_ := activationState_ f; xfDuration_ := xfDuration_ f;
     initialSize_ := initialSize_ f; maxRadius_ := maxRadius_ f;
     unboundedOpacityFadeTimer_ := unboundedOpacityFadeTimer_ f;
     cancelBgBounded_ := cancelBgBounded_ f;
     cancelFgBounded_ := h;
     cancelFgUnbounded_ := cancelFgUnbounded_ f;
     unboundedCoords_ := unboundedCoords_ f; fgScale_ := fgScale_ f |}.

Definition set_unboundedCoords_ (c : UnboundedCoords) (f : Foundation)
    : Foundation :=
  {| layoutFrame_ := layoutFrame_ f; frame_ := frame_ f;
     activationState_ := activationState_ f; xfDuration_ := xfDuration_ f;
     initialSize_ := initialSize_ f; maxRadius_ := maxRadius_ f;
     unboundedOpacityFadeTimer_ := unboundedOpacityFadeTimer_ f;
     cancelBgBounded_ := cancelBgBounded_ f;
     cancelFgBounded_ := cancelFgBounded_ f;
     cancelFgUnbounded_ := cancelFgUnbounded_ f;
     unboundedCoords_ := c; fgScale_ := fgScale_ f |}.

(** The five assignments of [layoutInternal_]. *)
Definition set_layout (r : ClientRect) (initialSize maxRadius fgScale xfDuration : float)
    (f : Foundation) : Foundation :=
  {| layoutFrame_ := layoutFrame_ f; frame_ := r;
     activationState_ := activationState_ f; xfDuration_ := xfDuration;
     initialSize_ := initialSize; maxRadius_ := maxRadius;
     unboundedOpacityFadeTimer_ := unboundedOpacityFadeTimer_ f;
     cancelBgBounded_ := cancelBgBounded_ f;
     cancelFgBounded_ := cancelFgBounded_ f;
     cancelFgUnbounded_ := cancelFgUnbounded_ f;
     unboundedCoords_ := unboundedCoords_ f; fgScale_ := fgScale |}.

Definition set_wasElementMadeActive (b : bool) (s : ActivationState)
    : ActivationState :=
  {| isActivated := isActivated s;
     wasActivatedByPointer := wasActivatedByPointer s;
     wasElementMadeActive := b;
     activationStartTime := activationStartTime s;
     activationEvent := activationEvent s |}.

(** ** The foundation *)

Section RippleFoundation.
(** [MDCRippleFoundation.numbers] (constants.js). *)
Variable numbers : Numbers float.
(** [getNormalizedEventCoords(ev, pageOffset, clientRect)] (util.js): the
    point of the interaction relative to the surface. *)
Variable getNormalizedEventCoords : Event -> Point -> ClientRect -> Point.
(** The [VAR_] keys of [MDCRippleFoundation.strings] (constants.js), in
    the order of the table. *)
Variable strings_VAR_keys : list CssVar.

Local Open Scope float_scope.
Local Open Scope string_scope.
Local Open Scope list_scope.

Definition DEACTIVATION_ACTIVATION_PAIRS : list (string * string) :=
  [ ("mouseup", "mousedown");
    ("pointerup", "pointerdown");
    ("touchend", "touchstart");
    ("keyup", "keydown");
    ("blur", "focus") ].

(** [table[key]]: [None] stands for [undefined], and for a property
    inherited from [Object.prototype], which is no string either. *)
Fixpoint lookup (key : string) (table : list (string * string))
    : option string :=
  match table with
  | [] => None
  | (k, v) :: rest => if String.eqb k key then Some v else lookup key rest
  end.

Definition listenerInfos_ : list (list (Listener * string)) :=
  [ [(L_activate, "touchstart"); (L_deactivate, "touchend")];
    [(L_activate, "pointerdown"); (L_deactivate, "pointerup")];
    [(L_activate, "mousedown"); (L_deactivate, "mouseup")];
    [(L_activate, "keydown"); (L_deactivate, "keyup")];
    [(L_focus, "focus"); (L_blur, "blur")] ].

Definition defaultActivationState_ : ActivationState :=
  {| isActivated := false;
     wasActivatedByPointer := false;
     wasElementMadeActive := false;
     activationStartTime := 0;
     activationEvent := None |}.

(** *** The host: frames, timers, objects, handlers *)

Definition requestAnimationFrame (cb : FrameCallback) (w : World)
    : nat * World :=
  (nextFrameId w,
   set_rafQueue (rafQueue w ++ [(nextFrameId w, cb)]) (S (nextFrameId w)) w).

Definition cancelAnimationFrame (id : nat) (w : World) : World :=
  set_rafQueue (filter (fun p => negb (Nat.eqb (fst p) id)) (rafQueue w))
               (nextFrameId w) w.

Definition setTimeout (delay : float) (w : World) : nat * World :=
  (nextTimerId w,
   set_timeouts (timeouts w ++ [(nextTimerId w, delay)]) (S (nextTimerId w)) w).

Definition clearTimeout (id : nat) (w : World) : World :=
  set_timeouts (filter (fun p => negb (Nat.eqb (fst p) id)) (timeouts w))
               (nextTimerId w) w.

(** A new activation-state object; the result is its reference. *)
Definition new_object (s : ActivationState) (w : World) : nat * World :=
  (List.length (heap w), set_heap (heap w ++ [s]) w).

Fixpoint update {A : Type} (l : nat) (f : A -> A) (h : list A) : list A :=
  match h, l with
  | [], _ => []
  | a :: h', O => f a :: h'
  | a :: h', S l' => a :: update l' f h'
  end.

(** An assignment to fields of the object at [l]. *)
Definition mutate (l : nat) (f : ActivationState -> ActivationState)
    (w : World) : World :=
  set_heap (update l f (heap w)) w.

Definition same_handler (t : string) (l : Listener)
    (p : string * Listener) : bool :=
  String.eqb (fst p) t &&
  match snd p, l with
  | L_activate, L_activate | L_deactivate, L_deactivate
  | L_focus, L_focus | L_blur, L_blur => true
  | _, _ => false
  end.

(** The adapter keeps one entry per event type and listener, as
    [addEventListener] does. *)
Definition registerInteractionHandler (t : string) (l : Listener)
    (w : World) : World :=
  let w := call (RegisterInteractionHandler t l) w in
  if existsb (same_handler t l) (handlers w) then w
  else set_handlers (handlers w ++ [(t, l)]) w.

Definition deregisterInteractionHandler (t : string) (l : Listener)
    (w : World) : World :=
  let w := call (DeregisterInteractionHandler t l) w in
  set_handlers (filter (fun p => negb (same_handler t l p)) (handlers w)) w.

Definition registerResizeHandler (w : World) : World :=
  set_resizeHandler true (call RegisterResizeHandler w).

Definition deregisterResizeHandler (w : World) : World :=
  set_resizeHandler false (call DeregisterResizeHandler w).

(** [animateWithClass(adapter, cls, endEvent)] (util.js) returns the
    function that cancels the animation.  The call is recorded with the
    handle of that function.  The class it adds, and the handler it
    registers for [endEvent] and removes when the animation ends or is
    cancelled, are util.js's and appear neither in [log] nor in
    [handlers]. *)
Definition animateWithClass (c : CssClass) (endEvent : EndEvent) (w : World)
    : nat * World :=
  (nextHandle w,
   set_nextHandle (S (nextHandle w))
                  (call (AnimateWithClass c endEvent (nextHandle w)) w)).

(** A call of one of the [cancel...] fields: the call is recorded, and
    what the cancel function of util.js undoes is not modelled. *)
Definition cancel (h : option nat) (w : World) : World :=
  match h with
  | Some n => call (CancelAnimation n) w
  | None => w
  end.

(** *** Methods *)

(** [new MDCRippleFoundation(adapter)] *)
Definition constructor : World :=
  {| this :=
       {| layoutFrame_ := 0;
          frame_ := {| rect_left := 0; rect_top := 0; width := 0; height := 0 |};
          activationState_ := 0;
          xfDuration_ := 0;
          initialSize_ := 0;
          maxRadius_ := 0;
          unboundedOpacityFadeTimer_ := 0;
          cancelBgBounded_ := None;
          cancelFgBounded_ := None;
          cancelFgUnbounded_ := None;
          unboundedCoords_ := {| coords_left := 0; coords_top := 0 |};
          fgScale_ := 0 |};
     heap := [defaultActivationState_];
     rafQueue := [];
     nextFrameId := 1;
     timeouts := [];
     nextTimerId := 1;
     nextHandle := 0;
     handlers := [];
     resizeHandler := false;
     log := [] |}.

(** [get isSupported_()] *)
Definition isSupported_ (env : Env) (w : World) : bool * World :=
  (browserSupportsCssVars env, call BrowserSupportsCssVars w).

(** [this.activationState_ = this.defaultActivationState_()] *)
Definition resetActivationState (w : World) : World :=
  let (l, w) := new_object defaultActivationState_ w in
  set_this (set_activationState_ l (this w)) w.

Definition addEventListeners_ (w : World) : World :=
  let w :=
    fold_left
      (fun w info =>
         fold_left
           (fun w k => registerInteractionHandler (snd k) (fst k) w)
           info w)
      listenerInfos_ w in
  registerResizeHandler w.

Definition removeEventListeners_ (w : World) : World :=
  let w :=
    fold_left
      (fun w info =>
         fold_left
           (fun w k => deregisterInteractionHandler (snd k) (fst k) w)
           info w)
      listenerInfos_ w in
  deregisterResizeHandler w.

Definition removeCssVars_ (w : World) : World :=
  fold_left (fun w k => call (UpdateCssVariable k Null) w) strings_VAR_keys w.

Definition updateLayoutCssVars_ (env : Env) (w : World) : World :=
  let w := call (UpdateCssVariable VAR_SURFACE_WIDTH
                   (Px (width (frame_ (this w))))) w in
  let w := call (UpdateCssVariable VAR_SURFACE_HEIGHT
                   (Px (height (frame_ (this w))))) w in
  let w := call (UpdateCssVariable VAR_FG_SIZE
                   (Px (initialSize_ (this w)))) w in
  let w := call (UpdateCssVariable VAR_FG_UNBOUNDED_TRANSFORM_DURATION
                   (Ms (xfDuration_ (this w)))) w in
  let w := call (UpdateCssVariable VAR_FG_SCALE
                   (Plain (fgScale_ (this w)))) w in
  let w := call IsUnbounded w in
  if isUnbounded env then
    let coords :=
      {| coords_left :=
           F64.round (width (frame_ (this w)) / 2 - initialSize_ (this w) / 2);
         coords_top :=
           F64.round (height (frame_ (this w)) / 2 - initialSize_ (this w) / 2) |} in
    let w := set_this (set_unboundedCoords_ coords (this w)) w in
    let w := call (UpdateCssVariable VAR_LEFT
                     (Px (coords_left (unboundedCoords_ (this w))))) w in
    call (UpdateCssVariable VAR_TOP
            (Px (coords_top (unboundedCoords_ (this w))))) w
  else w.

Definition layoutInternal_ (env : Env) (w : World) : World :=
  let w := call ComputeBoundingRect w in
  let frame := computeBoundingRect env in
  let maxDim := F64.max (height frame) (width frame) in
  let surfaceDiameter :=
    sqrt (F64.pow2 (width frame) + F64.pow2 (height frame)) in
  (* 60% of the largest dimension of the surface *)
  let initialSize := maxDim * INITIAL_ORIGIN_SCALE numbers in
  (* Diameter of the surface + 10px *)
  let maxRadius := surfaceDiameter + PADDING numbers in
  let fgScale := maxRadius / initialSize in
  let xfDuration := 1000 * sqrt (maxRadius / 1024) in
  updateLayoutCssVars_ env
    (set_this
       (set_layout frame initialSize maxRadius fgScale xfDuration (this w)) w).

Definition init (env : Env) (w : World) : World :=
  let (supported, w) := isSupported_ env w in
  if negb supported then w
  else
    let w := addEventListeners_ w in
    snd (requestAnimationFrame InitFrame w).

Definition destroy (env : Env) (w : World) : World :=
  let (supported, w) := isSupported_ env w in
  if negb supported then w
  else
    let w := removeEventListeners_ w in
    snd (requestAnimationFrame DestroyFrame w).

Definition layout (w : World) : World :=
  let w :=
    if negb (Nat.eqb (layoutFrame_ (this w)) 0)
    then cancelAnimationFrame (layoutFrame_ (this w)) w
    else w in
  let (id, w) := requestAnimationFrame LayoutFrame w in
  set_this (set_layoutFrame_ id (this w)) w.

Definition isPointerActivation (t : string) : bool :=
  String.eqb t "mousedown" || String.eqb t "touchstart"
  || String.eqb t "pointerdown".

Definition activate_ (env : Env) (e : Event) (w : World) : World :=
  let activationState := activationState_ (this w) in
  match nth_error (heap w) activationState with
  | None => w
  | Some s =>
      if isActivated s then w
      else
        let w :=
          mutate activationState
            (fun s =>
               {| isActivated := true;
                  wasActivatedByPointer := isPointerActivation (type e);
                  wasElementMadeActive := wasElementMadeActive s;
                  activationStartTime := Date_now env;
                  activationEvent := Some e |}) w in
        snd (requestAnimationFrame (ConfirmActivation e activationState) w)
  end.

Definition animateUnboundedActivation_ (w : World) : World :=
  call (AddClass FG_UNBOUNDED_ACTIVATION) w.

Definition animateActivation_ (env : Env) (w : World) : World :=
  (* If ripple is currently deactivating, cancel those animations. *)
  let w :=
    fold_left (fun w c => call (RemoveClass c) w)
      [BG_BOUNDED_ACTIVE_FILL; FG_UNBOUNDED_DEACTIVATION; FG_BOUNDED_ACTIVE_FILL]
      w in
  let w := cancel (cancelBgBounded_ (this w)) w in
  let w := cancel (cancelFgBounded_ (this w)) w in
  let w := cancel (cancelFgUnbounded_ (this w)) w in
  let w :=
    if negb (Nat.eqb (unboundedOpacityFadeTimer_ (this w)) 0) then
      let w := clearTimeout (unboundedOpacityFadeTimer_ (this w)) w in
      set_this (set_unboundedOpacityFadeTimer_ 0 (this w)) w
    else w in
  let w := call (AddClass BG_ACTIVE) w in
  let w := call IsUnbounded w in
  if isUnbounded env then animateUnboundedActivation_ w else w.

(** The frame callback of [activate_].  [activationState] is the object
    [activate_] captured, which [this.activationState_] may have left. *)
Definition confirmActivation (env : Env) (e : Event) (activationState : nat)
    (w : World) : World :=
  let (made, w) :=
    if String.eqb (type e) "keydown"
    then (isSurfaceActive env, call IsSurfaceActive w)
    else (true, w) in
  let w := mutate activationState (set_wasElementMadeActive made) w in
  if made then animateActivation_ env w
  else
    (* Reset activation state immediately if element was not made active. *)
    resetActivationState w.

Definition animateUnboundedDeactivation_ (info : DeactivationInfo float)
    (w : World) : World :=
  let w := call (UpdateCssVariable VAR_FG_APPROX_XF
                   (ScaleOf (approxCurScale info))) w in
  let w := call (UpdateCssVariable VAR_FG_UNBOUNDED_OPACITY_DURATION
                   (Ms (opacityDuration info))) w in
  let w := call (UpdateCssVariable VAR_FG_UNBOUNDED_TRANSFORM_DURATION
                   (Ms (transformDuration info))) w in
  let w := call (AddClass FG_UNBOUNDED_DEACTIVATION) w in
  let w := call (RemoveClass FG_UNBOUNDED_ACTIVATION) w in
  let (id, w) := setTimeout (opacityDuration info) w in
  set_this (set_unboundedOpacityFadeTimer_ id (this w)) w.

Definition animateBoundedDeactivation_ (env : Env) (e : Event)
    (isPointerEvent : bool) (w : World) : World :=
  let (startPoint, w) :=
    if isPointerEvent then
      let w := call GetWindowPageOffset w in
      let w := call ComputeBoundingRect w in
      (getNormalizedEventCoords e (getWindowPageOffset env)
                                (computeBoundingRect env), w)
    else
      ({| x := width (frame_ (this w)) / 2;
          y := height (frame_ (this w)) / 2 |}, w) in
  let startPoint :=
    {| x := x startPoint - initialSize_ (this w) / 2;
       y := y startPoint - initialSize_ (this w) / 2 |} in
  let endPoint :=
    {| x := width (frame_ (this w)) / 2 - initialSize_ (this w) / 2;
       y := height (frame_ (this w)) / 2 - initialSize_ (this w) / 2 |} in
  let w := call (UpdateCssVariable VAR_FG_TRANSLATE_START
                   (PxPair (x startPoint) (y startPoint))) w in
  let w := call (UpdateCssVariable VAR_FG_TRANSLATE_END
                   (PxPair (x endPoint) (y endPoint))) w in
  let (bg, w) := animateWithClass BG_BOUNDED_ACTIVE_FILL TransitionEnd w in
  let w := set_this (set_cancelBgBounded_ (Some bg) (this w)) w in
  let (fg, w) := animateWithClass FG_BOUNDED_ACTIVE_FILL AnimationEnd w in
  set_this (set_cancelFgBounded_ (Some fg) (this w)) w.

Definition isPointerDeactivation (t : string) : bool :=
  String.eqb t "touchend" || String.eqb t "pointerup"
  || String.eqb t "mouseup".

Definition animateDeactivation_ (env : Env) (e : Event)
    (state : ActivationState) (w : World) : World :=
  if wasActivatedByPointer state || wasElementMadeActive state then
    let w := call (RemoveClass BG_ACTIVE) w in
    let isPointerEvent := isPointerDeactivation (type e) in
    let w := call IsUnbounded w in
    if isUnbounded env then
      animateUnboundedDeactivation_
        (getUnboundedDeactivationInfo_ numbers
           (xfDuration_ (this w)) (fgScale_ (this w))
           (Date_now env) (activationStartTime state)) w
    else animateBoundedDeactivation_ env e isPointerEvent w
  else w.

(** [actualActivationType === expectedActivationType] *)
Definition same_type (actual : option string) (expected : string) : bool :=
  match actual with
  | Some t => String.eqb t expected
  | None => false
  end.

(** Reading [activationEvent.type] of a null event throws; the model then
    leaves the world as it is. *)
Definition deactivate_ (env : Env) (e : Event) (w : World) : World :=
  match nth_error (heap w) (activationState_ (this w)) with
  | None => w
  | Some activationState =>
      (* This can happen in scenarios such as when you have a keyup event
         that blurs the element. *)
      if negb (isActivated activationState) then w
      else
        match activationEvent activationState with
        | None => w
        | Some activationEvent =>
            let actualActivationType :=
              lookup (type e) DEACTIVATION_ACTIVATION_PAIRS in
            let expectedActivationType := type activationEvent in
            let needsDeactivationUX :=
              same_type actualActivationType expectedActivationType in
            let needsActualDeactivation :=
              if wasActivatedByPointer activationState
              then String.eqb (type e) "mouseup"
              else needsDeactivationUX in
            let state := activationState in
            let w :=
              if needsDeactivationUX
              then snd (requestAnimationFrame (AnimateDeactivation e state) w)
              else w in
            if needsActualDeactivation then resetActivationState w else w
        end
  end.

(** *** Frame callbacks, timers and events *)

Definition runFrameCallback (env : Env) (cb : FrameCallback) (w : World)
    : World :=
  match cb with
  | InitFrame =>
      let w := call (AddClass ROOT) w in
      let w := call IsUnbounded w in
      let w := if isUnbounded env then call (AddClass UNBOUNDED) w else w in
      layoutInternal_ env w
  | ConfirmActivation e activationState =>
      confirmActivation env e activationState w
  | AnimateDeactivation e state => animateDeactivation_ env e state w
  | DestroyFrame =>
      let w := call (RemoveClass ROOT) w in
      let w := call (RemoveClass UNBOUNDED) w in
      removeCssVars_ w
  | LayoutFrame =>
      let w := layoutInternal_ env w in
      set_this (set_layoutFrame_ 0 (this w)) w
  | FocusFrame => call (AddClass BG_ACTIVE) w
  | BlurFrame => call (RemoveClass BG_ACTIVE) w
  end.

Fixpoint pending {A : Type} (id : nat) (q : list (nat * A)) : option A :=
  match q with
  | [] => None
  | (i, a) :: q' => if Nat.eqb i id then Some a else pending id q'
  end.

(** The callbacks with the given ids, in order; one cancelled in the
    meantime is skipped, and one that runs leaves the queue first. *)
Fixpoint runFrameCallbacks (env : Env) (ids : list nat) (w : World) : World :=
  match ids with
  | [] => w
  | id :: ids' =>
      match pending id (rafQueue w) with
      | Some cb =>
          runFrameCallbacks env ids'
            (runFrameCallback env cb (cancelAnimationFrame id w))
      | None => runFrameCallbacks env ids' w
      end
  end.

(** One animation frame: the callbacks requested before it run; those
    requested while it runs wait for the next one. *)
Definition animationFrame (env : Env) (w : World) : World :=
  runFrameCallbacks env (map fst (rafQueue w)) w.

(** The timeout of [animateUnboundedDeactivation_] expires. *)
Definition timeout (id : nat) (w : World) : World :=
  match pending id (timeouts w) with
  | Some _ => call (RemoveClass FG_UNBOUNDED_DEACTIVATION) (clearTimeout id w)
  | None => w
  end.

(** [listeners_[k](e)] *)
Definition listeners_ (env : Env) (k : Listener) (e : Event) (w : World)
    : World :=
  match k with
  | L_activate => activate_ env e w
  | L_deactivate => deactivate_ env e w
  | L_focus => snd (requestAnimationFrame FocusFrame w)
  | L_blur => snd (requestAnimationFrame BlurFrame w)
  end.

(** The adapter delivers an event to the handlers registered for its
    type, in the order of their registration. *)
Definition dispatchEvent (env : Env) (e : Event) (w : World) : World :=
  fold_left (fun w k => listeners_ env k e w)
    (map snd (filter (fun p => String.eqb (fst p) (type e)) (handlers w)))
    w.

(** [resizeHandler_], when registered. *)
Definition resize (w : World) : World :=
  if resizeHandler w then layout w else w.

(** What can happen to a foundation: a call of its public methods, an
    event or a resize delivered by the adapter, an animation frame, and the
    expiry of a timeout. *)
Inductive Op : Type :=
  | Init | Destroy | Layout
  | Dispatch (e : Event)
  | Resize
  | AnimationFrame
  | Timeout (id : nat).

Definition step (env : Env) (op : Op) (w : World) : World :=
  match op with
  | Init => init env w
  | Destroy => destroy env w
  | Layout => layout w
  | Dispatch e => dispatchEvent env e w
  | Resize => resize w
  | AnimationFrame => animationFrame env w
  | Timeout id => timeout id w
  end.

Definition run (ops : list (Env * Op)) (w : World) : World :=
  fold_left (fun w p => step (fst p) (snd p) w) ops w.

(** The worlds a foundation can be in. *)
Inductive reachable : World -> Prop :=
  | reachable_new : reachable constructor
  | reachable_step : forall env op w,
      reachable w -> reachable (step env op w).
End RippleFoundation.

(** ** Definitions used by the properties *)

(** The literal [0.6], the value of [INITIAL_ORIGIN_SCALE] ("60% of the
    largest dimension of the surface"). *)
Definition sixty_percent : float := 0x1.3333333333333p-1.

(** The layout metrics as the specification words them:
    [initialSize = 0.6 * max(width, height)],
    [maxRadius = sqrt(width² + height²) + padding],
    [fgScale = maxRadius / initialSize],
    [xfDuration = 1000 * sqrt(maxRadius / 1024)]. *)
Record LayoutMetrics : Type := {
  initialSize : float;
  maxRadius : float;
  fgScale : float;
  xfDuration : float
}.

Definition spec_computeLayoutMetrics (padding : float) (frame : ClientRect)
    : LayoutMetrics :=
  let initialSize :=
    (sixty_percent * F64.max (width frame) (height frame))%float in
  let maxRadius :=
    (sqrt (width frame * width frame + height frame * height frame)
     + padding)%float in
  {| initialSize := initialSize;
     maxRadius := maxRadius;
     fgScale := (maxRadius / initialSize)%float;
     xfDuration := (1000 * sqrt (maxRadius / 1024))%float |}.

(** Modelled from the spec: the numbers of constants.js, which is not among
    the sources.  [PADDING] and [INITIAL_ORIGIN_SCALE] are those of the
    comments of [layoutInternal_] and of the specification (10px, 60%); the
    five timing constants are sample values, which layout and bounded
    deactivation do not read. *)
Definition scenario_numbers : Numbers float :=
  {| FG_TRANSFORM_DELAY_MS := 80%float;
     OPACITY_DURATION_DIVISOR := 3%float;
     ACTIVE_OPACITY_DURATION_MS := 110%float;
     UNBOUNDED_TRANSFORM_DURATION_MS := 200%float;
     MIN_OPACITY_DURATION_MS := 200%float;
     PADDING := 10%float;
     INITIAL_ORIGIN_SCALE := sixty_percent |}.

(** A supporting, bounded environment whose surface measures
    [w] by [h] and sits at the origin of the page. *)
Definition bounded_env (w h : float) : Env :=
  {| browserSupportsCssVars := true;
     isUnbounded := false;
     isSurfaceActive := true;
     computeBoundingRect :=
       {| rect_left := 0%float; rect_top := 0%float; width := w; height := h |};
     getWindowPageOffset := {| x := 0%float; y := 0%float |};
     Date_now := 0%float |}.

(** An event of the given type at the page position (10, 10). *)
Definition event_at_10_10 (t : string) : Event :=
  {| type := t; pageX := 10%float; pageY := 10%float |}.

(** Modelled from the spec: [getNormalizedEventCoords] of util.js, which is
    not among the sources.  The specification calls its result the point of
    interaction; here it is the page position of the event relative to the
    surface, whose corner is at the viewport offset plus [left] and [top]. *)
Definition page_coords (e : Event) (pageOffset : Point) (clientRect : ClientRect)
    : Point :=
  {| x := (pageX e - (x pageOffset + rect_left clientRect))%float;
     y := (pageY e - (y pageOffset + rect_top clientRect))%float |}.

(** The [VAR_] keys the foundation reads, for the scenarios. *)
Definition scenario_VAR_keys : list CssVar :=
  [ VAR_SURFACE_WIDTH; VAR_SURFACE_HEIGHT; VAR_FG_SIZE;
    VAR_FG_UNBOUNDED_OPACITY_DURATION; VAR_FG_UNBOUNDED_TRANSFORM_DURATION;
    VAR_LEFT; VAR_TOP; VAR_FG_APPROX_XF; VAR_FG_SCALE;
    VAR_FG_TRANSLATE_START; VAR_FG_TRANSLATE_END ].

(** A run of the foundation from its construction, with the scenario's
    constants and helper. *)
Definition scenario (ops : list (Env * Op)) : World :=
  run scenario_numbers page_coords scenario_VAR_keys ops constructor.

Definition CssVar_eqb (a b : CssVar) : bool :=
  match a, b with
  | VAR_SURFACE_WIDTH, VAR_SURFACE_WIDTH
  | VAR_SURFACE_HEIGHT, VAR_SURFACE_HEIGHT
  | VAR_FG_SIZE, VAR_FG_SIZE
  | VAR_FG_UNBOUNDED_OPACITY_DURATION, VAR_FG_UNBOUNDED_OPACITY_DURATION
  | VAR_FG_UNBOUNDED_TRANSFORM_DURATION, VAR_FG_UNBOUNDED_TRANSFORM_DURATION
  | VAR_LEFT, VAR_LEFT
  | VAR_TOP, VAR_TOP
  | VAR_FG_APPROX_XF, VAR_FG_APPROX_XF
  | VAR_FG_SCALE, VAR_FG_SCALE
  | VAR_FG_TRANSLATE_START, VAR_FG_TRANSLATE_START
  | VAR_FG_TRANSLATE_END, VAR_FG_TRANSLATE_END => true
  | _, _ => false
  end.

(** The values given to one style variable, in order. *)
Fixpoint cssVariableUpdates (v : CssVar) (calls : list Call) : list CssValue :=
  match calls with
  | [] => []
  | UpdateCssVariable v' value :: rest =>
      if CssVar_eqb v v' then value :: cssVariableUpdates v rest
      else cssVariableUpdates v rest
  | _ :: rest => cssVariableUpdates v rest
  end.

(** The calls of the bounded deactivation visuals for an interaction at
    [start] that ends at [finish], with the handles of the two animations. *)
Definition boundedDeactivationCalls (start finish : Point) (bg fg : nat)
    : list Call :=
  [ RemoveClass BG_ACTIVE; IsUnbounded; GetWindowPageOffset; ComputeBoundingRect;
    UpdateCssVariable VAR_FG_TRANSLATE_START (PxPair (x start) (y start));
    UpdateCssVariable VAR_FG_TRANSLATE_END (PxPair (x finish) (y finish));
    AnimateWithClass BG_BOUNDED_ACTIVE_FILL TransitionEnd bg;
    AnimateWithClass FG_BOUNDED_ACTIVE_FILL AnimationEnd fg ].

(** The object [this.activationState_] refers to. *)
Definition currentActivationState (w : World) : option ActivationState :=
  nth_error (heap w) (activationState_ (this w)).

(** The deactivation-visual callbacks among the pending frame callbacks. *)
Definition deactivationCallbacks (q : list (nat * FrameCallback))
    : list FrameCallback :=
  filter (fun cb => match cb with AnimateDeactivation _ _ => true | _ => false end)
         (map snd q).

(** The style markers added, in order. *)
Fixpoint addedClasses (calls : list Call) : list CssClass :=
  match calls with
  | [] => []
  | AddClass c :: rest => c :: addedClasses rest
  | _ :: rest => addedClasses rest
  end.

(** How often the background-active marker was removed, which is how the
    deactivation visuals begin. *)
Fixpoint deactivationVisuals (calls : list Call) : nat :=
  match calls with
  | [] => 0
  | RemoveClass BG_ACTIVE :: rest => S (deactivationVisuals rest)
  | _ :: rest => deactivationVisuals rest
  end.

(** How often the adapter was asked [browserSupportsCssVars]. *)
Fixpoint capabilityQueries (calls : list Call) : nat :=
  match calls with
  | [] => 0
  | BrowserSupportsCssVars :: rest => S (capabilityQueries rest)
  | _ :: rest => capabilityQueries rest
  end.

(** The number of [init] and [destroy] calls among the operations. *)
Fixpoint lifecycleCalls (ops : list (Env * Op)) : nat :=
  match ops with
  | [] => 0
  | (_, Init) :: rest | (_, Destroy) :: rest => S (lifecycleCalls rest)
  | _ :: rest => lifecycleCalls rest
  end.

(** The invariant of the activation state of section 3: an activated state
    has its event, and a state that is not activated is the default one. *)
Definition activationInvariant (s : ActivationState) : Prop :=
  (isActivated s = true -> activationEvent s <> None)
  /\ (isActivated s = false -> s = defaultActivationState_).

(** The object at [l] has been activated. *)
Definition activatedAt (l : nat) (w : World) : Prop :=
  exists s, nth_error (heap w) l = Some s /\ isActivated s = true
            /\ activationEvent s <> None.

(** The object captured by a pending confirmation callback of [activate_]
    has been activated. *)
Definition confirmationsActivated (w : World) : Prop :=
  forall id e l,
    In (id, ConfirmActivation e l) (rafQueue w) -> activatedAt l w.

(** The handlers in the adapter's table are those of [listenerInfos_]. *)
Definition handlersFromListenerInfos (w : World) : Prop :=
  forall t k, In (t, k) (handlers w) -> In (k, t) (List.concat listenerInfos_).

(** What holds of every world a foundation can be in. *)
Definition worldInvariant (w : World) : Prop :=
  (exists s, currentActivationState w = Some s /\ activationInvariant s)
  /\ confirmationsActivated w
  /\ handlersFromListenerInfos w.

(** [w'] has the activation-state objects and the current one of [w], no
    new confirmation callback, and no handler that is not of [w] or of
    [listenerInfos_]. *)
Definition stable (w w' : World) : Prop :=
  heap w' = heap w
  /\ activationState_ (this w') = activationState_ (this w)
  /\ (forall id e l, In (id, ConfirmActivation e l) (rafQueue w') ->
                     In (id, ConfirmActivation e l) (rafQueue w))
  /\ (forall t k, In (t, k) (handlers w') ->
                  In (t, k) (handlers w) \/ In (k, t) (List.concat listenerInfos_)).

(** Every pending frame callback of [q'] is one of [q] or is [cb]. *)
Definition onlyAdds (cb : FrameCallback) (q q' : list (nat * FrameCallback))
    : Prop :=
  forall p, In p q' -> In p q \/ snd p = cb.

(** The calls an operation leaves behind hold no capability query. *)
Definition quiet (f : World -> World) : Prop :=
  forall w, capabilityQueries (log (f w)) = capabilityQueries (log w).

(** A supporting, bounded 100 by 50 surface on which a key press does not
    make the surface active. *)
Definition unpressed_env : Env :=
  {| browserSupportsCssVars := true;
     isUnbounded := false;
     isSurfaceActive := false;
     computeBoundingRect :=
       {| rect_left := 0%float; rect_top := 0%float;
          width := 100%float; height := 50%float |};
     getWindowPageOffset := {| x := 0%float; y := 0%float |};
     Date_now := 0%float |}.

(** An animation frame, or none. *)
Definition frames (env : Env) (b : bool) : list (Env * Op) :=
  if b then [(env, AnimationFrame)] else [].

(** Initialization, a touch-start, and possibly a frame. *)
Definition touchstart_ops (frame1 : bool) : list (Env * Op) :=
  [ (bounded_env 100 50, Init); (bounded_env 100 50, AnimationFrame);
    (bounded_env 100 50, Dispatch (event_at_10_10 "touchstart")) ]
  ++ frames (bounded_env 100 50) frame1.

(** ... then a touch-end ... *)
Definition touchend_ops (frame1 : bool) : list (Env * Op) :=
  touchstart_ops frame1
  ++ [(bounded_env 100 50, Dispatch (event_at_10_10 "touchend"))].

(** ... then possibly a frame, and the synthesized mouse-up. *)
Definition mouseup_ops (frame1 frame2 : bool) : list (Env * Op) :=
  touchend_ops frame1 ++ frames (bounded_env 100 50) frame2
  ++ [(bounded_env 100 50, Dispatch (event_at_10_10 "mouseup"))].

(** The elapsed times 0, 1, ..., [n] ms. *)
Fixpoint milliseconds (n : nat) : list float :=
  match n with
  | O => [0%float]
  | S k => milliseconds k ++ [F64.of_Z (Z.of_nat n)]
  end.

(** Each number of the list is [<=] the next. *)
Fixpoint nondecreasing (l : list float) : bool :=
  match l with
  | a :: (b :: _) as rest => (a <=? b)%float && nondecreasing rest
  | _ => true
  end.

(** *** The value of a binary64 number, and rounding

    What the proofs about the order of binary64 numbers use.  A quantity
    [N / D] is located on the grid of half units by [qcode]: twice the
    number of half units below it, plus one when it lies strictly between
    two grid points.  [rcode] is the same position read off a mantissa with
    its round and sticky bits, [rne] rounds a position to the nearest
    integer, ties to even, and [Rval N D e] is the value, in units of
    2^-1074, of [N / D * 2^e] rounded to binary64. *)
Section RoundingDefinitions.
Local Open Scope Z_scope.

Definition qcode (N D : Z) : Z :=
  2 * (2 * N / D) + (if (2 * N) mod D =? 0 then 0 else 1).

Definition rcode (mrs : shr_record) : Z :=
  4 * shr_m mrs + (if shr_r mrs then 2 else 0) + (if shr_s mrs then 1 else 0).

Definition lcode (l : location) : Z :=
  match l with
  | loc_Exact => 0
  | loc_Inexact Lt => 1
  | loc_Inexact Eq => 2
  | loc_Inexact Gt => 3
  end.

Definition rne (c : Z) : Z :=
  c / 4 + (if (c mod 4 =? 3) || ((c mod 4 =? 2) && Z.odd (c / 4)) then 1 else 0).

(** The value of the infinities, above every finite value. *)
Definition SFbig : Z := 2 ^ 2098.

(** The value of a number in units of 2^-1074. *)
Definition SF2Z (x : spec_float) : Z :=
  match x with
  | S754_zero _ => 0
  | S754_nan => 0
  | S754_infinity s => if s then - SFbig else SFbig
  | S754_finite s m e =>
      if s then - (Z.pos m * 2 ^ (e + 1074)) else Z.pos m * 2 ^ (e + 1074)
  end.

Definition Rval (N D e : Z) : Z :=
  let ec := fexp prec emax (Zdigits2 (N / D) + e) in
  Z.min (rne (qcode N (D * 2 ^ (ec - e))) * 2 ^ (ec + 1074)) SFbig.

Definition signed (s : bool) (v : Z) : Z := if s then - v else v.

(** The odd extension of [G] to all values, the infinities fixed. *)
Definition symmetric (G : Z -> Z) (V : Z) : Z :=
  if V <=? - SFbig then - SFbig
  else if SFbig <=? V then SFbig
  else if V <? 0 then - G (- V) else G V.

(** The value of the product of a positive number [mc * 2^ec] and a number
    of value [V], and of the quotient of a number of value [V] and a
    positive number [ma * 2^ea]. *)
Definition mul_value (mc : positive) (ec : Z) (V : Z) : Z :=
  Rval (Z.pos mc * V * 2 ^ 1000) 1 (ec - 2074).

Definition div_value (ma : positive) (ea : Z) (V : Z) : Z :=
  Rval (V * 2 ^ 2100) (Z.pos ma) (- 3174 - ea).
End RoundingDefinitions.

(** The number of [isSurfaceActive] queries among the calls. *)
Definition surfaceQueries (calls : list Call) : nat :=
  List.length
    (filter (fun c => match c with IsSurfaceActive => true | _ => false end)
            calls).

(** The types of the events that end a cycle. *)
Definition deactivationTypes : list string :=
  ["touchend"; "pointerup"; "mouseup"; "keyup"]%string.

(** ** Definitions used by the further properties *)

(** The world after construction and [n] capability queries. *)
Definition dormant (n : nat) : World :=
  Nat.iter n (call BrowserSupportsCssVars) constructor.

(** Operations on an environment that lacks the required feature, the
    public [layout] apart. *)
Definition unsupportedOps (ops : list (Env * Op)) : Prop :=
  Forall (fun p => browserSupportsCssVars (fst p) = false /\ snd p <> Layout) ops.

(** The types of the events that start a cycle. *)
Definition activationTypes : list string :=
  ["touchstart"; "pointerdown"; "mousedown"; "keydown"]%string.

(** An activated state stores an event of an activation type, and was
    activated by pointer unless that type is keydown. *)
Definition typedActivation (s : ActivationState) : Prop :=
  isActivated s = true ->
  exists e0,
    activationEvent s = Some e0
    /\ In (type e0) activationTypes
    /\ wasActivatedByPointer s = negb (String.eqb (type e0) "keydown").

Definition isLayoutFrame (cb : FrameCallback) : bool :=
  match cb with
  | LayoutFrame => true
  | _ => false
  end.

(** The frame ids are fresh, and a pending layout callback is the one
    [layoutFrame_] names. *)
Definition queueInvariant (w : World) : Prop :=
  (1 <= nextFrameId w)%nat
  /\ (forall id cb, In (id, cb) (rafQueue w) -> 1 <= id < nextFrameId w)%nat
  /\ NoDup (map fst (rafQueue w))
  /\ (forall id, In (id, LayoutFrame) (rafQueue w) -> layoutFrame_ (this w) = id).

(** [w'] has the frame callbacks, the next frame id and the [layoutFrame_]
    of [w]. *)
Definition queueStable (w w' : World) : Prop :=
  rafQueue w' = rafQueue w
  /\ nextFrameId w' = nextFrameId w
  /\ layoutFrame_ (this w') = layoutFrame_ (this w).

(** The value a style variable was given last ([calls] newest first). *)
Fixpoint latestCssVariable (v : CssVar) (calls : list Call) : option CssValue :=
  match calls with
  | [] => None
  | UpdateCssVariable v' value :: rest =>
      if CssVar_eqb v v' then Some value else latestCssVariable v rest
  | _ :: rest => latestCssVariable v rest
  end.

(** A supporting, unbounded 100 by 50 surface at the time [now]. *)
Definition unbounded_env (now : float) : Env :=
  {| browserSupportsCssVars := true;
     isUnbounded := true;
     isSurfaceActive := true;
     computeBoundingRect :=
       {| rect_left := 0%float; rect_top := 0%float;
          width := 100%float; height := 50%float |};
     getWindowPageOffset := {| x := 0%float; y := 0%float |};
     Date_now := now |}.

(** An environment that lacks the required feature. *)
Definition unsupported_env : Env :=
  {| browserSupportsCssVars := false;
     isUnbounded := false;
     isSurfaceActive := true;
     computeBoundingRect :=
       {| rect_left := 0%float; rect_top := 0%float;
          width := 100%float; height := 50%float |};
     getWindowPageOffset := {| x := 0%float; y := 0%float |};
     Date_now := 0%float |}.

(** The current activation state, when activated, is typed. *)
Definition typedCurrent (w : World) : Prop :=
  forall s, currentActivationState w = Some s -> typedActivation s.

(** The timer ids start at 1, and the ids of the pending timeouts were
    issued before. *)
Definition timersFresh (w : World) : Prop :=
  (1 <= nextTimerId w)%nat
  /\ forall id d, In (id, d) (timeouts w) -> (id < nextTimerId w)%nat.

(** [w'] has the timeouts and the next timer id of [w]. *)
Definition timersStable (w w' : World) : Prop :=
  timeouts w' = timeouts w /\ nextTimerId w' = nextTimerId w.

(** The adapter calls that measure the surface. *)
Definition isMeasurement (c : Call) : bool :=
  match c with
  | ComputeBoundingRect | GetWindowPageOffset => true
  | _ => false
  end.

(** The calls that set a style variable to null. *)
Definition isNullUpdate (c : Call) : bool :=
  match c with
  | UpdateCssVariable _ Null => true
  | _ => false
  end.

(** * Properties *)

(** ** Binary64 facts *)

Lemma float_mul_comm (a b : float) : (a * b = b * a)%float.
Proof.
  apply Prim2SF_inj. rewrite !mul_spec.
  destruct (Prim2SF a) as [sa| sa| |sa ma ea], (Prim2SF b) as [sb| sb| |sb mb eb];
    cbn [SF64mul SFmul]; try reflexivity; try (now rewrite xorb_comm).
  now rewrite xorb_comm, Pos.mul_comm, Z.add_comm.
Qed.

Lemma SFcompare_Lt_Gt (f g : spec_float) :
  SFcompare f g = Some Lt -> SFcompare g f = Some Gt.
Proof.
  destruct f as [s| s| |s m e], g as [t| t| |t n k]; cbn [SFcompare];
    try discriminate; try (destruct s; discriminate || reflexivity);
    try (destruct t; discriminate || reflexivity);
    try (destruct s, t; discriminate || reflexivity).
  destruct s, t; try discriminate; try reflexivity;
    change (Pos.compare_cont Eq n m) with (Pos.compare n m);
    change (Pos.compare_cont Eq m n) with (Pos.compare m n);
    rewrite (Z.compare_antisym e k), (Pos.compare_antisym m n);
    destruct (e ?= k)%Z; cbn [CompOpp]; try discriminate; try reflexivity;
    destruct (m ?= n)%positive; cbn [CompOpp]; discriminate || reflexivity.
Qed.

Lemma SFcompare_Gt_Lt (f g : spec_float) :
  SFcompare f g = Some Gt -> SFcompare g f = Some Lt.
Proof.
  destruct f as [s| s| |s m e], g as [t| t| |t n k]; cbn [SFcompare];
    try discriminate; try (destruct s; discriminate || reflexivity);
    try (destruct t; discriminate || reflexivity);
    try (destruct s, t; discriminate || reflexivity).
  destruct s, t; try discriminate; try reflexivity;
    change (Pos.compare_cont Eq n m) with (Pos.compare n m);
    change (Pos.compare_cont Eq m n) with (Pos.compare m n);
    rewrite (Z.compare_antisym e k), (Pos.compare_antisym m n);
    destruct (e ?= k)%Z; cbn [CompOpp]; try discriminate; try reflexivity;
    destruct (m ?= n)%positive; cbn [CompOpp]; discriminate || reflexivity.
Qed.

(** Two numbers that compare equal are the same number or two zeros. *)
Lemma SFcompare_Eq (f g : spec_float) :
  SFcompare f g = Some Eq ->
  f = g \/ (exists s t, f = S754_zero s /\ g = S754_zero t).
Proof.
  destruct f as [s| s| |s m e], g as [t| t| |t n k]; cbn [SFcompare];
    try discriminate;
    try (destruct s; discriminate); try (destruct t; discriminate).
  - right. eauto.
  - destruct s, t; try discriminate; now left.
  - change (Pos.compare_cont Eq m n) with (Pos.compare m n).
    destruct s, t; try discriminate;
      destruct (e ?= k)%Z eqn:E; try discriminate;
      destruct (m ?= n)%positive eqn:M; try discriminate;
      apply Z.compare_eq in E; apply Pos.compare_eq in M; subst; now left.
Qed.

Lemma is_nan_false (a : float) : is_nan a = false -> Prim2SF a <> S754_nan.
Proof.
  unfold is_nan. rewrite FloatAxioms.eqb_spec. intros H E. rewrite E in H.
  discriminate.
Qed.

Lemma SFcompare_some (f g : spec_float) :
  f <> S754_nan -> g <> S754_nan -> exists c, SFcompare f g = Some c.
Proof.
  destruct f, g; cbn [SFcompare]; try congruence; eauto.
Qed.

Lemma float_zero_cases (a : float) (s : bool) :
  Prim2SF a = S754_zero s -> a = 0%float \/ a = (-0)%float.
Proof.
  intros H. rewrite <- (SF2Prim_Prim2SF a), H.
  destruct s; [right|left]; reflexivity.
Qed.

(** [Math.max] does not depend on the order of its arguments, NaN and the
    two zeros included. *)
Lemma F64_max_comm (a b : float) : F64.max a b = F64.max b a.
Proof.
  unfold F64.max. rewrite (orb_comm (is_nan b)).
  destruct (is_nan a) eqn:Na; [reflexivity|].
  destruct (is_nan b) eqn:Nb; [reflexivity|]. cbn [orb].
  apply is_nan_false in Na, Nb.
  destruct (SFcompare_some Na Nb) as [c Hc].
  pose proof (FloatAxioms.ltb_spec a b) as Hab.
  pose proof (FloatAxioms.ltb_spec b a) as Hba.
  unfold SFltb in Hab, Hba. rewrite Hc in Hab.
  destruct c.
  - destruct (SFcompare_Eq _ _ Hc) as [E | (s & t & Ea & Eb)].
    + apply Prim2SF_inj in E. subst b.
      now destruct (a <? a)%float, (get_sign a).
    + destruct (float_zero_cases _ Ea) as [-> | ->],
               (float_zero_cases _ Eb) as [-> | ->]; reflexivity.
  - rewrite (SFcompare_Lt_Gt _ _ Hc) in Hba. now rewrite Hab, Hba.
  - destruct (SFcompare_some Nb Na) as [c' Hc']. rewrite Hc' in Hba.
    destruct c'.
    + destruct (SFcompare_Eq _ _ Hc') as [E | (s & t & Ea & Eb)].
      * apply Prim2SF_inj in E. subst b.
        now destruct (a <? a)%float, (get_sign a).
      * destruct (float_zero_cases _ Ea) as [-> | ->],
                 (float_zero_cases _ Eb) as [-> | ->]; reflexivity.
    + now rewrite Hab, Hba.
    + apply SFcompare_Gt_Lt in Hc. congruence.
Qed.

(** ** The order of binary64 numbers and rounding *)

Section Binary64Rounding.
Local Open Scope Z_scope.

Lemma qcode_split (N D : Z) :
  0 < D ->
  exists a b, 2 * N = D * a + b /\ 0 <= b < D
              /\ qcode N D = 2 * a + (if b =? 0 then 0 else 1).
Proof.
  intros HD. exists (2 * N / D), ((2 * N) mod D). split; [|split].
  - apply Z.div_mod. lia.
  - apply Z.mod_pos_bound. lia.
  - reflexivity.
Qed.

Lemma qcode_unique (N D a b : Z) :
  0 < D -> 2 * N = D * a + b -> 0 <= b < D ->
  qcode N D = 2 * a + (if b =? 0 then 0 else 1).
Proof.
  intros HD E Hb. unfold qcode.
  assert (Ha : 2 * N / D = a).
  { symmetry. apply (Z.div_unique_pos _ _ _ b); lia. }
  assert (Hm : (2 * N) mod D = b).
  { symmetry. apply (Z.mod_unique_pos _ _ a); lia. }
  now rewrite Ha, Hm.
Qed.

Lemma qcode_nonneg (N D : Z) : 0 <= N -> 0 < D -> 0 <= qcode N D.
Proof.
  intros HN HD. unfold qcode.
  assert (0 <= 2 * N / D) by (apply Z.div_pos; lia).
  destruct (_ =? 0); lia.
Qed.

Lemma qcode_mono (N1 N2 D : Z) :
  0 < D -> N1 <= N2 -> qcode N1 D <= qcode N2 D.
Proof.
  intros HD H.
  destruct (qcode_split N1 HD) as (a1 & b1 & E1 & B1 & ->).
  destruct (qcode_split N2 HD) as (a2 & b2 & E2 & B2 & ->).
  assert (a1 <= a2) by nia.
  destruct (Z.eq_dec a1 a2) as [->|].
  - assert (b1 <= b2) by lia.
    destruct (Z.eqb_spec b1 0), (Z.eqb_spec b2 0); lia.
  - destruct (b1 =? 0), (b2 =? 0); lia.
Qed.

Lemma qcode_div4 (N D : Z) : 0 < D -> qcode N D / 4 = N / D.
Proof.
  intros HD.
  destruct (qcode_split N HD) as (a & b & E & B & ->).
  pose proof (Z.div_mod N D ltac:(lia)) as EN.
  pose proof (Z.mod_pos_bound N D HD) as BN.
  symmetry. apply (Z.div_unique_pos _ _ _ (2 * a + (if b =? 0 then 0 else 1) - 4 * (N / D))).
  - assert (2 * (N / D) <= a < 2 * (N / D) + 2) by nia.
    destruct (b =? 0); lia.
  - lia.
Qed.

Lemma qcode_double (N D : Z) :
  0 < D ->
  qcode N (2 * D)
  = 2 * (qcode N D / 4) + (if qcode N D mod 4 =? 0 then 0 else 1).
Proof.
  intros HD.
  rewrite (qcode_div4 N HD).
  destruct (qcode_split N HD) as (a & b & E & B & Hq).
  pose proof (Z.div_mod N D ltac:(lia)) as EN.
  pose proof (Z.mod_pos_bound N D HD) as BN.
  set (m := N / D) in *. set (r := N mod D) in *.
  assert (Ha : a = 2 * m \/ a = 2 * m + 1) by nia.
  assert (Hmod : qcode N D mod 4 = qcode N D - 4 * m).
  { symmetry. apply (Z.mod_unique_pos _ _ m); [|lia].
    rewrite Hq. destruct (b =? 0); lia. }
  rewrite Hmod, Hq.
  rewrite (@qcode_unique N (2 * D) m (2 * r)); [|lia|lia|lia].
  destruct (Z.eqb_spec (2 * r) 0), (Z.eqb_spec b 0),
    (Z.eqb_spec (2 * a + 0 - 4 * m) 0), (Z.eqb_spec (2 * a + 1 - 4 * m) 0);
    lia.
Qed.

Lemma qcode_cancel (N D t : Z) :
  0 < D -> 0 < t -> qcode (N * t) (D * t) = qcode N D.
Proof.
  intros HD Ht. unfold qcode.
  replace (2 * (N * t)) with ((2 * N) * t) by ring.
  rewrite Z.div_mul_cancel_r by lia.
  rewrite Z.mul_mod_distr_r by lia.
  destruct (Z.eqb_spec ((2 * N) mod D) 0) as [->|Hn]; [reflexivity|].
  destruct (Z.eqb_spec ((2 * N) mod D * t) 0) as [E|E]; [|reflexivity].
  apply Z.mul_eq_0 in E. lia.
Qed.

Lemma qcode_exact (N : Z) : qcode N 1 = 4 * N.
Proof.
  unfold qcode. rewrite Z.div_1_r, Z.mod_1_r, Z.eqb_refl. lia.
Qed.

Lemma rne_bounds (c : Z) : c / 4 <= rne c <= c / 4 + 1.
Proof. unfold rne. destruct (_ || _); lia. Qed.

Lemma rne_mono (c1 c2 : Z) : c1 <= c2 -> rne c1 <= rne c2.
Proof.
  intros H.
  pose proof (Z.div_mod c1 4 ltac:(lia)) as E1.
  pose proof (Z.div_mod c2 4 ltac:(lia)) as E2.
  pose proof (Z.mod_pos_bound c1 4 ltac:(lia)) as B1.
  pose proof (Z.mod_pos_bound c2 4 ltac:(lia)) as B2.
  pose proof (rne_bounds c1). pose proof (rne_bounds c2).
  destruct (Z.eq_dec (c1 / 4) (c2 / 4)) as [E|E]; [|lia].
  unfold rne. rewrite E.
  assert (c1 mod 4 <= c2 mod 4) by lia.
  destruct (Z.eqb_spec (c1 mod 4) 3), (Z.eqb_spec (c2 mod 4) 3),
    (Z.eqb_spec (c1 mod 4) 2), (Z.eqb_spec (c2 mod 4) 2),
    (Z.odd (c2 / 4)); cbn; lia.
Qed.

(** *** Number of binary digits *)

Lemma digits2_pos_size (p : positive) : digits2_pos p = Pos.size p.
Proof. induction p as [p IH|p IH|]; cbn; now rewrite ?IH. Qed.

Lemma Zdigits2_nonneg (m : Z) : 0 <= Zdigits2 m.
Proof. destruct m; cbn; lia. Qed.

Lemma Zdigits2_bounds (m : Z) :
  0 < m -> 2 ^ (Zdigits2 m - 1) <= m < 2 ^ Zdigits2 m.
Proof.
  destruct m as [|p|p]; try lia. intros _. cbn [Zdigits2].
  rewrite digits2_pos_size.
  pose proof (Pos.size_gt p) as Hgt. pose proof (Pos.size_le p) as Hle.
  assert (E : Z.pos (2 ^ Pos.size p) = 2 ^ Z.pos (Pos.size p))
    by apply Pos2Z.inj_pow.
  split.
  - assert (2 * 2 ^ (Z.pos (Pos.size p) - 1) = 2 ^ Z.pos (Pos.size p)).
    { rewrite <- Z.pow_succ_r by lia. f_equal. lia. }
    assert (Z.pos (2 ^ Pos.size p) <= Z.pos p~0) by exact Hle.
    lia.
  - rewrite <- E. exact Hgt.
Qed.

Lemma Zdigits2_upper (m : Z) : 0 <= m -> m < 2 ^ Zdigits2 m.
Proof.
  intros H. destruct (Z.eq_dec m 0) as [->|]; [reflexivity|].
  apply Zdigits2_bounds. lia.
Qed.

Lemma Zdigits2_unique (m d : Z) :
  2 ^ (d - 1) <= m < 2 ^ d -> 0 < m -> Zdigits2 m = d.
Proof.
  intros [Hl Hu] Hm.
  destruct (Zdigits2_bounds Hm) as [Hl' Hu'].
  pose proof (Zdigits2_nonneg m).
  assert (0 < d).
  { destruct (Z_lt_le_dec 0 d); [assumption|].
    assert (2 ^ d <= 2 ^ 0) by (apply Z.pow_le_mono_r; lia).
    change (2 ^ 0) with 1 in *. lia. }
  assert (Zdigits2 m - 1 < d).
  { apply (Z.pow_lt_mono_r_iff 2); lia. }
  assert (d - 1 < Zdigits2 m).
  { apply (Z.pow_lt_mono_r_iff 2); lia. }
  lia.
Qed.

Lemma Zdigits2_mono (m1 m2 : Z) :
  0 <= m1 <= m2 -> Zdigits2 m1 <= Zdigits2 m2.
Proof.
  intros [H1 H2].
  destruct (Z.eq_dec m1 0) as [->|]; [apply Zdigits2_nonneg|].
  destruct (Zdigits2_bounds (m := m1)) as [Hl1 Hu1]; [lia|].
  destruct (Zdigits2_bounds (m := m2)) as [Hl2 Hu2]; [lia|].
  pose proof (Zdigits2_nonneg m2).
  assert (Zdigits2 m1 - 1 < Zdigits2 m2); [|lia].
  apply (Z.pow_lt_mono_r_iff 2); lia.
Qed.

(** *** Shifting a mantissa with its round and sticky bits *)

Lemma rcode_div4 (mrs : shr_record) : rcode mrs / 4 = shr_m mrs.
Proof.
  unfold rcode. symmetry.
  apply (Z.div_unique_pos _ _ _
           ((if shr_r mrs then 2 else 0) + (if shr_s mrs then 1 else 0)));
    destruct (shr_r mrs), (shr_s mrs); lia.
Qed.

Lemma rcode_mod4 (mrs : shr_record) :
  rcode mrs mod 4
  = (if shr_r mrs then 2 else 0) + (if shr_s mrs then 1 else 0).
Proof.
  unfold rcode. symmetry.
  apply (Z.mod_unique_pos _ _ (shr_m mrs));
    destruct (shr_r mrs), (shr_s mrs); lia.
Qed.

Lemma shr_1_fields (mrs : shr_record) :
  0 <= shr_m mrs ->
  shr_1 mrs
  = {| shr_m := Z.div2 (shr_m mrs);
       shr_r := Z.odd (shr_m mrs);
       shr_s := shr_r mrs || shr_s mrs |}.
Proof.
  destruct mrs as [m r s]. cbn [shr_m shr_r shr_s].
  destruct m as [|[p|p|]|p]; intros H; try reflexivity. lia.
Qed.

Lemma shr_1_code (mrs : shr_record) :
  0 <= shr_m mrs ->
  rcode (shr_1 mrs)
  = 2 * (rcode mrs / 4) + (if rcode mrs mod 4 =? 0 then 0 else 1).
Proof.
  intros H. rewrite (shr_1_fields mrs H), rcode_div4, rcode_mod4.
  unfold rcode. cbn [shr_m shr_r shr_s].
  pose proof (Z.div2_odd (shr_m mrs)) as E.
  destruct (Z.odd (shr_m mrs)), (shr_r mrs), (shr_s mrs);
    cbn [Z.b2z orb] in *;
    match goal with
    | |- context [if ?a + ?b =? 0 then _ else _] =>
        let v := eval cbv in (a + b =? 0) in
        change (a + b =? 0) with v
    end; lia.
Qed.

Lemma rcode_nonneg (mrs : shr_record) : 0 <= rcode mrs -> 0 <= shr_m mrs.
Proof. unfold rcode. destruct (shr_r mrs), (shr_s mrs); lia. Qed.

Lemma shr_1_qcode (mrs : shr_record) (N D : Z) :
  0 <= N -> 0 < D -> rcode mrs = qcode N D ->
  rcode (shr_1 mrs) = qcode N (2 * D).
Proof.
  intros HN HD E.
  rewrite shr_1_code, E, qcode_double by
    (try apply rcode_nonneg; try rewrite E; try apply qcode_nonneg; lia).
  reflexivity.
Qed.

Lemma iter_shr_1_qcode (p : positive) :
  forall (mrs : shr_record) (N D : Z),
    0 <= N -> 0 < D -> rcode mrs = qcode N D ->
    rcode (SpecFloat.iter_pos shr_1 p mrs) = qcode N (D * 2 ^ Z.pos p).
Proof.
  induction p as [p IH|p IH|]; intros mrs N D HN HD E; cbn [SpecFloat.iter_pos].
  - assert (P : 0 < 2 ^ Z.pos p) by (apply Z.pow_pos_nonneg; lia).
    rewrite (IH _ N (2 * D * 2 ^ Z.pos p)).
    + f_equal. replace (Z.pos p~1) with (Z.pos p + Z.pos p + 1) by lia.
      rewrite !Z.pow_add_r by lia. change (2 ^ 1) with 2. ring.
    + exact HN.
    + nia.
    + apply IH; [exact HN | lia |]. now apply shr_1_qcode.
  - assert (P : 0 < 2 ^ Z.pos p) by (apply Z.pow_pos_nonneg; lia).
    rewrite (IH _ N (D * 2 ^ Z.pos p)).
    + f_equal. replace (Z.pos p~0) with (Z.pos p + Z.pos p) by lia.
      rewrite !Z.pow_add_r by lia. ring.
    + exact HN.
    + nia.
    + now apply IH.
  - change (2 ^ 1) with 2. rewrite Z.mul_comm. now apply shr_1_qcode.
Qed.

Lemma shr_qcode (mrs : shr_record) (e k N D : Z) :
  0 <= N -> 0 < D -> 0 <= k -> rcode mrs = qcode N D ->
  rcode (fst (shr mrs e k)) = qcode N (D * 2 ^ k)
  /\ snd (shr mrs e k) = e + k.
Proof.
  intros HN HD Hk E. destruct k as [|p|p]; cbn [shr fst snd]; try lia.
  - rewrite Z.mul_1_r. split; [exact E | lia].
  - split; [now apply iter_shr_1_qcode | reflexivity].
Qed.

Lemma shr_record_of_loc_code (m : Z) (l : location) :
  rcode (shr_record_of_loc m l) = 4 * m + lcode l.
Proof.
  destruct l as [|[| |]]; unfold rcode;
    cbn [shr_record_of_loc shr_m shr_r shr_s lcode]; lia.
Qed.

Lemma round_nearest_even_rne (mrs : shr_record) :
  round_nearest_even (shr_m mrs) (loc_of_shr_record mrs) = rne (rcode mrs).
Proof.
  unfold rne. rewrite rcode_div4, rcode_mod4.
  destruct mrs as [m r s]. cbn [shr_m shr_r shr_s loc_of_shr_record].
  rewrite <- Z.negb_even.
  destruct r, s; cbn [round_nearest_even Z.add Z.eqb orb andb];
    try lia; destruct (Z.even m); cbn; lia.
Qed.

Lemma fexp_eq (x : Z) : fexp prec emax x = Z.max (x - 53) (-1074).
Proof. reflexivity. Qed.

Lemma SFbig_eq : SFbig = 2 ^ 53 * 2 ^ 2045.
Proof. unfold SFbig. rewrite <- Z.pow_add_r by lia. reflexivity. Qed.

Lemma pow2_pos (k : Z) : 0 <= k -> 0 < 2 ^ k.
Proof. intros. apply Z.pow_pos_nonneg; lia. Qed.

Lemma rounded_bounds (N D e : Z) :
  0 <= N -> 0 < D ->
  let ec := fexp prec emax (Zdigits2 (N / D) + e) in
  e <= ec ->
  let mr := rne (qcode N (D * 2 ^ (ec - e))) in
  0 <= mr <= 2 ^ 53 /\ (-1074 < ec -> 2 ^ 52 <= mr).
Proof.
  intros HN HD ec He mr.
  assert (Hm : 0 <= N / D) by (apply Z.div_pos; lia).
  assert (Eec : ec = Z.max (Zdigits2 (N / D) + e - 53) (-1074))
    by (unfold ec; now rewrite fexp_eq).
  unfold mr. clearbody ec. clear mr.
  remember (N / D) as m eqn:Em.
  remember (ec - e) as k eqn:Ek.
  remember (Zdigits2 m) as d eqn:Ed.
  assert (Hk : 0 <= k) by lia.
  pose proof (pow2_pos Hk) as Pk.
  assert (E4 : qcode N (D * 2 ^ k) / 4 = m / 2 ^ k).
  { rewrite qcode_div4 by nia. rewrite Em. now rewrite Z.div_div by lia. }
  pose proof (rne_bounds (qcode N (D * 2 ^ k))) as Hr. rewrite E4 in Hr.
  pose proof (Zdigits2_upper Hm) as Hu. rewrite <- Ed in Hu.
  pose proof (Zdigits2_nonneg m) as Hd. rewrite <- Ed in Hd.
  assert (Hup : m / 2 ^ k < 2 ^ 53).
  { apply Z.div_lt_upper_bound; [assumption|].
    rewrite <- Z.pow_add_r by lia.
    apply Z.lt_le_trans with (2 ^ d); [assumption|].
    apply Z.pow_le_mono_r; lia. }
  assert (0 <= m / 2 ^ k) by (apply Z.div_pos; lia).
  split; [lia|].
  intros Hec.
  assert (Ekd : k = d - 53) by lia.
  assert (Hm0 : 0 < m).
  { destruct (Z.eq_dec m 0) as [E0|]; [|lia].
    rewrite E0 in Ed. cbn in Ed. lia. }
  destruct (Zdigits2_bounds Hm0) as [Hl _]. rewrite <- Ed in Hl.
  assert (2 ^ 52 <= m / 2 ^ k); [|lia].
  apply Z.div_le_lower_bound; [assumption|].
  rewrite <- Z.pow_add_r by lia.
  replace (k + 52) with (d - 1) by lia. exact Hl.
Qed.

Lemma Rval_nonneg (N D e : Z) :
  0 <= N -> 0 < D ->
  e <= fexp prec emax (Zdigits2 (N / D) + e) ->
  0 <= Rval N D e <= SFbig.
Proof.
  intros HN HD He.
  destruct (@rounded_bounds N D e HN HD He) as [[H0 _] _].
  unfold Rval.
  assert (0 < SFbig) by (unfold SFbig; apply pow2_pos; lia).
  assert (0 <= 2 ^ (fexp prec emax (Zdigits2 (N / D) + e) + 1074)).
  { apply Z.pow_nonneg. lia. }
  split; [|apply Z.le_min_r].
  apply Z.min_glb; [|lia]. apply Z.mul_nonneg_nonneg; assumption.
Qed.

Lemma shr_carry (ec : Z) :
  shr (shr_record_of_loc (2 ^ 53) loc_Exact) ec 1
  = ({| shr_m := 2 ^ 52; shr_r := false; shr_s := false |}, ec + 1).
Proof. reflexivity. Qed.

(** The value of what [binary_round_aux] returns. *)
Lemma binary_round_aux_value (s : bool) (m e : Z) (l : location) (N D : Z) :
  0 <= N -> 0 < D ->
  4 * m + lcode l = qcode N D ->
  e <= fexp prec emax (Zdigits2 m + e) ->
  binary_round_aux prec emax s m e l <> S754_nan
  /\ SF2Z (binary_round_aux prec emax s m e l) = signed s (Rval N D e).
Proof.
  intros HN HD Hc He.
  assert (Em : m = N / D).
  { rewrite <- (qcode_div4 N HD), <- Hc, <- shr_record_of_loc_code.
    now rewrite rcode_div4; destruct l as [|[| |]]. }
  subst m.
  destruct (@rounded_bounds N D e HN HD He) as [[H0 H53] H52].
  unfold Rval. set (ec := fexp prec emax (Zdigits2 (N / D) + e)) in *.
  set (k := ec - e) in *. assert (Hk : 0 <= k) by (unfold k; lia).
  assert (Hec : -1074 <= ec) by (unfold ec; rewrite fexp_eq; lia).
  unfold binary_round_aux, shr_fexp. fold ec. fold k.
  destruct (@shr_qcode (shr_record_of_loc (N / D) l) e k N D HN HD Hk)
    as [Hcode He'].
  { now rewrite shr_record_of_loc_code. }
  destruct (shr (shr_record_of_loc (N / D) l) e k) as [mrs' e'].
  cbn [fst snd] in Hcode, He'.
  rewrite round_nearest_even_rne, Hcode.
  set (mr := rne (qcode N (D * 2 ^ k))) in *.
  replace e' with ec by (unfold k in He'; lia). clear He' e'.
  assert (P : 0 < 2 ^ (ec + 1074)) by (apply pow2_pos; lia).
  pose proof SFbig_eq as EB.
  assert (P53 : 2 ^ 53 = 2 * 2 ^ 52) by reflexivity.
  assert (Q52 : 0 < 2 ^ 52) by reflexivity.
  destruct (Z.eq_dec mr (2 ^ 53)) as [E53|N53].
  - (* the rounded mantissa has one digit too many *)
    rewrite E53.
    replace (fexp prec emax (Zdigits2 (2 ^ 53) + ec) - ec) with 1
      by (rewrite fexp_eq; change (Zdigits2 (2 ^ 53)) with 54; lia).
    rewrite shr_carry. cbn [shr_m].
    change (2 ^ 52) with (Z.pos (2 ^ 52)).
    cbv iota beta.
    assert (E1 : 2 ^ (ec + 1 + 1074) = 2 * 2 ^ (ec + 1074)).
    { replace (ec + 1 + 1074) with (Z.succ (ec + 1074)) by lia.
      apply Z.pow_succ_r. lia. }
    destruct (Z.leb_spec (ec + 1) (emax - prec)) as [L|L];
      change (emax - prec) with 971 in L.
    + split; [discriminate|]. cbn [SF2Z].
      change (Z.pos (2 ^ 52)) with (2 ^ 52). rewrite E1.
      assert (2 ^ (ec + 1074) <= 2 ^ 2044) by (apply Z.pow_le_mono_r; lia).
      assert (2 ^ 2045 = 2 * 2 ^ 2044) by reflexivity.
      rewrite Z.min_l by nia.
      destruct s; cbn [signed]; lia.
    + split; [discriminate|]. cbn [SF2Z].
      assert (2 ^ 2045 <= 2 ^ (ec + 1074)) by (apply Z.pow_le_mono_r; lia).
      rewrite Z.min_r by nia.
      destruct s; reflexivity.
  - assert (Hlt : mr < 2 ^ 53) by lia.
    assert (Hd : Zdigits2 mr <= 53).
    { destruct (Z.eq_dec mr 0) as [->|]; [cbn; lia|].
      destruct (Zdigits2_bounds (m := mr)) as [Hl _]; [lia|].
      pose proof (Zdigits2_nonneg mr).
      assert (Zdigits2 mr - 1 < 53); [|lia].
      apply (Z.pow_lt_mono_r_iff 2); lia. }
    assert (Hn : fexp prec emax (Zdigits2 mr + ec) - ec <= 0)
      by (rewrite fexp_eq; lia).
    assert (Es : shr (shr_record_of_loc mr loc_Exact) ec
                   (fexp prec emax (Zdigits2 mr + ec) - ec)
                 = (shr_record_of_loc mr loc_Exact, ec)).
    { destruct (fexp prec emax (Zdigits2 mr + ec) - ec); try reflexivity. lia. }
    rewrite Es. cbn [shr_record_of_loc shr_m].
    destruct mr as [|p|p]; [| |lia].
    + split; [discriminate|]. cbn [SF2Z]. rewrite Z.mul_0_l.
      rewrite Z.min_l by (rewrite EB; nia). now destruct s.
    + destruct (Z.leb_spec ec (emax - prec)) as [L|L];
        change (emax - prec) with 971 in L.
      * split; [discriminate|]. cbn [SF2Z].
        assert (2 ^ (ec + 1074) <= 2 ^ 2045) by (apply Z.pow_le_mono_r; lia).
        rewrite Z.min_l by (rewrite EB; nia).
        destruct s; reflexivity.
      * split; [discriminate|]. cbn [SF2Z].
        assert (2 ^ 2046 <= 2 ^ (ec + 1074)) by (apply Z.pow_le_mono_r; lia).
        assert (2 ^ 2046 = 2 * 2 ^ 2045) by reflexivity.
        assert (2 ^ 52 <= Z.pos p) by (apply H52; lia).
        rewrite Z.min_r by (rewrite EB; nia).
        destruct s; reflexivity.
Qed.

(** Rounding is monotone. *)
Lemma Rval_mono (N1 N2 D e : Z) :
  0 <= N1 <= N2 -> 0 < D -> e <= -1074 -> Rval N1 D e <= Rval N2 D e.
Proof.
  intros [H1 H12] HD He.
  assert (K : forall N, 0 <= N -> e <= fexp prec emax (Zdigits2 (N / D) + e))
    by (intros; rewrite fexp_eq; lia).
  assert (H2 : 0 <= N2) by lia.
  destruct (@rounded_bounds N1 D e H1 HD (K _ H1)) as [[A0 A53] A52].
  destruct (@rounded_bounds N2 D e H2 HD (K _ H2)) as [[B0 B53] B52].
  unfold Rval.
  assert (Hm : 0 <= N1 / D <= N2 / D).
  { split; [apply Z.div_pos; lia | apply Z.div_le_mono; lia]. }
  pose proof (Zdigits2_mono Hm) as Hd.
  remember (fexp prec emax (Zdigits2 (N1 / D) + e)) as ec1 eqn:E1.
  remember (fexp prec emax (Zdigits2 (N2 / D) + e)) as ec2 eqn:E2.
  rewrite fexp_eq in E1, E2.
  assert (Hec : -1074 <= ec1 <= ec2) by lia.
  remember (rne (qcode N1 (D * 2 ^ (ec1 - e)))) as mr1 eqn:M1.
  remember (rne (qcode N2 (D * 2 ^ (ec2 - e)))) as mr2 eqn:M2.
  apply Z.min_le_compat_r.
  assert (P1 : 0 < 2 ^ (ec1 + 1074)) by (apply pow2_pos; lia).
  destruct (Z.eq_dec ec1 ec2) as [E|E].
  - rewrite <- E in *. apply Z.mul_le_mono_nonneg_r; [lia|].
    rewrite M1, M2. apply rne_mono, qcode_mono; [|lia].
    apply Z.mul_pos_pos; [lia | apply pow2_pos; lia].
  - assert (P2 : 2 * 2 ^ (ec1 + 1074) <= 2 ^ (ec2 + 1074)).
    { rewrite <- Z.pow_succ_r by lia. apply Z.pow_le_mono_r; lia. }
    assert (2 ^ 52 <= mr2) by (apply B52; lia).
    assert (P53 : 2 ^ 53 = 2 * 2 ^ 52) by reflexivity.
    assert (Q52 : 0 < 2 ^ 52) by reflexivity.
    apply Z.le_trans with (2 ^ 53 * 2 ^ (ec1 + 1074)).
    + apply Z.mul_le_mono_nonneg_r; lia.
    + apply Z.le_trans with (2 ^ 52 * 2 ^ (ec2 + 1074)).
      * rewrite P53. nia.
      * apply Z.mul_le_mono_nonneg_r; lia.
Qed.

Lemma Zdigits2_scaled (N D j : Z) :
  0 < D -> 0 <= j -> 0 < N / D ->
  Zdigits2 (N * 2 ^ j / D) = Zdigits2 (N / D) + j.
Proof.
  intros HD Hj Hm.
  destruct (Zdigits2_bounds Hm) as [Hl Hu].
  pose proof (Zdigits2_nonneg (N / D)) as Hd.
  set (d := Zdigits2 (N / D)) in *.
  pose proof (pow2_pos Hj) as Pj.
  assert (HN : D * 2 ^ (d - 1) <= N).
  { apply Z.le_trans with (D * (N / D)).
    - apply Z.mul_le_mono_nonneg_l; lia.
    - apply Z.mul_div_le. lia. }
  assert (HN' : N < D * 2 ^ d).
  { destruct (Z_lt_le_dec N (D * 2 ^ d)) as [L|L]; [exact L|].
    assert (2 ^ d <= N / D) by (apply Z.div_le_lower_bound; lia). lia. }
  assert (0 < d).
  { destruct (Z.eq_dec d 0) as [E0|]; [|lia].
    rewrite E0 in Hu. change (2 ^ 0) with 1 in Hu. lia. }
  apply Zdigits2_unique.
  - split.
    + apply Z.div_le_lower_bound; [lia|].
      replace (d + j - 1) with ((d - 1) + j) by lia.
      rewrite Z.pow_add_r by lia. nia.
    + apply Z.div_lt_upper_bound; [lia|].
      rewrite Z.pow_add_r by lia. nia.
  - apply Z.lt_le_trans with (2 ^ (d + j - 1)); [apply pow2_pos; lia|].
    apply Z.div_le_lower_bound; [lia|].
    replace (d + j - 1) with ((d - 1) + j) by lia.
    rewrite Z.pow_add_r by lia. nia.
Qed.

Lemma Zdigits2_small (N D j : Z) :
  0 <= N -> 0 < D -> 0 <= j -> N / D = 0 -> Zdigits2 (N * 2 ^ j / D) <= j.
Proof.
  intros HN HD Hj Hm.
  pose proof (pow2_pos Hj) as Pj.
  assert (N < D).
  { destruct (Z_lt_le_dec N D) as [L|L]; [exact L|].
    assert (1 <= N / D) by (apply Z.div_le_lower_bound; lia). lia. }
  assert (Hq : 0 <= N * 2 ^ j / D < 2 ^ j).
  { split; [apply Z.div_pos; nia|]. apply Z.div_lt_upper_bound; [lia|]. nia. }
  destruct (Z.eq_dec (N * 2 ^ j / D) 0) as [->|Hn]; [cbn; lia|].
  destruct (Zdigits2_bounds (m := N * 2 ^ j / D)) as [Hl _]; [lia|].
  pose proof (Zdigits2_nonneg (N * 2 ^ j / D)).
  assert (Zdigits2 (N * 2 ^ j / D) - 1 < j); [|lia].
  apply (Z.pow_lt_mono_r_iff 2); lia.
Qed.

(** The rounded value depends on the quantity, not on the exponent it is
    written with. *)
Lemma Rval_align (N D e j : Z) :
  0 <= N -> 0 < D -> 0 <= j ->
  e <= fexp prec emax (Zdigits2 (N / D) + e) ->
  Rval (N * 2 ^ j) D (e - j) = Rval N D e.
Proof.
  intros HN HD Hj He. unfold Rval.
  pose proof (pow2_pos Hj) as Pj.
  assert (Hm : 0 <= N / D) by (apply Z.div_pos; lia).
  assert (Eec : fexp prec emax (Zdigits2 (N * 2 ^ j / D) + (e - j))
                = fexp prec emax (Zdigits2 (N / D) + e)).
  { destruct (Z.eq_dec (N / D) 0) as [E0|E0].
    - pose proof (Zdigits2_small HN HD Hj E0) as Hs.
      pose proof (Zdigits2_nonneg (N * 2 ^ j / D)).
      rewrite E0 in *. cbn [Zdigits2] in *. rewrite !fexp_eq in *. lia.
    - rewrite Zdigits2_scaled by lia. f_equal. lia. }
  rewrite Eec.
  set (ec := fexp prec emax (Zdigits2 (N / D) + e)) in *.
  replace (ec - (e - j)) with ((ec - e) + j) by lia.
  rewrite Z.pow_add_r by lia.
  rewrite Z.mul_assoc, qcode_cancel; [reflexivity| |lia].
  apply Z.mul_pos_pos; [lia | apply pow2_pos; lia].
Qed.

Lemma Rval_zero (D e : Z) : Rval 0 D e = 0.
Proof.
  unfold Rval, qcode. rewrite Z.mul_0_r, !Zdiv_0_l, Zmod_0_l.
  change (rne (2 * 0 + (if 0 =? 0 then 0 else 1))) with 0.
  rewrite Z.mul_0_l.
  apply Z.min_l. unfold SFbig. apply Z.pow_nonneg. lia.
Qed.

(** *** Valid numbers and their order *)

Lemma SFbig_pos : 0 < SFbig.
Proof. unfold SFbig. apply pow2_pos. lia. Qed.

Lemma valid_finite (s : bool) (m : positive) (e : Z) :
  valid_binary (S754_finite s m e) = true ->
  -1074 <= e <= 971
  /\ Z.pos m < 2 ^ 53
  /\ (-1074 < e -> 2 ^ 52 <= Z.pos m).
Proof.
  cbn [SpecFloat.valid_binary]. unfold bounded, canonical_mantissa.
  intros H. apply andb_prop in H as [Hc Hb].
  apply Z.eqb_eq in Hc. apply Z.leb_le in Hb. rewrite fexp_eq in Hc.
  change (emax - prec) with 971 in Hb.
  change (Z.pos (digits2_pos m)) with (Zdigits2 (Z.pos m)) in Hc.
  destruct (Zdigits2_bounds (m := Z.pos m)) as [Hl Hu]; [lia|].
  set (d := Zdigits2 (Z.pos m)) in *.
  split; [lia|]. split.
  - apply Z.lt_le_trans with (2 ^ d); [assumption|].
    apply Z.pow_le_mono_r; lia.
  - intros He. replace d with 53 in Hl by lia. exact Hl.
Qed.

Lemma finite_value (s : bool) (m : positive) (e : Z) :
  valid_binary (S754_finite s m e) = true ->
  0 < Z.pos m * 2 ^ (e + 1074) < SFbig.
Proof.
  intros H. destruct (@valid_finite s m e H) as ((He1 & He2) & Hm & _).
  assert (P : 0 < 2 ^ (e + 1074)) by (apply pow2_pos; lia).
  assert (2 ^ (e + 1074) <= 2 ^ 2045) by (apply Z.pow_le_mono_r; lia).
  rewrite SFbig_eq. split; nia.
Qed.

Lemma finite_value_order (m1 m2 : positive) (e1 e2 : Z) :
  valid_binary (S754_finite false m1 e1) = true ->
  valid_binary (S754_finite false m2 e2) = true ->
  e1 < e2 ->
  Z.pos m1 * 2 ^ (e1 + 1074) < Z.pos m2 * 2 ^ (e2 + 1074).
Proof.
  intros H1 H2 He.
  destruct (@valid_finite false m1 e1 H1) as ((He1 & _) & Hm1 & _).
  destruct (@valid_finite false m2 e2 H2) as (_ & _ & Hm2).
  assert (P1 : 0 < 2 ^ (e1 + 1074)) by (apply pow2_pos; lia).
  assert (P2 : 2 * 2 ^ (e1 + 1074) <= 2 ^ (e2 + 1074)).
  { rewrite <- Z.pow_succ_r by lia. apply Z.pow_le_mono_r; lia. }
  assert (2 ^ 52 <= Z.pos m2) by (apply Hm2; lia).
  assert (P53 : 2 ^ 53 = 2 * 2 ^ 52) by reflexivity.
  assert (Q52 : 0 < 2 ^ 52) by reflexivity.
  apply Z.lt_le_trans with (2 ^ 53 * 2 ^ (e1 + 1074)).
  - apply Z.mul_lt_mono_pos_r; lia.
  - apply Z.le_trans with (2 ^ 52 * 2 ^ (e2 + 1074)).
    + rewrite P53. nia.
    + apply Z.mul_le_mono_nonneg_r; lia.
Qed.

Lemma finite_compare (m1 m2 : positive) (e1 e2 : Z) :
  valid_binary (S754_finite false m1 e1) = true ->
  valid_binary (S754_finite false m2 e2) = true ->
  match e1 ?= e2 with
  | Lt => Lt
  | Gt => Gt
  | Eq => Pos.compare_cont Eq m1 m2
  end
  = (Z.pos m1 * 2 ^ (e1 + 1074) ?= Z.pos m2 * 2 ^ (e2 + 1074)).
Proof.
  intros H1 H2. symmetry.
  destruct (Z.compare_spec e1 e2) as [E|L|G].
  - subst e2. destruct (@valid_finite false m1 e1 H1) as ((He1 & _) & _).
    assert (P : 0 < 2 ^ (e1 + 1074)) by (apply pow2_pos; lia).
    change (Pos.compare_cont Eq m1 m2) with (Z.pos m1 ?= Z.pos m2).
    destruct (Z.compare_spec (Z.pos m1) (Z.pos m2)) as [E|L|G].
    + rewrite E. apply Z.compare_refl.
    + apply Z.compare_lt_iff. now apply Z.mul_lt_mono_pos_r.
    + apply Z.compare_gt_iff. now apply Z.mul_lt_mono_pos_r.
  - apply Z.compare_lt_iff. now apply finite_value_order.
  - apply Z.compare_gt_iff. now apply finite_value_order.
Qed.

(** Valid numbers compare as their values do. *)
Lemma SFcompare_value (x y : spec_float) :
  valid_binary x = true -> valid_binary y = true ->
  x <> S754_nan -> y <> S754_nan ->
  SFcompare x y = Some (SF2Z x ?= SF2Z y).
Proof.
  intros Vx Vy Nx Ny. pose proof SFbig_pos as B.
  destruct x as [s| s| |s m e], y as [t| t| |t n k]; try congruence;
    cbn [SFcompare SF2Z];
    try (pose proof (@finite_value _ _ _ Vx) as Fx);
    try (pose proof (@finite_value _ _ _ Vy) as Fy).
  all: try (f_equal; symmetry;
            try destruct s; try destruct t;
            first [ apply Z.compare_eq_iff; lia
                  | apply Z.compare_lt_iff; lia
                  | apply Z.compare_gt_iff; lia ]).
  - f_equal. destruct s, t.
    + assert (Vx' : valid_binary (S754_finite false m e) = true) by exact Vx.
      assert (Vy' : valid_binary (S754_finite false n k) = true) by exact Vy.
      rewrite Z.compare_opp. rewrite <- (@finite_compare n m k e Vy' Vx').
      rewrite (Z.compare_antisym e k).
      change (Pos.compare_cont Eq m n) with (Pos.compare m n).
      change (Pos.compare_cont Eq n m) with (Pos.compare n m).
      rewrite (Pos.compare_antisym m n).
      destruct (e ?= k); reflexivity.
    + symmetry. apply Z.compare_lt_iff. lia.
    + symmetry. apply Z.compare_gt_iff. lia.
    + now apply finite_compare.
Qed.

Lemma SFleb_value (x y : spec_float) :
  valid_binary x = true -> valid_binary y = true ->
  SFleb x y = true
  <-> (x <> S754_nan /\ y <> S754_nan /\ SF2Z x <= SF2Z y).
Proof.
  intros Vx Vy. unfold SFleb. split.
  - intros H.
    assert (Nx : x <> S754_nan) by (intros ->; discriminate).
    assert (Ny : y <> S754_nan) by (intros ->; destruct x; discriminate).
    split; [exact Nx|]. split; [exact Ny|].
    rewrite (SFcompare_value Vx Vy Nx Ny) in H.
    destruct (Z.compare_spec (SF2Z x) (SF2Z y)); first [lia | discriminate].
  - intros (Nx & Ny & H). rewrite (SFcompare_value Vx Vy Nx Ny).
    destruct (Z.compare_spec (SF2Z x) (SF2Z y)); first [reflexivity | lia].
Qed.

Lemma SFltb_value (x y : spec_float) :
  valid_binary x = true -> valid_binary y = true ->
  SFltb x y = true
  <-> (x <> S754_nan /\ y <> S754_nan /\ SF2Z x < SF2Z y).
Proof.
  intros Vx Vy. unfold SFltb. split.
  - intros H.
    assert (Nx : x <> S754_nan) by (intros ->; discriminate).
    assert (Ny : y <> S754_nan) by (intros ->; destruct x; discriminate).
    split; [exact Nx|]. split; [exact Ny|].
    rewrite (SFcompare_value Vx Vy Nx Ny) in H.
    destruct (Z.compare_spec (SF2Z x) (SF2Z y)); first [lia | discriminate].
  - intros (Nx & Ny & H). rewrite (SFcompare_value Vx Vy Nx Ny).
    destruct (Z.compare_spec (SF2Z x) (SF2Z y)); first [reflexivity | lia].
Qed.

Lemma valid_value_bounds (x : spec_float) :
  valid_binary x = true -> - SFbig <= SF2Z x <= SFbig.
Proof.
  intros V. pose proof SFbig_pos.
  destruct x as [s| s| |s m e]; cbn [SF2Z]; try lia.
  - destruct s; lia.
  - pose proof (@finite_value s m e V). destruct s; lia.
Qed.

(** *** Multiplication and division by a positive number *)

Lemma symmetric_mono (G : Z -> Z) :
  (forall a b, 0 <= a <= b -> G a <= G b) ->
  G 0 = 0 ->
  (forall a, 0 <= a -> G a <= SFbig) ->
  forall V1 V2, V1 <= V2 -> symmetric G V1 <= symmetric G V2.
Proof.
  intros Hm H0 Hb V1 V2 H. pose proof SFbig_pos as B.
  assert (Hp : forall a, 0 <= a -> 0 <= G a <= SFbig).
  { intros a Ha. split; [|now apply Hb]. rewrite <- H0. apply Hm. lia. }
  unfold symmetric.
  destruct (Z.leb_spec V1 (- SFbig)), (Z.leb_spec V2 (- SFbig)),
    (Z.leb_spec SFbig V1), (Z.leb_spec SFbig V2),
    (Z.ltb_spec V1 0), (Z.ltb_spec V2 0); try lia;
    try (pose proof (Hp V1 ltac:(lia)));
    try (pose proof (Hp V2 ltac:(lia)));
    try (pose proof (Hp (- V1) ltac:(lia)));
    try (pose proof (Hp (- V2) ltac:(lia)));
    try lia.
  - assert (G (- V2) <= G (- V1)) by (apply Hm; lia). lia.
  - now apply Hm.
Qed.

Lemma symmetric_signed (G : Z -> Z) (s : bool) (V : Z) :
  0 < V < SFbig -> symmetric G (signed s V) = signed s (G V).
Proof.
  intros H. unfold symmetric, signed. destruct s.
  - destruct (Z.leb_spec (- V) (- SFbig)), (Z.leb_spec SFbig (- V)),
      (Z.ltb_spec (- V) 0); try lia.
    now rewrite Z.opp_involutive.
  - destruct (Z.leb_spec V (- SFbig)), (Z.leb_spec SFbig V),
      (Z.ltb_spec V 0); first [lia | reflexivity].
Qed.

Lemma mul_value_mono (mc : positive) (ec : Z) :
  ec <= 971 ->
  forall a b, 0 <= a <= b -> mul_value mc ec a <= mul_value mc ec b.
Proof.
  intros He a b H. unfold mul_value.
  assert (0 < 2 ^ 1000) by reflexivity.
  apply Rval_mono; [|lia|lia]. split; nia.
Qed.

Lemma div_value_mono (ma : positive) (ea : Z) :
  -1074 <= ea ->
  forall a b, 0 <= a <= b -> div_value ma ea a <= div_value ma ea b.
Proof.
  intros He a b H. unfold div_value.
  assert (0 < 2 ^ 2100) by reflexivity.
  apply Rval_mono; [|lia|lia]. split; nia.
Qed.

Lemma Rval_le_big (N D e : Z) : Rval N D e <= SFbig.
Proof. unfold Rval. apply Z.le_min_r. Qed.

Lemma Zdigits2_pow2 (k : Z) : 0 <= k -> Zdigits2 (2 ^ k) = k + 1.
Proof.
  intros Hk. apply Zdigits2_unique; [|now apply pow2_pos].
  replace (k + 1 - 1) with k by lia. split; [lia|].
  apply Z.pow_lt_mono_r; lia.
Qed.

Lemma Zdigits2_lower (m k : Z) : 0 <= k -> 2 ^ k <= m -> k + 1 <= Zdigits2 m.
Proof.
  intros Hk H. rewrite <- (Zdigits2_pow2 Hk). apply Zdigits2_mono.
  split; [|exact H]. apply Z.pow_nonneg. lia.
Qed.

Lemma SFmul_value (mc : positive) (ec : Z) (X : spec_float) :
  valid_binary (S754_finite false mc ec) = true ->
  valid_binary X = true -> X <> S754_nan ->
  SFmul prec emax (S754_finite false mc ec) X <> S754_nan
  /\ SF2Z (SFmul prec emax (S754_finite false mc ec) X)
     = symmetric (mul_value mc ec) (SF2Z X).
Proof.
  intros Vc Vx Nx. pose proof SFbig_pos as B.
  destruct (@valid_finite false mc ec Vc) as ((Hc1 & Hc2) & Hc53 & Hc52).
  destruct X as [s| s| |s mx ex]; [| | congruence |]; cbn [SFmul SF2Z xorb].
  - split; [discriminate|]. unfold symmetric.
    destruct (Z.leb_spec 0 (- SFbig)), (Z.leb_spec SFbig 0); try lia.
    cbn [Z.ltb Z.compare]. unfold mul_value.
    now rewrite Z.mul_0_r, Z.mul_0_l, Rval_zero.
  - split; [discriminate|]. unfold symmetric. destruct s.
    + now rewrite Z.leb_refl.
    + destruct (Z.leb_spec SFbig (- SFbig)); [lia|]. now rewrite Z.leb_refl.
  - destruct (@valid_finite s mx ex Vx) as ((Hx1 & Hx2) & Hx53 & Hx52).
    pose proof (@finite_value s mx ex Vx) as Fx.
    assert (Q52 : 0 < 2 ^ 52) by reflexivity.
    assert (Hpre : ec + ex
                   <= fexp prec emax (Zdigits2 (Z.pos (mc * mx)) + (ec + ex))).
    { rewrite fexp_eq.
      destruct (Z_le_gt_dec (ec + ex) (-1074)) as [L|L]; [lia|].
      assert (2 ^ 52 <= Z.pos (mc * mx)).
      { rewrite Pos2Z.inj_mul.
        destruct (Z_le_gt_dec ec (-1074)).
        - assert (2 ^ 52 <= Z.pos mx) by (apply Hx52; lia). nia.
        - assert (2 ^ 52 <= Z.pos mc) by (apply Hc52; lia). nia. }
      pose proof (@Zdigits2_lower (Z.pos (mc * mx)) 52 ltac:(lia) H). lia. }
    destruct (@binary_round_aux_value s (Z.pos (mc * mx)) (ec + ex) loc_Exact
                (Z.pos (mc * mx)) 1) as [Hn Hv]; try lia.
    { rewrite qcode_exact. cbn [lcode]. lia. }
    split; [exact Hn|]. rewrite Hv.
    change (if s then - (Z.pos mx * 2 ^ (ex + 1074))
            else Z.pos mx * 2 ^ (ex + 1074))
      with (signed s (Z.pos mx * 2 ^ (ex + 1074))).
    rewrite symmetric_signed by exact Fx. f_equal.
    unfold mul_value.
    rewrite <- (@Rval_align (Z.pos (mc * mx)) 1 (ec + ex) (ex + 2074));
      [|lia|lia|lia|].
    + f_equal; [|lia].
      replace (ex + 2074) with ((ex + 1074) + 1000) by lia.
      rewrite Z.pow_add_r, Pos2Z.inj_mul by lia. ring.
    + rewrite Z.div_1_r. exact Hpre.
Qed.

Lemma new_location_code (D r : Z) :
  0 < D -> 0 <= r < D ->
  lcode (new_location D r)
  = if r =? 0 then 0
    else if 2 * r <? D then 1 else if 2 * r =? D then 2 else 3.
Proof.
  intros HD Hr. unfold new_location.
  destruct (Z.even D) eqn:Ev.
  - unfold new_location_even.
    destruct (Z.eqb_spec r 0) as [E|E]; [reflexivity|].
    destruct (Z.compare_spec (2 * r) D), (Z.ltb_spec (2 * r) D),
      (Z.eqb_spec (2 * r) D); cbn [lcode]; lia.
  - unfold new_location_odd.
    destruct (Z.eqb_spec r 0) as [E|E]; [reflexivity|].
    assert (Ho : Z.odd D = true) by (now rewrite <- Z.negb_even, Ev).
    apply Z.odd_spec in Ho as [h Eh].
    destruct (Z.compare_spec (2 * r + 1) D), (Z.ltb_spec (2 * r) D),
      (Z.eqb_spec (2 * r) D); cbn [lcode]; lia.
Qed.

Lemma div_eucl_code (N D : Z) :
  0 <= N -> 0 < D ->
  4 * fst (Z.div_eucl N D) + lcode (new_location D (snd (Z.div_eucl N D)))
  = qcode N D.
Proof.
  intros HN HD.
  assert (Eq : fst (Z.div_eucl N D) = N / D) by reflexivity.
  assert (Er : snd (Z.div_eucl N D) = N mod D) by reflexivity.
  rewrite Eq, Er.
  pose proof (Z.div_mod N D ltac:(lia)) as E.
  pose proof (Z.mod_pos_bound N D HD) as Hb.
  rewrite (new_location_code HD Hb).
  set (q := N / D) in *. set (r := N mod D) in *.
  destruct (Z.eqb_spec r 0) as [E0|E0].
  - rewrite (@qcode_unique N D (2 * q) 0); [|lia|lia|lia].
    rewrite Z.eqb_refl. lia.
  - destruct (Z.ltb_spec (2 * r) D).
    + rewrite (@qcode_unique N D (2 * q) (2 * r)); [|lia|lia|lia].
      destruct (Z.eqb_spec (2 * r) 0); lia.
    + destruct (Z.eqb_spec (2 * r) D).
      * rewrite (@qcode_unique N D (2 * q + 1) 0); [|lia|lia|lia].
        rewrite Z.eqb_refl. lia.
      * rewrite (@qcode_unique N D (2 * q + 1) (2 * r - D)); [|lia|lia|lia].
        destruct (Z.eqb_spec (2 * r - D) 0); lia.
Qed.

Lemma SFdiv_core_binary_code (mx ma : positive) (ex ea : Z) :
  let e' := Z.min (fexp prec emax (Zdigits2 (Z.pos mx) + ex
                                   - (Zdigits2 (Z.pos ma) + ea)))
                  (ex - ea) in
  let N := Z.pos mx * 2 ^ (ex - ea - e') in
  SFdiv_core_binary prec emax (Z.pos mx) ex (Z.pos ma) ea
  = (fst (Z.div_eucl N (Z.pos ma)), e',
     new_location (Z.pos ma) (snd (Z.div_eucl N (Z.pos ma)))).
Proof.
  intros e' N. unfold SFdiv_core_binary. fold e'.
  assert (Hs : 0 <= ex - ea - e') by (unfold e'; lia).
  assert (EN : match ex - ea - e' with
               | Z.pos _ => Z.shiftl (Z.pos mx) (ex - ea - e')
               | 0 => Z.pos mx
               | Z.neg _ => 0
               end = N).
  { unfold N. destruct (ex - ea - e') as [|p|p] eqn:Es.
    - change (2 ^ 0) with 1. lia.
    - now rewrite Z.shiftl_mul_pow2 by lia.
    - lia. }
  rewrite EN. now destruct (Z.div_eucl N (Z.pos ma)).
Qed.

Lemma SFdiv_value (ma : positive) (ea : Z) (X : spec_float) :
  valid_binary (S754_finite false ma ea) = true ->
  valid_binary X = true -> X <> S754_nan ->
  SFdiv prec emax X (S754_finite false ma ea) <> S754_nan
  /\ SF2Z (SFdiv prec emax X (S754_finite false ma ea))
     = symmetric (div_value ma ea) (SF2Z X).
Proof.
  intros Va Vx Nx. pose proof SFbig_pos as B.
  destruct (@valid_finite false ma ea Va) as ((Ha1 & Ha2) & Ha53 & Ha52).
  destruct X as [s| s| |s mx ex]; [| | congruence |]; cbn [SFdiv SF2Z].
  - rewrite xorb_false_r. split; [discriminate|]. unfold symmetric.
    destruct (Z.leb_spec 0 (- SFbig)), (Z.leb_spec SFbig 0); try lia.
    cbn [Z.ltb Z.compare SF2Z]. unfold div_value.
    now rewrite Z.mul_0_l, Rval_zero.
  - rewrite xorb_false_r. split; [discriminate|]. cbn [SF2Z].
    unfold symmetric. destruct s.
    + now rewrite Z.leb_refl.
    + destruct (Z.leb_spec SFbig (- SFbig)); [lia|]. now rewrite Z.leb_refl.
  - rewrite xorb_false_r, SFdiv_core_binary_code.
    destruct (@valid_finite s mx ex Vx) as ((Hx1 & Hx2) & Hx53 & Hx52).
    pose proof (@finite_value s mx ex Vx) as Fx.
    set (d1 := Zdigits2 (Z.pos mx)). set (d2 := Zdigits2 (Z.pos ma)).
    set (e' := Z.min (fexp prec emax (d1 + ex - (d2 + ea))) (ex - ea)).
    set (N := Z.pos mx * 2 ^ (ex - ea - e')).
    assert (He' : e' <= ex - ea /\ e' <= fexp prec emax (d1 + ex - (d2 + ea))
                  /\ -2045 <= e').
    { unfold e'. rewrite fexp_eq. lia. }
    destruct He' as (He1 & He2 & He3). rewrite fexp_eq in He2.
    set (sh := ex - ea - e') in *. assert (Hsh : 0 <= sh) by (unfold sh; lia).
    pose proof (pow2_pos Hsh) as Psh.
    assert (HN : 0 <= N) by (unfold N; nia).
    set (q := fst (Z.div_eucl N (Z.pos ma))).
    assert (Eq : q = N / Z.pos ma) by reflexivity.
    assert (Hq : 0 <= q) by (rewrite Eq; apply Z.div_pos; lia).
    destruct (Zdigits2_bounds (m := Z.pos mx)) as [Hl1 _]; [lia|].
    destruct (Zdigits2_bounds (m := Z.pos ma)) as [_ Hu2]; [lia|].
    fold d1 in Hl1. fold d2 in Hu2.
    assert (Hd1 : 1 <= d1) by (unfold d1; cbn [Zdigits2]; lia).
    pose proof (Zdigits2_nonneg (Z.pos ma)) as Hd2. fold d2 in Hd2.
    assert (Hpre : e' <= fexp prec emax (Zdigits2 q + e')).
    { rewrite fexp_eq.
      destruct (Z_le_gt_dec e' (-1074)) as [L|L]; [lia|].
      assert (Hk : 0 <= d1 - 1 + sh - d2) by (unfold sh; lia).
      assert (2 ^ (d1 - 1 + sh - d2) <= q).
      { rewrite Eq. apply Z.div_le_lower_bound; [lia|].
        apply Z.le_trans with (2 ^ d2 * 2 ^ (d1 - 1 + sh - d2)).
        - apply Z.mul_le_mono_nonneg_r; [apply Z.pow_nonneg|]; lia.
        - rewrite <- Z.pow_add_r by lia.
          replace (d2 + (d1 - 1 + sh - d2)) with ((d1 - 1) + sh) by lia.
          rewrite Z.pow_add_r by lia. unfold N.
          apply Z.mul_le_mono_nonneg_r; lia. }
      pose proof (Zdigits2_lower Hk H). unfold sh in *. lia. }
    destruct (@binary_round_aux_value s q e'
                (new_location (Z.pos ma) (snd (Z.div_eucl N (Z.pos ma))))
                N (Z.pos ma)) as [Hn Hv]; try lia.
    { unfold q. apply div_eucl_code; lia. }
    split; [exact Hn|]. rewrite Hv.
    change (if s then - (Z.pos mx * 2 ^ (ex + 1074))
            else Z.pos mx * 2 ^ (ex + 1074))
      with (signed s (Z.pos mx * 2 ^ (ex + 1074))).
    rewrite symmetric_signed by exact Fx. f_equal.
    unfold div_value.
    rewrite <- (@Rval_align N (Z.pos ma) e' (e' + 3174 + ea));
      [|lia|lia|lia|].
    + f_equal; [|lia]. unfold N.
      rewrite <- !Z.mul_assoc, <- !Z.pow_add_r by lia.
      f_equal. f_equal. unfold sh. lia.
    + rewrite <- Eq. exact Hpre.
Qed.

(** *** The order of binary64 numbers *)

Lemma leb_value (x y : float) :
  (x <=? y)%float = true
  <-> (Prim2SF x <> S754_nan /\ Prim2SF y <> S754_nan
       /\ SF2Z (Prim2SF x) <= SF2Z (Prim2SF y)).
Proof.
  rewrite leb_spec. apply SFleb_value; apply Prim2SF_valid.
Qed.

Lemma ltb_value (x y : float) :
  (x <? y)%float = true
  <-> (Prim2SF x <> S754_nan /\ Prim2SF y <> S754_nan
       /\ SF2Z (Prim2SF x) < SF2Z (Prim2SF y)).
Proof.
  rewrite ltb_spec. apply SFltb_value; apply Prim2SF_valid.
Qed.

Lemma is_nan_value (x : float) :
  is_nan x = false <-> Prim2SF x <> S754_nan.
Proof.
  split; [apply is_nan_false|].
  intros H. unfold is_nan. rewrite FloatAxioms.eqb_spec. unfold SFeqb.
  rewrite (SFcompare_value (Prim2SF_valid x) (Prim2SF_valid x) H H).
  now rewrite Z.compare_refl.
Qed.

Lemma positive_finite (a : float) :
  (0 <? a)%float = true -> is_finite a = true ->
  exists m e, Prim2SF a = S754_finite false m e.
Proof.
  intros Hp Hf. rewrite ltb_spec in Hp. unfold is_finite, is_infinity in Hf.
  rewrite FloatAxioms.eqb_spec, abs_spec in Hf.
  change (Prim2SF 0) with (S754_zero false) in Hp.
  change (Prim2SF infinity) with (S754_infinity false) in Hf.
  destruct (Prim2SF a) as [s| s| |s m e]; try discriminate.
  - destruct s; [discriminate|]. cbn in Hf. rewrite orb_true_r in Hf.
    discriminate.
  - destruct s; [discriminate|]. eauto.
Qed.

Lemma float_le_trans (x y z : float) :
  (x <=? y)%float = true -> (y <=? z)%float = true -> (x <=? z)%float = true.
Proof.
  rewrite !leb_value. intros (Nx & Ny & H1) (_ & Nz & H2).
  split; [exact Nx|]. split; [exact Nz|]. lia.
Qed.

Lemma float_le_refl (x : float) :
  Prim2SF x <> S754_nan -> (x <=? x)%float = true.
Proof. intros H. apply leb_value. split; [exact H|]. split; [exact H|]. lia. Qed.

Lemma F64_min_cases (x y : float) :
  Prim2SF x <> S754_nan -> Prim2SF y <> S754_nan ->
  (F64.min x y = x /\ SF2Z (Prim2SF x) <= SF2Z (Prim2SF y))
  \/ (F64.min x y = y /\ SF2Z (Prim2SF y) <= SF2Z (Prim2SF x)).
Proof.
  intros Nx Ny. unfold F64.min.
  rewrite (proj2 (is_nan_value x) Nx), (proj2 (is_nan_value y) Ny).
  cbn [orb].
  destruct (x <? y)%float eqn:L1.
  - apply ltb_value in L1 as (_ & _ & L1). left. split; [reflexivity|lia].
  - destruct (y <? x)%float eqn:L2.
    + apply ltb_value in L2 as (_ & _ & L2). right. split; [reflexivity|lia].
    + assert (E : SF2Z (Prim2SF x) = SF2Z (Prim2SF y)).
      { destruct (Z.lt_total (SF2Z (Prim2SF x)) (SF2Z (Prim2SF y)))
          as [L|[L|L]]; [|exact L|].
        - assert (T : (x <? y)%float = true) by (apply ltb_value; auto).
          congruence.
        - assert (T : (y <? x)%float = true) by (apply ltb_value; auto).
          congruence. }
      destruct (get_sign x); [left|right]; split; try reflexivity; lia.
Qed.

Lemma F64_max_cases (x y : float) :
  Prim2SF x <> S754_nan -> Prim2SF y <> S754_nan ->
  (F64.max x y = y /\ SF2Z (Prim2SF x) <= SF2Z (Prim2SF y))
  \/ (F64.max x y = x /\ SF2Z (Prim2SF y) <= SF2Z (Prim2SF x)).
Proof.
  intros Nx Ny. unfold F64.max.
  rewrite (proj2 (is_nan_value x) Nx), (proj2 (is_nan_value y) Ny).
  cbn [orb].
  destruct (x <? y)%float eqn:L1.
  - apply ltb_value in L1 as (_ & _ & L1). left. split; [reflexivity|lia].
  - destruct (y <? x)%float eqn:L2.
    + apply ltb_value in L2 as (_ & _ & L2). right. split; [reflexivity|lia].
    + assert (E : SF2Z (Prim2SF x) = SF2Z (Prim2SF y)).
      { destruct (Z.lt_total (SF2Z (Prim2SF x)) (SF2Z (Prim2SF y)))
          as [L|[L|L]]; [|exact L|].
        - assert (T : (x <? y)%float = true) by (apply ltb_value; auto).
          congruence.
        - assert (T : (y <? x)%float = true) by (apply ltb_value; auto).
          congruence. }
      destruct (get_sign x); [left|right]; split; try reflexivity; lia.
Qed.

(** Multiplication by a positive finite number is monotone. *)
Lemma float_mul_mono (c x y : float) :
  (0 <? c)%float = true -> is_finite c = true ->
  (x <=? y)%float = true -> (c * x <=? c * y)%float = true.
Proof.
  intros Hc Hf H. destruct (positive_finite Hc Hf) as (mc & ec & Ec).
  apply leb_value in H as (Nx & Ny & H).
  pose proof (Prim2SF_valid c) as Vc. rewrite Ec in Vc.
  destruct (@SFmul_value mc ec (Prim2SF x) Vc (Prim2SF_valid x) Nx) as [N1 V1].
  destruct (@SFmul_value mc ec (Prim2SF y) Vc (Prim2SF_valid y) Ny) as [N2 V2].
  destruct (@valid_finite false mc ec Vc) as ((_ & Hec) & _).
  apply leb_value. rewrite !mul_spec, Ec. unfold SF64mul.
  split; [exact N1|]. split; [exact N2|]. rewrite V1, V2.
  apply symmetric_mono; [now apply mul_value_mono | | | exact H].
  - unfold mul_value. now rewrite Z.mul_0_r, Z.mul_0_l, Rval_zero.
  - intros a _. apply Rval_le_big.
Qed.

(** Division by a positive finite number is monotone. *)
Lemma float_div_mono (x y a : float) :
  (0 <? a)%float = true -> is_finite a = true ->
  (x <=? y)%float = true -> (x / a <=? y / a)%float = true.
Proof.
  intros Ha Hf H. destruct (positive_finite Ha Hf) as (ma & ea & Ea).
  apply leb_value in H as (Nx & Ny & H).
  pose proof (Prim2SF_valid a) as Va. rewrite Ea in Va.
  destruct (@SFdiv_value ma ea (Prim2SF x) Va (Prim2SF_valid x) Nx) as [N1 V1].
  destruct (@SFdiv_value ma ea (Prim2SF y) Va (Prim2SF_valid y) Ny) as [N2 V2].
  destruct (@valid_finite false ma ea Va) as ((Hea & _) & _).
  apply leb_value. rewrite !div_spec, Ea. unfold SF64div.
  split; [exact N1|]. split; [exact N2|]. rewrite V1, V2.
  apply symmetric_mono; [now apply div_value_mono | | | exact H].
  - unfold div_value. now rewrite Z.mul_0_l, Rval_zero.
  - intros b _. apply Rval_le_big.
Qed.

(** A positive finite number divided by itself is 1. *)
Lemma float_div_self (a : float) :
  (0 <? a)%float = true -> is_finite a = true -> (a / a)%float = 1%float.
Proof.
  intros Ha Hf. destruct (positive_finite Ha Hf) as (ma & ea & Ea).
  apply Prim2SF_inj. rewrite div_spec, Ea. unfold SF64div.
  cbn [SFdiv xorb]. rewrite SFdiv_core_binary_code.
  replace (Zdigits2 (Z.pos ma) + ea - (Zdigits2 (Z.pos ma) + ea)) with 0 by lia.
  replace (ea - ea) with 0 by lia.
  change (Z.min (fexp prec emax 0) 0) with (-53).
  change (0 - -53) with 53.
  assert (E : Z.div_eucl (Z.pos ma * 2 ^ 53) (Z.pos ma) = (2 ^ 53, 0)).
  { rewrite (Z.mul_comm (Z.pos ma)).
    assert (Eq : fst (Z.div_eucl (2 ^ 53 * Z.pos ma) (Z.pos ma))
                 = 2 ^ 53 * Z.pos ma / Z.pos ma) by reflexivity.
    assert (Er : snd (Z.div_eucl (2 ^ 53 * Z.pos ma) (Z.pos ma))
                 = (2 ^ 53 * Z.pos ma) mod Z.pos ma) by reflexivity.
    rewrite Z.div_mul in Eq by lia. rewrite Z.mod_mul in Er by lia.
    destruct (Z.div_eucl (2 ^ 53 * Z.pos ma) (Z.pos ma)) as [q r].
    cbn [fst snd] in Eq, Er. now rewrite Eq, Er. }
  rewrite E. cbn [fst snd].
  assert (El : new_location (Z.pos ma) 0 = loc_Exact).
  { unfold new_location. now destruct (Z.even (Z.pos ma)). }
  rewrite El. vm_compute. reflexivity.
Qed.

(** A number between 1 and 1 is 1. *)
Lemma float_le_antisym_one (x : float) :
  (x <=? F64.of_Z 1)%float = true -> (F64.of_Z 1 <=? x)%float = true ->
  x = 1%float.
Proof.
  change (F64.of_Z 1) with 1%float.
  intros H1 H2. apply leb_value in H1 as (Nx & N1 & H1).
  apply leb_value in H2 as (_ & _ & H2).
  pose proof (SFcompare_value (Prim2SF_valid x) (Prim2SF_valid 1) Nx N1) as C.
  replace (SF2Z (Prim2SF x)) with (SF2Z (Prim2SF 1)) in C by lia.
  rewrite Z.compare_refl in C.
  destruct (SFcompare_Eq _ _ C) as [E | (s & t & _ & E)].
  - now apply Prim2SF_inj.
  - vm_compute in E. discriminate.
Qed.
End Binary64Rounding.

(** ** Layout *)

(** What [layoutInternal_] leaves in the fields of [this]. *)
Lemma layoutInternal_fields (numbers : Numbers float) (env : Env) (w : World) :
  let frame := computeBoundingRect env in
  let f := this (layoutInternal_ numbers env w) in
  let initialSize :=
    (F64.max (height frame) (width frame) * INITIAL_ORIGIN_SCALE numbers)%float in
  let maxRadius :=
    (sqrt (F64.pow2 (width frame) + F64.pow2 (height frame))
     + PADDING numbers)%float in
  frame_ f = frame /\ initialSize_ f = initialSize /\ maxRadius_ f = maxRadius
  /\ fgScale_ f = (maxRadius / initialSize)%float
  /\ xfDuration_ f = (1000 * sqrt (maxRadius / 1024))%float.
Proof.
  unfold layoutInternal_, updateLayoutCssVars_.
  destruct (isUnbounded env); cbn; repeat split; reflexivity.
Qed.

(** C6. For every frame the layout pass leaves in [this] the metrics the
    specification defines: [initialSize = 0.6 * max(width, height)],
    [maxRadius = sqrt(width² + height²) + padding],
    [fgScale = maxRadius / initialSize] and
    [xfDuration = 1000 * sqrt(maxRadius / 1024)].  They depend on the
    measured frame and the constants only, not on the world before. *)
Theorem layoutInternal_computes_metrics :
  forall (numbers : Numbers float) (env : Env) (w : World),
    INITIAL_ORIGIN_SCALE numbers = sixty_percent ->
    let m := spec_computeLayoutMetrics (PADDING numbers) (computeBoundingRect env) in
    let f := this (layoutInternal_ numbers env w) in
    frame_ f = computeBoundingRect env
    /\ initialSize_ f = initialSize m
    /\ maxRadius_ f = maxRadius m
    /\ fgScale_ f = fgScale m
    /\ xfDuration_ f = xfDuration m.
Proof.
  intros numbers env w Hscale m f.
  destruct (layoutInternal_fields numbers env w) as (Hf & Hi & Hm & Hs & Hx).
  fold f in Hf, Hi, Hm, Hs, Hx.
  assert (Ei : initialSize_ f = initialSize m).
  { rewrite Hi, Hscale. unfold m, spec_computeLayoutMetrics. cbn [initialSize].
    rewrite float_mul_comm. f_equal. apply F64_max_comm. }
  assert (Em : maxRadius_ f = maxRadius m).
  { rewrite Hm. reflexivity. }
  repeat split; try assumption.
  rewrite Hs, <- Hi, <- Hm, Ei, Em. reflexivity.
Qed.

Lemma layoutInternal_computes_metrics_witness :
  INITIAL_ORIGIN_SCALE scenario_numbers = sixty_percent
  /\ initialSize_ (this (layoutInternal_ scenario_numbers
                          (bounded_env 100 50) constructor))
     = initialSize (spec_computeLayoutMetrics 10 (computeBoundingRect (bounded_env 100 50))).
Proof.
  split; [reflexivity|].
  apply (layoutInternal_computes_metrics scenario_numbers (bounded_env 100 50)
           constructor).
  reflexivity.
Defined.

(** C2. For a frame of zero width and height the layout pass fails
    nowhere and leaves [initialSize = 0], [maxRadius = PADDING = 10] and
    [xfDuration = 1000 * sqrt(10 / 1024)], which is not zero. *)
Theorem layoutInternal_zero_area :
  forall (numbers : Numbers float) (env : Env) (w : World),
    PADDING numbers = 10%float ->
    INITIAL_ORIGIN_SCALE numbers = sixty_percent ->
    width (computeBoundingRect env) = 0%float ->
    height (computeBoundingRect env) = 0%float ->
    let f := this (layoutInternal_ numbers env w) in
    initialSize_ f = 0%float
    /\ maxRadius_ f = PADDING numbers
    /\ xfDuration_ f = (1000 * sqrt (10 / 1024))%float
    /\ (0 <? xfDuration_ f)%float = true.
Proof.
  intros numbers env w Hp Hs Hw Hh f.
  destruct (layoutInternal_fields numbers env w) as (_ & Hi & Hm & _ & Hx).
  fold f in Hi, Hm, Hx. rewrite Hi, Hm, Hx, Hp, Hs, Hw, Hh.
  repeat split; reflexivity.
Qed.

Lemma layoutInternal_zero_area_witness :
  initialSize_ (this (layoutInternal_ scenario_numbers (bounded_env 0 0)
                        constructor)) = 0%float.
Proof.
  apply (layoutInternal_zero_area scenario_numbers (bounded_env 0 0) constructor);
    reflexivity.
Defined.

(** C2, refuted as stated: on a frame of zero area [maxRadius] is the
    padding, [fgScale] is the quotient [10 / 0], that is [+Infinity], and
    [xfDuration] is about 98.8; only [initialSize] is zero. *)
Lemma zero_area_metrics_not_zero :
  width (computeBoundingRect (bounded_env 0 0)) = 0%float
  /\ height (computeBoundingRect (bounded_env 0 0)) = 0%float
  /\ maxRadius_ (this (layoutInternal_ scenario_numbers (bounded_env 0 0)
                         constructor)) = 10%float
  /\ maxRadius_ (this (layoutInternal_ scenario_numbers (bounded_env 0 0)
                         constructor)) <> 0%float
  /\ fgScale_ (this (layoutInternal_ scenario_numbers (bounded_env 0 0)
                       constructor)) = infinity
  /\ fgScale_ (this (layoutInternal_ scenario_numbers (bounded_env 0 0)
                       constructor)) <> 0%float
  /\ (98 <? xfDuration_ (this (layoutInternal_ scenario_numbers (bounded_env 0 0)
                                 constructor)))%float = true.
Proof.
  split; [|split; [|split; [|split; [|split; [|split]]]]];
    try (vm_compute; reflexivity).
  - intros H. apply (f_equal is_zero) in H. vm_compute in H. discriminate.
  - intros H. apply (f_equal is_zero) in H. vm_compute in H. discriminate.
Qed.

(** ** The bounded press scenario *)

(** C1. A bounded surface of 100 by 50: the layout pass leaves
    [initialSize = 60] and [maxRadius = sqrt(12500) + 10], about 121.8.  A
    mouse-down and then a mouse-up whose normalized coordinates are
    (10, 10) schedule the deactivation visuals, which in the next frame set
    the start point (10 - 30, 10 - 30) = (-20, -20) and the end point
    (50 - 30, 25 - 30) = (20, -5) and start the two bounded animations. *)
Theorem bounded_press_schedules_deactivation :
  forall (numbers : Numbers float)
         (getNormalizedEventCoords : Event -> Point -> ClientRect -> Point)
         (keys : list CssVar) (dx dy ux uy : float),
    let env := bounded_env 100 50 in
    let down := {| type := "mousedown"; pageX := dx; pageY := dy |} in
    let up := {| type := "mouseup"; pageX := ux; pageY := uy |} in
    PADDING numbers = 10%float ->
    INITIAL_ORIGIN_SCALE numbers = sixty_percent ->
    getNormalizedEventCoords up (getWindowPageOffset env) (computeBoundingRect env)
    = {| x := 10%float; y := 10%float |} ->
    let w1 :=
      run numbers getNormalizedEventCoords keys
        [(env, Init); (env, AnimationFrame)] constructor in
    let w2 :=
      run numbers getNormalizedEventCoords keys
        [(env, Dispatch down); (env, AnimationFrame); (env, Dispatch up)] w1 in
    let w3 := step numbers getNormalizedEventCoords keys env AnimationFrame w2 in
    initialSize_ (this w1) = 60%float
    /\ maxRadius_ (this w1) = (sqrt 12500 + 10)%float
    /\ ((12180 <? maxRadius_ (this w1) * 100)
        && (maxRadius_ (this w1) * 100 <? 12181))%float = true
    /\ (exists state,
          map snd (rafQueue w2) = [AnimateDeactivation up state]
          /\ wasActivatedByPointer state = true)
    /\ trace w3
       = trace w2
         ++ boundedDeactivationCalls
              {| x := (-20)%float; y := (-20)%float |}
              {| x := 20%float; y := (-5)%float |} 0 1.
Proof.
  intros [d o a u m p s] gnec keys dx dy ux uy env down up Hp Hs H w1 w2 w3.
  cbn in Hp, Hs. subst p s. vm_compute in H.
  split; [|split; [|split; [|split]]].
  - vm_compute. reflexivity.
  - vm_compute. reflexivity.
  - vm_compute. reflexivity.
  - eexists. split; vm_compute; reflexivity.
  - vm_compute. rewrite H. reflexivity.
Qed.

Lemma bounded_press_schedules_deactivation_witness :
  page_coords (event_at_10_10 "mouseup")
    (getWindowPageOffset (bounded_env 100 50))
    (computeBoundingRect (bounded_env 100 50))
  = {| x := 10%float; y := 10%float |}
  /\ initialSize_ (this (scenario
       [ (bounded_env 100 50, Init); (bounded_env 100 50, AnimationFrame) ]))
     = 60%float.
Proof.
  split; [reflexivity|].
  exact (proj1 (bounded_press_schedules_deactivation scenario_numbers
                  page_coords scenario_VAR_keys 10 10 10 10
                  eq_refl eq_refl eq_refl)).
Defined.

(** C1, refuted as stated: in that scenario [initialSize] is 60, not 30, so
    the start point is (-20, -20) and the end point (20, -5), not (-5, -5)
    and (35, 10). *)
Lemma bounded_press_not_as_claimed :
  initialSize_ (this (scenario
     [ (bounded_env 100 50, Init); (bounded_env 100 50, AnimationFrame) ]))
  = 60%float
  /\ initialSize_ (this (scenario
       [ (bounded_env 100 50, Init); (bounded_env 100 50, AnimationFrame) ]))
     <> 30%float
  /\ page_coords (event_at_10_10 "mouseup")
       (getWindowPageOffset (bounded_env 100 50))
       (computeBoundingRect (bounded_env 100 50))
     = {| x := 10%float; y := 10%float |}
  /\ cssVariableUpdates VAR_FG_TRANSLATE_START
       (trace (scenario
          [ (bounded_env 100 50, Init); (bounded_env 100 50, AnimationFrame);
            (bounded_env 100 50, Dispatch (event_at_10_10 "mousedown"));
            (bounded_env 100 50, AnimationFrame);
            (bounded_env 100 50, Dispatch (event_at_10_10 "mouseup"));
            (bounded_env 100 50, AnimationFrame) ]))
     = [PxPair (-20) (-20)]
  /\ cssVariableUpdates VAR_FG_TRANSLATE_END
       (trace (scenario
          [ (bounded_env 100 50, Init); (bounded_env 100 50, AnimationFrame);
            (bounded_env 100 50, Dispatch (event_at_10_10 "mousedown"));
            (bounded_env 100 50, AnimationFrame);
            (bounded_env 100 50, Dispatch (event_at_10_10 "mouseup"));
            (bounded_env 100 50, AnimationFrame) ]))
     = [PxPair 20 (-5)].
Proof.
  split; [|split; [|split; [|split]]]; try (vm_compute; reflexivity).
  intros H. apply (f_equal (fun v => (v =? 60)%float)) in H.
  vm_compute in H. discriminate.
Qed.

(** ** The heap of activation-state objects *)

Lemma nth_error_update {A : Type} (l k : nat) (f : A -> A) (h : list A) :
  nth_error (update l f h) k
  = if Nat.eqb k l then option_map f (nth_error h k) else nth_error h k.
Proof.
  revert l k. induction h as [|a h IH]; intros [|l] [|k]; cbn; auto.
  now destruct (Nat.eqb k l).
Qed.

Lemma nth_error_new {A : Type} (h : list A) (a : A) :
  nth_error (h ++ [a]) (List.length h) = Some a.
Proof.
  rewrite nth_error_app2 by lia. now rewrite Nat.sub_diag.
Qed.

Lemma nth_error_old {A : Type} (h : list A) (a : A) (l : nat) (s : A) :
  nth_error h l = Some s -> nth_error (h ++ [a]) l = Some s.
Proof.
  intros H. rewrite nth_error_app1; [assumption|].
  apply nth_error_Some. congruence.
Qed.

Lemma resetActivationState_current (w : World) :
  currentActivationState (resetActivationState w) = Some defaultActivationState_.
Proof.
  unfold currentActivationState, resetActivationState. cbn. apply nth_error_new.
Qed.

(** ** Duplicate activation *)

(** C8. An activation event that arrives while the state is activated
    changes nothing: the activation state, the pending callbacks and timers
    and the calls made are those of before. *)
Theorem activate_when_activated_is_noop :
  forall (env : Env) (e : Event) (w : World) (s : ActivationState),
    currentActivationState w = Some s ->
    isActivated s = true ->
    activate_ env e w = w.
Proof.
  intros env e w s Hs Ha. unfold activate_.
  unfold currentActivationState in Hs. now rewrite Hs, Ha.
Qed.

Lemma activate_when_activated_is_noop_witness :
  activate_ (bounded_env 100 50) (event_at_10_10 "touchstart")
    (scenario [ (bounded_env 100 50, Init);
                (bounded_env 100 50, Dispatch (event_at_10_10 "mousedown")) ])
  = scenario [ (bounded_env 100 50, Init);
               (bounded_env 100 50, Dispatch (event_at_10_10 "mousedown")) ].
Proof.
  eapply activate_when_activated_is_noop; vm_compute; reflexivity.
Defined.

(** ** Deactivation *)

(** C3. A deactivation event received in an activated state schedules the
    deactivation visuals exactly when the pairing table maps its type to
    the type of the stored activation event; in a pointer-activated cycle
    the state is reset exactly when the event is a mouse-up.  For
    touch-start, touch-end, mouse-up, with or without frames in between,
    the visuals are scheduled once, by the touch-end, which leaves the
    state activated, and the mouse-up resets it and schedules nothing. *)
Theorem deactivate_pairing_and_reset :
  forall (env : Env) (e : Event) (w : World) (s : ActivationState) (e0 : Event),
    currentActivationState w = Some s ->
    isActivated s = true ->
    activationEvent s = Some e0 ->
    let w' := deactivate_ env e w in
    let needsDeactivationUX :=
      same_type (lookup (type e) DEACTIVATION_ACTIVATION_PAIRS) (type e0) in
    rafQueue w'
    = (if needsDeactivationUX
       then rafQueue w ++ [(nextFrameId w, AnimateDeactivation e s)]
       else rafQueue w)
    /\ (wasActivatedByPointer s = true ->
        currentActivationState w'
        = if String.eqb (type e) "mouseup"
          then Some defaultActivationState_ else Some s)
    /\ (forall frame1 frame2 : bool,
          deactivationCallbacks (rafQueue (scenario (touchstart_ops frame1))) = []
          /\ List.length
               (deactivationCallbacks (rafQueue (scenario (touchend_ops frame1))))
             = 1%nat
          /\ option_map isActivated
               (currentActivationState (scenario (touchend_ops frame1)))
             = Some true
          /\ rafQueue (scenario (mouseup_ops frame1 frame2))
             = rafQueue (scenario (touchend_ops frame1
                                   ++ frames (bounded_env 100 50) frame2))
          /\ currentActivationState (scenario (mouseup_ops frame1 frame2))
             = Some defaultActivationState_
          /\ deactivationVisuals
               (trace (scenario (mouseup_ops frame1 frame2
                                 ++ [(bounded_env 100 50, AnimationFrame)])))
             = 1%nat).
Proof.
  intros env e w s e0 Hs Ha He w' ux.
  unfold currentActivationState in Hs.
  assert (Hw : w' = (let w1 := if ux
                        then snd (requestAnimationFrame (AnimateDeactivation e s) w)
                        else w in
                     if (if wasActivatedByPointer s
                         then String.eqb (type e) "mouseup" else ux)
                     then resetActivationState w1 else w1)).
  { unfold w', deactivate_. rewrite Hs, Ha, He. reflexivity. }
  split; [|split].
  - rewrite Hw. cbn zeta.
    destruct (if wasActivatedByPointer s then _ else _), ux; reflexivity.
  - intros Hp. rewrite Hw, Hp. cbn zeta.
    destruct (String.eqb (type e) "mouseup").
    + apply resetActivationState_current.
    + unfold currentActivationState. now destruct ux.
  - intros [|] [|]; repeat (split; [vm_compute; reflexivity|]);
      vm_compute; reflexivity.
Qed.

Lemma deactivate_pairing_and_reset_witness :
  exists s,
    currentActivationState (scenario (touchstart_ops false)) = Some s
    /\ currentActivationState
         (deactivate_ (bounded_env 100 50) (event_at_10_10 "touchend")
            (scenario (touchstart_ops false)))
       = Some s.
Proof.
  eexists. split; [vm_compute; reflexivity|].
  refine (proj1 (proj2 (deactivate_pairing_and_reset (bounded_env 100 50)
            (event_at_10_10 "touchend") (scenario (touchstart_ops false))
            (e0 := event_at_10_10 "touchstart") _ _ _)) _);
    vm_compute; reflexivity.
Defined.

(** ** Confirmation of an activation *)

Lemma animateActivation__adds_BG_ACTIVE (env : Env) (w : World) :
  In (AddClass BG_ACTIVE) (log (animateActivation_ env w)).
Proof.
  unfold animateActivation_, animateUnboundedActivation_, cancel.
  cbn [fold_left].
  destruct (cancelBgBounded_ _), (cancelFgBounded_ _), (cancelFgUnbounded_ _),
    (Nat.eqb _ 0), (isUnbounded env); cbn; auto 10.
Qed.

Lemma animateActivation__fields (env : Env) (w : World) :
  let w' := animateActivation_ env w in
  let timer := unboundedOpacityFadeTimer_ (this w) in
  unboundedOpacityFadeTimer_ (this w') = 0%nat
  /\ timeouts w'
     = (if Nat.eqb timer 0 then timeouts w
        else filter (fun p => negb (Nat.eqb (fst p) timer)) (timeouts w))
  /\ cancelBgBounded_ (this w') = cancelBgBounded_ (this w)
  /\ cancelFgBounded_ (this w') = cancelFgBounded_ (this w)
  /\ log w'
     = (if isUnbounded env then [AddClass FG_UNBOUNDED_ACTIVATION] else [])
       ++ [IsUnbounded; AddClass BG_ACTIVE]
       ++ match cancelFgUnbounded_ (this w) with
          | Some h => [CancelAnimation h] | None => [] end
       ++ match cancelFgBounded_ (this w) with
          | Some h => [CancelAnimation h] | None => [] end
       ++ match cancelBgBounded_ (this w) with
          | Some h => [CancelAnimation h] | None => [] end
       ++ [RemoveClass FG_BOUNDED_ACTIVE_FILL;
           RemoveClass FG_UNBOUNDED_DEACTIVATION;
           RemoveClass BG_BOUNDED_ACTIVE_FILL]
       ++ log w.
Proof.
  destruct w as [[lf fr st xf ini mr timer bg fg fu uc sc] hp q nf ts nt nh hs rh lg].
  unfold animateActivation_, animateUnboundedActivation_.
  destruct bg, fg, fu; cbn;
    destruct (Nat.eqb_spec timer 0), (isUnbounded env); cbn;
    repeat split; reflexivity || assumption.
Qed.

Lemma animateActivation__state (env : Env) (w : World) :
  heap (animateActivation_ env w) = heap w
  /\ activationState_ (this (animateActivation_ env w))
     = activationState_ (this w)
  /\ rafQueue (animateActivation_ env w) = rafQueue w.
Proof.
  unfold animateActivation_, animateUnboundedActivation_, cancel.
  cbn [fold_left].
  destruct (cancelBgBounded_ _), (cancelFgBounded_ _), (cancelFgUnbounded_ _),
    (Nat.eqb _ 0), (isUnbounded env); repeat split.
Qed.

Lemma animateActivation__surfaceQueries (env : Env) (w : World) :
  surfaceQueries (log (animateActivation_ env w)) = surfaceQueries (log w).
Proof.
  destruct (animateActivation__fields env w) as (_ & _ & _ & _ & Hl).
  cbn zeta in Hl. rewrite Hl. unfold surfaceQueries.
  rewrite !filter_app, !length_app.
  destruct (isUnbounded env), (cancelFgUnbounded_ (this w)),
    (cancelFgBounded_ (this w)), (cancelBgBounded_ (this w)); reflexivity.
Qed.

(** [activate_] in a state at rest: the state object is marked in place,
    and the confirmation callback, which captures that object, is
    requested. *)
Lemma activate__at_rest (env : Env) (e : Event) (w : World)
    (s : ActivationState) :
  currentActivationState w = Some s -> isActivated s = false ->
  let l := activationState_ (this w) in
  let w1 := activate_ env e w in
  rafQueue w1 = rafQueue w ++ [(nextFrameId w, ConfirmActivation e l)]
  /\ log w1 = log w
  /\ timeouts w1 = timeouts w
  /\ activationState_ (this w1) = l
  /\ nth_error (heap w1) l
     = Some {| isActivated := true;
               wasActivatedByPointer := isPointerActivation (type e);
               wasElementMadeActive := wasElementMadeActive s;
               activationStartTime := Date_now env;
               activationEvent := Some e |}.
Proof.
  intros Hs Ha l w1. unfold currentActivationState in Hs. fold l in Hs.
  assert (E : w1 = snd (requestAnimationFrame (ConfirmActivation e l)
                          (mutate l
                             (fun s =>
                                {| isActivated := true;
                                   wasActivatedByPointer :=
                                     isPointerActivation (type e);
                                   wasElementMadeActive := wasElementMadeActive s;
                                   activationStartTime := Date_now env;
                                   activationEvent := Some e |}) w))).
  { unfold w1, activate_. fold l. now rewrite Hs, Ha. }
  rewrite E. cbn [snd requestAnimationFrame mutate].
  split; [reflexivity|]. split; [reflexivity|]. split; [reflexivity|].
  split; [reflexivity|].
  cbn [heap set_rafQueue set_heap mutate].
  rewrite nth_error_update, Nat.eqb_refl, Hs. reflexivity.
Qed.

(** The animation frame after such an activation runs the confirmation
    callback, and nothing else when nothing else was pending. *)
Lemma confirmation_frame
    (numbers : Numbers float)
    (getNormalizedEventCoords : Event -> Point -> ClientRect -> Point)
    (keys : list CssVar) (env env' : Env) (e : Event) (w : World)
    (s : ActivationState) :
  currentActivationState w = Some s -> isActivated s = false ->
  rafQueue w = [] ->
  animationFrame numbers getNormalizedEventCoords keys env' (activate_ env e w)
  = confirmActivation env' e (activationState_ (this w))
      (cancelAnimationFrame (nextFrameId w) (activate_ env e w)).
Proof.
  intros Hs Ha Hq.
  destruct (activate__at_rest env e w Hs Ha) as (Hr & _).
  cbn zeta in Hr. rewrite Hq in Hr. cbn [app] in Hr. unfold animationFrame.
  rewrite Hr. cbn [map fst runFrameCallbacks]. rewrite Hr.
  cbn [pending]. rewrite Nat.eqb_refl. reflexivity.
Qed.

(** C4. An activation in a state at rest requests the confirmation step
    for the next frame and calls nothing.  That frame, for a key-down,
    asks the adapter [isSurfaceActive] once; on [false] it resets the state
    to the default one at once, makes no other call, hence adds no style
    marker and runs no activation visuals, and leaves nothing pending; on
    [true] it runs the activation visuals.  For any other type of event it
    asks nothing and runs the activation visuals, whatever the adapter
    would answer.  The same holds of the confirmation callback in any
    world, and of a key-down and key-up dispatched to an initialized
    foundation on a surface that is not pressed: the only call is the one
    query, and no style marker is added after those of initialization. *)
Theorem confirmation_of_activation :
  forall (numbers : Numbers float)
         (getNormalizedEventCoords : Event -> Point -> ClientRect -> Point)
         (keys : list CssVar),
    (forall (env env' : Env) (e : Event) (w : World) (s : ActivationState),
        currentActivationState w = Some s ->
        isActivated s = false ->
        rafQueue w = [] ->
        let w1 := activate_ env e w in
        let w2 := animationFrame numbers getNormalizedEventCoords keys env' w1 in
        rafQueue w1
        = [(nextFrameId w, ConfirmActivation e (activationState_ (this w)))]
        /\ log w1 = log w
        /\ (type e = "keydown"%string -> isSurfaceActive env' = false ->
            log w2 = IsSurfaceActive :: log w
            /\ currentActivationState w2 = Some defaultActivationState_
            /\ rafQueue w2 = []
            /\ timeouts w2 = timeouts w)
        /\ (type e = "keydown"%string -> isSurfaceActive env' = true ->
            surfaceQueries (log w2) = S (surfaceQueries (log w))
            /\ In (AddClass BG_ACTIVE) (log w2)
            /\ exists s2, currentActivationState w2 = Some s2
                          /\ isActivated s2 = true
                          /\ wasElementMadeActive s2 = true)
        /\ (type e <> "keydown"%string ->
            surfaceQueries (log w2) = surfaceQueries (log w)
            /\ In (AddClass BG_ACTIVE) (log w2)
            /\ exists s2, currentActivationState w2 = Some s2
                          /\ isActivated s2 = true
                          /\ wasElementMadeActive s2 = true))
    /\ (forall (env : Env) (e : Event) (activationState : nat) (w : World),
          let w' :=
            runFrameCallback numbers getNormalizedEventCoords keys env
              (ConfirmActivation e activationState) w in
          (type e = "keydown"%string -> isSurfaceActive env = false ->
             log w' = IsSurfaceActive :: log w
             /\ currentActivationState w' = Some defaultActivationState_
             /\ rafQueue w' = rafQueue w
             /\ timeouts w' = timeouts w)
          /\ (type e = "keydown"%string -> isSurfaceActive env = true ->
              w' = animateActivation_ env
                     (mutate activationState (set_wasElementMadeActive true)
                             (call IsSurfaceActive w)))
          /\ (type e <> "keydown"%string ->
              w' = animateActivation_ env
                     (mutate activationState (set_wasElementMadeActive true) w)
              /\ In (AddClass BG_ACTIVE) (log w')))
    /\ (let rest :=
          run numbers getNormalizedEventCoords keys
            [ (unpressed_env, Init); (unpressed_env, AnimationFrame) ]
            constructor in
        let down :=
          run numbers getNormalizedEventCoords keys
            [ (unpressed_env, Dispatch (event_at_10_10 "keydown")) ] rest in
        let pressed :=
          run numbers getNormalizedEventCoords keys
            [ (unpressed_env, AnimationFrame) ] down in
        let released :=
          run numbers getNormalizedEventCoords keys
            [ (unpressed_env, Dispatch (event_at_10_10 "keyup"));
              (unpressed_env, AnimationFrame) ] pressed in
        map snd (rafQueue down)
        = [ConfirmActivation (event_at_10_10 "keydown")
             (activationState_ (this rest))]
        /\ trace down = trace rest
        /\ trace pressed = (trace rest ++ [IsSurfaceActive])%list
        /\ currentActivationState pressed = Some defaultActivationState_
        /\ addedClasses (trace pressed) = addedClasses (trace rest)
        /\ trace released = trace pressed
        /\ addedClasses (trace released) = addedClasses (trace rest)
        /\ rafQueue released = []).
Proof.
  intros numbers gnec keys. split; [|split].
  - intros env env' e w s Hs Ha Hq w1 w2.
    destruct (activate__at_rest env e w Hs Ha) as (Hr & Hl & Ht & Hl1 & Hh).
    cbn zeta in Hr, Hl, Ht, Hl1, Hh. fold w1 in Hr, Hl, Ht, Hl1, Hh.
    rewrite Hq in Hr. cbn [app] in Hr.
    assert (E2 : w2 = confirmActivation env' e (activationState_ (this w))
                        (cancelAnimationFrame (nextFrameId w) w1))
      by (now apply confirmation_frame with (s := s)).
    set (l := activationState_ (this w)) in *.
    set (w1' := cancelAnimationFrame (nextFrameId w) w1) in *.
    assert (F : log w1' = log w /\ timeouts w1' = timeouts w
                /\ rafQueue w1' = [] /\ heap w1' = heap w1
                /\ activationState_ (this w1') = l).
    { unfold w1'. cbn [cancelAnimationFrame log timeouts rafQueue heap this
                         set_rafQueue].
      rewrite Hr. cbn [filter fst]. rewrite Nat.eqb_refl. cbn [negb].
      repeat split; assumption. }
    destruct F as (Fl & Ft & Fq & Fh & Fa).
    clearbody w1'. clearbody w1.
    split; [exact Hr|]. split; [exact Hl|].
    split; [|split].
    + intros Hk Hf. rewrite E2. unfold confirmActivation.
      rewrite Hk, Hf. cbn [String.eqb Ascii.eqb Bool.eqb].
      split; [|split; [apply resetActivationState_current|split]].
      * cbn [resetActivationState new_object mutate log call set_heap set_this].
        now rewrite <- Fl.
      * cbn [resetActivationState new_object mutate rafQueue call set_heap
               set_this]. exact Fq.
      * cbn [resetActivationState new_object mutate timeouts call set_heap
               set_this]. exact Ft.
    + intros Hk Hf.
      assert (E3 : w2 = animateActivation_ env'
                          (mutate l (set_wasElementMadeActive true)
                                  (call IsSurfaceActive w1'))).
      { rewrite E2. unfold confirmActivation. now rewrite Hk, Hf. }
      rewrite E3. split; [|split].
      * rewrite animateActivation__surfaceQueries.
        cbn [mutate log call set_heap]. rewrite Fl. reflexivity.
      * apply animateActivation__adds_BG_ACTIVE.
      * destruct (animateActivation__state env'
                    (mutate l (set_wasElementMadeActive true)
                            (call IsSurfaceActive w1'))) as (Eh & Ea & _).
        unfold currentActivationState. rewrite Eh, Ea.
        cbn [mutate heap this call set_heap]. rewrite Fa, Fh.
        rewrite nth_error_update, Nat.eqb_refl, Hh. cbn [option_map].
        eexists. split; [reflexivity|]. split; reflexivity.
    + intros Hk. apply String.eqb_neq in Hk.
      assert (E3 : w2 = animateActivation_ env'
                          (mutate l (set_wasElementMadeActive true) w1')).
      { rewrite E2. unfold confirmActivation. now rewrite Hk. }
      rewrite E3. split; [|split].
      * rewrite animateActivation__surfaceQueries.
        cbn [mutate log set_heap]. now rewrite Fl.
      * apply animateActivation__adds_BG_ACTIVE.
      * destruct (animateActivation__state env'
                    (mutate l (set_wasElementMadeActive true) w1'))
          as (Eh & Ea & _).
        unfold currentActivationState. rewrite Eh, Ea.
        cbn [mutate heap this set_heap]. rewrite Fa, Fh.
        rewrite nth_error_update, Nat.eqb_refl, Hh. cbn [option_map].
        eexists. split; [reflexivity|]. split; reflexivity.
  - intros env e l w w'. split; [|split].
    + intros Ht Hf. unfold w', runFrameCallback, confirmActivation.
      rewrite Ht, Hf. cbn [String.eqb Ascii.eqb Bool.eqb].
      split; [reflexivity|]. split; [apply resetActivationState_current|].
      split; reflexivity.
    + intros Ht Hf. unfold w', runFrameCallback, confirmActivation.
      rewrite Ht, Hf. reflexivity.
    + intros Ht. apply String.eqb_neq in Ht.
      assert (E : w' = animateActivation_ env
                         (mutate l (set_wasElementMadeActive true) w)).
      { unfold w', runFrameCallback, confirmActivation. now rewrite Ht. }
      split; [exact E|]. rewrite E. apply animateActivation__adds_BG_ACTIVE.
  - cbv zeta.
    split; [|split; [|split; [|split; [|split; [|split; [|split]]]]]];
      vm_compute; reflexivity.
Qed.

Lemma confirmation_of_activation_witness :
  log (animationFrame scenario_numbers page_coords scenario_VAR_keys
         unpressed_env
         (activate_ unpressed_env (event_at_10_10 "keydown")
            (scenario [ (unpressed_env, Init); (unpressed_env, AnimationFrame) ])))
  = IsSurfaceActive
    :: log (scenario [ (unpressed_env, Init); (unpressed_env, AnimationFrame) ]).
Proof.
  refine (proj1 (proj1 (proj2 (proj2
            (proj1 (confirmation_of_activation scenario_numbers page_coords
                      scenario_VAR_keys)
               unpressed_env unpressed_env (event_at_10_10 "keydown")
               (scenario [ (unpressed_env, Init);
                           (unpressed_env, AnimationFrame) ])
               defaultActivationState_ _ eq_refl _))) eq_refl eq_refl)).
  - vm_compute. reflexivity.
  - vm_compute. reflexivity.
Defined.

(** ** The capability query *)

Section CapabilityQueries.
Variable numbers : Numbers float.
Variable getNormalizedEventCoords : Event -> Point -> ClientRect -> Point.
Variable keys : list CssVar.

Lemma quiet_fold {A : Type} (f : World -> A -> World) (l : list A) (w : World) :
  (forall a, quiet (fun w => f w a)) ->
  capabilityQueries (log (fold_left f l w)) = capabilityQueries (log w).
Proof.
  intros H. revert w. induction l as [|a l IH]; intros w; cbn [fold_left];
    [reflexivity|].
  rewrite IH. apply (H a).
Qed.

Lemma registerInteractionHandler_quiet (t : string) (k : Listener) :
  quiet (registerInteractionHandler t k).
Proof.
  intros w. unfold registerInteractionHandler.
  now destruct (existsb _ _).
Qed.

Lemma deregisterInteractionHandler_quiet (t : string) (k : Listener) :
  quiet (deregisterInteractionHandler t k).
Proof. intros w. reflexivity. Qed.

Lemma capabilityQueries_other (c : Call) (l : list Call) :
  c <> BrowserSupportsCssVars -> capabilityQueries (c :: l) = capabilityQueries l.
Proof. destruct c; congruence || reflexivity. Qed.

Lemma registerResizeHandler_log (w : World) :
  log (registerResizeHandler w) = RegisterResizeHandler :: log w.
Proof. reflexivity. Qed.

Lemma deregisterResizeHandler_log (w : World) :
  log (deregisterResizeHandler w) = DeregisterResizeHandler :: log w.
Proof. reflexivity. Qed.

Lemma requestAnimationFrame_log (cb : FrameCallback) (w : World) :
  log (snd (requestAnimationFrame cb w)) = log w.
Proof. reflexivity. Qed.

Lemma addEventListeners__quiet : quiet addEventListeners_.
Proof.
  intros w. unfold addEventListeners_.
  rewrite registerResizeHandler_log, capabilityQueries_other by discriminate.
  apply quiet_fold. intros info w0. apply quiet_fold. intros k.
  apply registerInteractionHandler_quiet.
Qed.

Lemma removeEventListeners__quiet : quiet removeEventListeners_.
Proof.
  intros w. unfold removeEventListeners_.
  rewrite deregisterResizeHandler_log, capabilityQueries_other by discriminate.
  apply quiet_fold. intros info w0. apply quiet_fold. intros k.
  apply deregisterInteractionHandler_quiet.
Qed.

Lemma removeCssVars__quiet : quiet (removeCssVars_ keys).
Proof.
  intros w. unfold removeCssVars_. apply quiet_fold. intros k w0. reflexivity.
Qed.

Lemma layoutInternal__quiet (env : Env) : quiet (layoutInternal_ numbers env).
Proof.
  intros w. unfold layoutInternal_, updateLayoutCssVars_.
  now destruct (isUnbounded env).
Qed.

Lemma animateActivation__quiet (env : Env) : quiet (animateActivation_ env).
Proof.
  intros w. unfold animateActivation_, animateUnboundedActivation_, cancel.
  cbn [fold_left].
  now destruct (cancelBgBounded_ _), (cancelFgBounded_ _), (cancelFgUnbounded_ _),
    (Nat.eqb _ 0), (isUnbounded env).
Qed.

Lemma animateDeactivation__quiet (env : Env) (e : Event) (s : ActivationState) :
  quiet (animateDeactivation_ numbers getNormalizedEventCoords env e s).
Proof.
  intros w. unfold animateDeactivation_, animateUnboundedDeactivation_,
    animateBoundedDeactivation_.
  destruct (wasActivatedByPointer s || wasElementMadeActive s); [|reflexivity].
  destruct (isUnbounded env); [reflexivity|].
  now destruct (isPointerDeactivation (type e)).
Qed.

Lemma runFrameCallback_quiet (env : Env) (cb : FrameCallback) :
  quiet (runFrameCallback numbers getNormalizedEventCoords keys env cb).
Proof.
  intros w. destruct cb as [|e l|e s| | | |]; cbn [runFrameCallback].
  - rewrite layoutInternal__quiet. now destruct (isUnbounded env).
  - unfold confirmActivation.
    destruct (String.eqb (type e) "keydown"), (isSurfaceActive env);
      try (now rewrite animateActivation__quiet); reflexivity.
  - apply animateDeactivation__quiet.
  - now rewrite removeCssVars__quiet.
  - cbn [log set_this]. apply layoutInternal__quiet.
  - reflexivity.
  - reflexivity.
Qed.

Lemma runFrameCallbacks_quiet (env : Env) (ids : list nat) :
  quiet (runFrameCallbacks numbers getNormalizedEventCoords keys env ids).
Proof.
  induction ids as [|id ids IH]; intros w; cbn [runFrameCallbacks];
    [reflexivity|].
  destruct (pending id (rafQueue w)); rewrite IH; [|reflexivity].
  now rewrite runFrameCallback_quiet.
Qed.

Lemma activate__quiet (env : Env) (e : Event) : quiet (activate_ env e).
Proof.
  intros w. unfold activate_.
  destruct (nth_error _ _) as [s|]; [|reflexivity]. now destruct (isActivated s).
Qed.

Lemma deactivate__quiet (env : Env) (e : Event) : quiet (deactivate_ env e).
Proof.
  intros w. unfold deactivate_.
  destruct (nth_error _ _) as [s|]; [|reflexivity].
  destruct (isActivated s); [|reflexivity]. cbn [negb].
  destruct (activationEvent s) as [e0|]; [|reflexivity].
  now destruct (same_type _ _), (wasActivatedByPointer s),
    (String.eqb (type e) "mouseup").
Qed.

Lemma dispatchEvent_quiet (env : Env) (e : Event) : quiet (dispatchEvent env e).
Proof.
  intros w. unfold dispatchEvent. apply quiet_fold.
  intros [ | | | ] w0; cbn [listeners_];
    [apply activate__quiet | apply deactivate__quiet | |]; reflexivity.
Qed.

Lemma layout_quiet : quiet layout.
Proof.
  intros w. unfold layout. now destruct (negb _).
Qed.

(** Every operation but [init] and [destroy] leaves the number of
    capability queries as it is; each of those two adds one. *)
Lemma step_capabilityQueries (env : Env) (op : Op) (w : World) :
  capabilityQueries
    (log (step numbers getNormalizedEventCoords keys env op w))
  = (lifecycleCalls [(env, op)] + capabilityQueries (log w))%nat.
Proof.
  destruct op as [ | | |e| | |id]; cbn [step lifecycleCalls Nat.add].
  - unfold init, isSupported_. destruct (browserSupportsCssVars env); cbn [negb].
    + now rewrite requestAnimationFrame_log, addEventListeners__quiet.
    + reflexivity.
  - unfold destroy, isSupported_. destruct (browserSupportsCssVars env); cbn [negb].
    + now rewrite requestAnimationFrame_log, removeEventListeners__quiet.
    + reflexivity.
  - apply layout_quiet.
  - apply dispatchEvent_quiet.
  - unfold resize. destruct (resizeHandler w); [apply layout_quiet|reflexivity].
  - apply runFrameCallbacks_quiet.
  - unfold timeout. now destruct (pending id (timeouts w)).
Qed.

(** C5. The foundation does not cache the capability: it asks the adapter
    [browserSupportsCssVars] once in every [init] and once in every
    [destroy], and in no other operation.  After any operations the number
    of queries is the number of [init] and [destroy] calls among them. *)
Theorem capability_queried_by_init_and_destroy :
  forall (ops : list (Env * Op)) (w : World),
    capabilityQueries
      (log (run numbers getNormalizedEventCoords keys ops w))
    = (lifecycleCalls ops + capabilityQueries (log w))%nat.
Proof.
  induction ops as [|[env op] ops IH]; intros w; [reflexivity|].
  change (run numbers getNormalizedEventCoords keys ((env, op) :: ops) w)
    with (run numbers getNormalizedEventCoords keys ops
            (step numbers getNormalizedEventCoords keys env op w)).
  rewrite IH, step_capabilityQueries.
  destruct op; cbn [lifecycleCalls]; lia.
Qed.
End CapabilityQueries.

(** C5, refuted as stated: an [init] followed by a [destroy] asks the
    adapter twice. *)
Lemma capability_queried_twice :
  capabilityQueries
    (trace (scenario [ (bounded_env 100 50, Init);
                       (bounded_env 100 50, Destroy) ]))
  = 2%nat.
Proof. vm_compute. reflexivity. Qed.

(** ** The invariant of the activation state *)

Lemma stable_refl (w : World) : stable w w.
Proof. repeat split; auto. Qed.

Lemma stable_trans (w1 w2 w3 : World) :
  stable w1 w2 -> stable w2 w3 -> stable w1 w3.
Proof.
  intros (H1 & H2 & H3 & H4) (K1 & K2 & K3 & K4).
  split; [congruence|]. split; [congruence|]. split.
  - intros id e l H. auto.
  - intros t k H. destruct (K4 t k H); auto.
Qed.

Lemma stable_same (w w' : World) :
  heap w' = heap w -> activationState_ (this w') = activationState_ (this w) ->
  rafQueue w' = rafQueue w -> handlers w' = handlers w -> stable w w'.
Proof.
  intros H1 H2 H3 H4. split; [assumption|]. split; [assumption|]. split.
  - intros id e l. now rewrite H3.
  - intros t k. rewrite H4. auto.
Qed.

Lemma stable_invariant (w w' : World) :
  stable w w' -> worldInvariant w -> worldInvariant w'.
Proof.
  intros (H1 & H2 & H3 & H4) (I1 & I2 & I3). split; [|split].
  - unfold currentActivationState in *. now rewrite H1, H2.
  - intros id e l H. unfold activatedAt. rewrite H1. exact (I2 id e l (H3 id e l H)).
  - intros t k H. destruct (H4 t k H); auto.
Qed.

Lemma stable_activatedAt (w w' : World) (l : nat) :
  stable w w' -> activatedAt l w -> activatedAt l w'.
Proof. intros (H1 & _) H. unfold activatedAt in *. now rewrite H1. Qed.

Lemma stable_requestAnimationFrame (cb : FrameCallback) (w : World) :
  (forall e l, cb <> ConfirmActivation e l) ->
  stable w (snd (requestAnimationFrame cb w)).
Proof.
  intros H. split; [reflexivity|]. split; [reflexivity|]. split; [|auto].
  intros id e l Hin. cbn in Hin.
  apply in_app_or in Hin as [Hin | [Hin | []]]; [assumption|].
  inversion Hin; subst. now destruct (H e l).
Qed.

Lemma stable_cancelAnimationFrame (id : nat) (w : World) :
  stable w (cancelAnimationFrame id w).
Proof.
  split; [reflexivity|]. split; [reflexivity|]. split; [|auto].
  intros i e l Hin. cbn in Hin. now apply filter_In in Hin.
Qed.

Lemma stable_fold {A : Type} (f : World -> A -> World) (l : list A) (w : World) :
  (forall a, In a l -> forall w, stable w (f w a)) -> stable w (fold_left f l w).
Proof.
  revert w. induction l as [|a l IH]; intros w H; cbn [fold_left].
  - apply stable_refl.
  - eapply stable_trans; [apply H; now left | apply IH].
    intros b Hb. apply H. now right.
Qed.

Lemma call_stable (c : Call) (w : World) : stable w (call c w).
Proof. apply stable_same; reflexivity. Qed.

Lemma registerInteractionHandler_stable (t : string) (k : Listener) (w : World) :
  In (k, t) (List.concat listenerInfos_) ->
  stable w (registerInteractionHandler t k w).
Proof.
  intros Hk. unfold registerInteractionHandler.
  destruct (existsb _ _); [apply stable_same; reflexivity|].
  split; [reflexivity|]. split; [reflexivity|]. split; [auto|].
  intros t' k' H. cbn in H.
  apply in_app_or in H as [H | [H | []]]; [now left|].
  inversion H; subst. now right.
Qed.

Lemma deregisterInteractionHandler_stable (t : string) (k : Listener) (w : World) :
  stable w (deregisterInteractionHandler t k w).
Proof.
  split; [reflexivity|]. split; [reflexivity|]. split; [auto|].
  intros t' k' H. cbn in H. apply filter_In in H. now left.
Qed.

Lemma registerResizeHandler_stable (w : World) : stable w (registerResizeHandler w).
Proof. apply stable_same; reflexivity. Qed.

Lemma deregisterResizeHandler_stable (w : World) :
  stable w (deregisterResizeHandler w).
Proof. apply stable_same; reflexivity. Qed.

Lemma addEventListeners__stable (w : World) : stable w (addEventListeners_ w).
Proof.
  unfold addEventListeners_.
  eapply stable_trans; [|apply registerResizeHandler_stable].
  apply stable_fold. intros info Hinfo w0. apply stable_fold. intros k Hk w1.
  apply registerInteractionHandler_stable.
  apply in_concat. exists info. split; [assumption|]. now destruct k.
Qed.

Lemma removeEventListeners__stable (w : World) : stable w (removeEventListeners_ w).
Proof.
  unfold removeEventListeners_.
  eapply stable_trans; [|apply deregisterResizeHandler_stable].
  apply stable_fold. intros info _ w0. apply stable_fold. intros k _ w1.
  apply deregisterInteractionHandler_stable.
Qed.

Lemma removeCssVars__stable (keys : list CssVar) (w : World) :
  stable w (removeCssVars_ keys w).
Proof.
  unfold removeCssVars_. apply stable_fold. intros k _ w0. apply call_stable.
Qed.

Lemma layoutInternal__stable (numbers : Numbers float) (env : Env) (w : World) :
  stable w (layoutInternal_ numbers env w).
Proof.
  unfold layoutInternal_, updateLayoutCssVars_.
  destruct (isUnbounded env); apply stable_same; reflexivity.
Qed.

Lemma animateActivation__stable (env : Env) (w : World) :
  stable w (animateActivation_ env w).
Proof.
  unfold animateActivation_, animateUnboundedActivation_, cancel.
  cbn [fold_left].
  destruct (cancelBgBounded_ _), (cancelFgBounded_ _), (cancelFgUnbounded_ _),
    (Nat.eqb _ 0), (isUnbounded env); apply stable_same; reflexivity.
Qed.

Lemma animateDeactivation__stable (numbers : Numbers float)
    (getNormalizedEventCoords : Event -> Point -> ClientRect -> Point)
    (env : Env) (e : Event) (s : ActivationState) (w : World) :
  stable w (animateDeactivation_ numbers getNormalizedEventCoords env e s w).
Proof.
  unfold animateDeactivation_, animateUnboundedDeactivation_,
    animateBoundedDeactivation_.
  destruct (wasActivatedByPointer s || wasElementMadeActive s);
    [|apply stable_refl].
  destruct (isUnbounded env); [apply stable_same; reflexivity|].
  destruct (isPointerDeactivation (type e)); apply stable_same; reflexivity.
Qed.

Lemma layout_stable (w : World) : stable w (layout w).
Proof.
  unfold layout.
  set (w1 := if negb _ then _ else w).
  assert (H1 : stable w w1).
  { unfold w1. destruct (negb _);
      [apply stable_cancelAnimationFrame | apply stable_refl]. }
  eapply stable_trans; [exact H1|].
  eapply stable_trans;
    [apply (@stable_requestAnimationFrame LayoutFrame); discriminate|].
  apply stable_same; reflexivity.
Qed.

Lemma init_stable (env : Env) (w : World) : stable w (init env w).
Proof.
  unfold init, isSupported_. destruct (browserSupportsCssVars env); cbn [negb].
  - eapply stable_trans; [apply (call_stable BrowserSupportsCssVars)|].
    eapply stable_trans; [apply addEventListeners__stable|].
    apply stable_requestAnimationFrame. discriminate.
  - apply call_stable.
Qed.

Lemma destroy_stable (env : Env) (w : World) : stable w (destroy env w).
Proof.
  unfold destroy, isSupported_. destruct (browserSupportsCssVars env); cbn [negb].
  - eapply stable_trans; [apply (call_stable BrowserSupportsCssVars)|].
    eapply stable_trans; [apply removeEventListeners__stable|].
    apply stable_requestAnimationFrame. discriminate.
  - apply call_stable.
Qed.

(** A reset allocates a default object and keeps the others. *)
Lemma resetActivationState_invariant (w : World) :
  worldInvariant w -> worldInvariant (resetActivationState w).
Proof.
  intros (_ & I2 & I3). split; [|split].
  - exists defaultActivationState_. split.
    + apply resetActivationState_current.
    + split; [discriminate | reflexivity].
  - intros id e l H. destruct (I2 id e l H) as (s & Hs & Ha & He).
    exists s. split; [|auto]. cbn. now apply nth_error_old.
  - exact I3.
Qed.

(** The confirmation callback writes to an object that is activated, be it
    the current one or one that a reset has left behind. *)
Lemma mutate_invariant (w : World) (l : nat) (b : bool) :
  worldInvariant w -> activatedAt l w ->
  worldInvariant (mutate l (set_wasElementMadeActive b) w).
Proof.
  intros ((s & Hs & Hi) & I2 & I3) (sl & Hl & Hla & Hle). split; [|split].
  - unfold currentActivationState in *. cbn. rewrite nth_error_update.
    destruct (Nat.eqb_spec (activationState_ (this w)) l) as [E|E].
    + rewrite Hs. cbn. eexists. split; [reflexivity|].
      rewrite E, Hl in Hs. injection Hs as <-.
      split; cbn; [auto | congruence].
    + eauto.
  - intros id e k H. destruct (I2 id e k H) as (sk & Hk & Hka & Hke).
    unfold activatedAt. cbn. rewrite nth_error_update. destruct (Nat.eqb k l).
    + rewrite Hk. cbn. eexists. split; [reflexivity|]. cbn. auto.
    + eauto.
  - exact I3.
Qed.

Lemma activate__invariant (env : Env) (e : Event) (w : World) :
  worldInvariant w -> worldInvariant (activate_ env e w).
Proof.
  intros I. pose proof I as ((s & Hs & Hi) & I2 & I3). unfold activate_. cbn zeta.
  unfold currentActivationState in Hs. rewrite Hs.
  destruct (isActivated s) eqn:Ha; [assumption|].
  set (s' := fun s0 : ActivationState => _).
  split; [|split].
  - unfold currentActivationState.
    cbn [requestAnimationFrame snd this set_rafQueue heap mutate set_heap].
    rewrite nth_error_update, Nat.eqb_refl, Hs. cbn. eexists.
    split; [reflexivity|]. split; cbn; discriminate.
  - intros id e1 l H. unfold activatedAt.
    cbn [requestAnimationFrame snd rafQueue set_rafQueue heap mutate set_heap] in *.
    rewrite nth_error_update.
    apply in_app_or in H as [H | [H | []]].
    + destruct (I2 id e1 l H) as (sl & Hl & Hla & Hle).
      destruct (Nat.eqb_spec l (activationState_ (this w))) as [E|E].
      * rewrite E, Hs in Hl. congruence.
      * eauto.
    + inversion H; subst. rewrite Nat.eqb_refl, Hs. cbn.
      eexists. split; [reflexivity|]. cbn. split; [reflexivity|discriminate].
  - exact I3.
Qed.

Lemma deactivate__invariant (env : Env) (e : Event) (w : World) :
  worldInvariant w -> worldInvariant (deactivate_ env e w).
Proof.
  intros I. unfold deactivate_.
  destruct (nth_error _ _) as [s|]; [|assumption].
  destruct (negb (isActivated s)); [assumption|].
  destruct (activationEvent s) as [e0|]; [|assumption].
  cbn zeta.
  set (w1 := if same_type _ _ then _ else w).
  assert (I1 : worldInvariant w1).
  { unfold w1. destruct (same_type _ _); [|assumption].
    eapply stable_invariant; [|exact I].
    apply stable_requestAnimationFrame. discriminate. }
  destruct (if wasActivatedByPointer s then _ else _);
    [now apply resetActivationState_invariant | assumption].
Qed.

Lemma confirmActivation_invariant (env : Env) (e : Event) (l : nat) (w : World) :
  worldInvariant w -> activatedAt l w ->
  worldInvariant (confirmActivation env e l w).
Proof.
  intros I A. unfold confirmActivation.
  set (p := if String.eqb (type e) "keydown" then _ else _).
  assert (Hp : worldInvariant (snd p) /\ activatedAt l (snd p)).
  { unfold p. destruct (String.eqb _ _); cbn [snd]; [|auto]. split.
    - eapply stable_invariant; [apply call_stable | exact I].
    - eapply stable_activatedAt; [apply call_stable | exact A]. }
  destruct p as [made w1]. cbn [snd] in Hp. destruct Hp as [I1 A1].
  pose proof (mutate_invariant made I1 A1) as I2.
  destruct made.
  - eapply stable_invariant; [apply animateActivation__stable | exact I2].
  - now apply resetActivationState_invariant.
Qed.

Lemma pending_In {A : Type} (id : nat) (q : list (nat * A)) (a : A) :
  pending id q = Some a -> In (id, a) q.
Proof.
  induction q as [|[i b] q IH]; cbn; [discriminate|].
  destruct (Nat.eqb_spec i id) as [->|_].
  - intros [= ->]. now left.
  - intros H. right. auto.
Qed.

Lemma constructor_invariant : worldInvariant constructor.
Proof.
  split; [|split].
  - exists defaultActivationState_. split; [reflexivity|].
    split; [discriminate | reflexivity].
  - intros id e l [].
  - intros t k [].
Qed.

Section Invariant.
Variable numbers : Numbers float.
Variable getNormalizedEventCoords : Event -> Point -> ClientRect -> Point.
Variable keys : list CssVar.

Lemma runFrameCallback_invariant (env : Env) (cb : FrameCallback) (w : World) :
  worldInvariant w ->
  (forall e l, cb = ConfirmActivation e l -> activatedAt l w) ->
  worldInvariant (runFrameCallback numbers getNormalizedEventCoords keys env cb w).
Proof.
  intros I A. destruct cb as [|e l|e s| | | |]; cbn [runFrameCallback].
  - eapply stable_invariant; [|exact I].
    eapply stable_trans; [|apply layoutInternal__stable].
    destruct (isUnbounded env); apply stable_same; reflexivity.
  - apply confirmActivation_invariant; eauto.
  - eapply stable_invariant; [apply animateDeactivation__stable | exact I].
  - eapply stable_invariant; [|exact I].
    eapply stable_trans; [|apply removeCssVars__stable].
    apply stable_same; reflexivity.
  - eapply stable_invariant; [|exact I].
    eapply stable_trans; [apply layoutInternal__stable|].
    apply stable_same; reflexivity.
  - eapply stable_invariant; [apply call_stable | exact I].
  - eapply stable_invariant; [apply call_stable | exact I].
Qed.

Lemma runFrameCallbacks_invariant (env : Env) (ids : list nat) (w : World) :
  worldInvariant w ->
  worldInvariant
    (runFrameCallbacks numbers getNormalizedEventCoords keys env ids w).
Proof.
  revert w. induction ids as [|id ids IH]; intros w I; cbn [runFrameCallbacks];
    [assumption|].
  destruct (pending id (rafQueue w)) as [cb|] eqn:P; [|auto].
  apply IH. apply runFrameCallback_invariant.
  - eapply stable_invariant; [apply stable_cancelAnimationFrame | exact I].
  - intros e l ->. apply pending_In in P.
    eapply stable_activatedAt; [apply stable_cancelAnimationFrame|].
    destruct I as (_ & I2 & _). exact (I2 id e l P).
Qed.

Lemma dispatchEvent_invariant (env : Env) (e : Event) (w : World) :
  worldInvariant w -> worldInvariant (dispatchEvent env e w).
Proof.
  unfold dispatchEvent.
  generalize (map snd (filter (fun p => String.eqb (fst p) (type e)) (handlers w))).
  intros ks. revert w. induction ks as [|k ks IH]; intros w I; cbn [fold_left];
    [assumption|].
  apply IH. destruct k; cbn [listeners_].
  - now apply activate__invariant.
  - now apply deactivate__invariant.
  - eapply stable_invariant; [|exact I].
    apply stable_requestAnimationFrame. discriminate.
  - eapply stable_invariant; [|exact I].
    apply stable_requestAnimationFrame. discriminate.
Qed.

Lemma step_invariant (env : Env) (op : Op) (w : World) :
  worldInvariant w ->
  worldInvariant (step numbers getNormalizedEventCoords keys env op w).
Proof.
  intros I. destruct op as [ | | |e| | |id]; cbn [step].
  - eapply stable_invariant; [apply init_stable | exact I].
  - eapply stable_invariant; [apply destroy_stable | exact I].
  - eapply stable_invariant; [apply layout_stable | exact I].
  - now apply dispatchEvent_invariant.
  - unfold resize. destruct (resizeHandler w); [|assumption].
    eapply stable_invariant; [apply layout_stable | exact I].
  - now apply runFrameCallbacks_invariant.
  - unfold timeout. destruct (pending id (timeouts w)); [|assumption].
    eapply stable_invariant; [|exact I]. apply stable_same; reflexivity.
Qed.

Lemma reachable_invariant (w : World) :
  reachable numbers getNormalizedEventCoords keys w -> worldInvariant w.
Proof.
  intros R. induction R as [|env op w R IH];
    [apply constructor_invariant | now apply step_invariant].
Qed.

(** C9. In every world a foundation can reach, the current activation
    state has its event whenever it is activated and is the default state
    whenever it is not, and every operation leads to such a world again. *)
Theorem activation_invariant_of_reachable :
  forall w : World,
    reachable numbers getNormalizedEventCoords keys w ->
    (exists s,
       currentActivationState w = Some s
       /\ (isActivated s = true -> activationEvent s <> None)
       /\ (isActivated s = false -> s = defaultActivationState_))
    /\ (forall env op,
          exists s',
            currentActivationState
              (step numbers getNormalizedEventCoords keys env op w) = Some s'
            /\ (isActivated s' = true -> activationEvent s' <> None)
            /\ (isActivated s' = false -> s' = defaultActivationState_)).
Proof.
  intros w R. apply reachable_invariant in R as I. split.
  - exact (proj1 I).
  - intros env op. exact (proj1 (step_invariant env op I)).
Qed.
End Invariant.

Lemma reachable_run (numbers : Numbers float)
    (getNormalizedEventCoords : Event -> Point -> ClientRect -> Point)
    (keys : list CssVar) (ops : list (Env * Op)) (w : World) :
  reachable numbers getNormalizedEventCoords keys w ->
  reachable numbers getNormalizedEventCoords keys
    (run numbers getNormalizedEventCoords keys ops w).
Proof.
  revert w. induction ops as [|[env op] ops IH]; intros w R; [exact R|].
  apply (IH (step numbers getNormalizedEventCoords keys env op w)).
  now apply reachable_step.
Qed.

Lemma activation_invariant_of_reachable_witness :
  exists s,
    currentActivationState
      (scenario [ (bounded_env 100 50, Init);
                  (bounded_env 100 50, Dispatch (event_at_10_10 "mousedown")) ])
    = Some s
    /\ (isActivated s = true -> activationEvent s <> None)
    /\ (isActivated s = false -> s = defaultActivationState_).
Proof.
  refine (proj1 (activation_invariant_of_reachable _)).
  apply reachable_run. apply reachable_new.
Defined.

(** ** Focus and blur *)

Lemma listenerInfos_focus (k : Listener) :
  In (k, "focus"%string) (List.concat listenerInfos_) -> k = L_focus.
Proof.
  cbn. intros H.
  repeat (destruct H as [H|H]; [inversion H; reflexivity || discriminate|]).
  destruct H.
Qed.

Lemma listenerInfos_blur (k : Listener) :
  In (k, "blur"%string) (List.concat listenerInfos_) -> k = L_blur.
Proof.
  cbn. intros H.
  repeat (destruct H as [H|H]; [inversion H; reflexivity || discriminate|]).
  destruct H.
Qed.

Lemma listenerInfos_deactivate (t : string) :
  In (L_deactivate, t) (List.concat listenerInfos_) ->
  t <> "blur"%string /\ t <> "focus"%string.
Proof.
  cbn. intros H.
  repeat (destruct H as [H|H];
          [inversion H; subst; split; discriminate|]).
  destruct H.
Qed.

Lemma listenerInfos_activate (t : string) :
  In (L_activate, t) (List.concat listenerInfos_) ->
  t <> "blur"%string /\ t <> "focus"%string.
Proof.
  cbn. intros H.
  repeat (destruct H as [H|H];
          [inversion H; subst; split; discriminate|]).
  destruct H.
Qed.

(** Listeners that only request a frame callback [cb] leave everything but
    the pending frame callbacks as it is. *)
Lemma fold_request_frame (env : Env) (e : Event) (k0 : Listener)
    (cb : FrameCallback) (ks : list Listener) (w : World) :
  (forall w0, listeners_ env k0 e w0 = snd (requestAnimationFrame cb w0)) ->
  (forall k, In k ks -> k = k0) ->
  let w' := fold_left (fun w k => listeners_ env k e w) ks w in
  this w' = this w /\ heap w' = heap w /\ log w' = log w
  /\ timeouts w' = timeouts w /\ handlers w' = handlers w
  /\ onlyAdds cb (rafQueue w) (rafQueue w').
Proof.
  intros Hk0. revert w. induction ks as [|k ks IH]; intros w Hks; cbn [fold_left].
  - do 5 (split; [reflexivity|]). intros p Hp. now left.
  - assert (k = k0) as -> by (apply Hks; now left).
    cbn zeta. rewrite Hk0.
    destruct (IH (snd (requestAnimationFrame cb w)))
      as (H1 & H2 & H3 & H4 & H5 & H6).
    { intros k Hk. apply Hks. now right. }
    do 5 (split; [assumption|]).
    intros p Hp. destruct (H6 p Hp) as [Hq | Hq]; [|now right].
    cbn in Hq. apply in_app_or in Hq as [Hq | [<- | []]]; [now left | now right].
Qed.

Section FocusBlur.
Variable numbers : Numbers float.
Variable getNormalizedEventCoords : Event -> Point -> ClientRect -> Point.
Variable keys : list CssVar.

(** C10. In every world a foundation can reach, a focus or a blur event
    reaches no handler but [listeners_.focus] or [listeners_.blur]: its
    dispatch leaves [this], the activation-state objects, the calls made
    and the timers as they are and at most requests frame callbacks that
    add, or remove, the background-active marker and do nothing else.  No
    deactivation handler is registered for blur and no activation handler
    for focus, so [deactivate_] never looks up the blur row of the pairing
    table. *)
Theorem focus_blur_outside_state_machine :
  forall w : World,
    reachable numbers getNormalizedEventCoords keys w ->
    (forall t, In (t, L_deactivate) (handlers w) -> t <> "blur"%string)
    /\ (forall t, In (t, L_activate) (handlers w) -> t <> "focus"%string)
    /\ (forall env e,
          type e = "focus"%string \/ type e = "blur"%string ->
          let w' := dispatchEvent env e w in
          let cb := if String.eqb (type e) "focus" then FocusFrame else BlurFrame in
          this w' = this w /\ heap w' = heap w /\ log w' = log w
          /\ timeouts w' = timeouts w /\ handlers w' = handlers w
          /\ onlyAdds cb (rafQueue w) (rafQueue w'))
    /\ (forall env w0,
          runFrameCallback numbers getNormalizedEventCoords keys env FocusFrame w0
          = call (AddClass BG_ACTIVE) w0
          /\ runFrameCallback numbers getNormalizedEventCoords keys env BlurFrame w0
             = call (RemoveClass BG_ACTIVE) w0).
Proof.
  intros w R. apply reachable_invariant in R as (_ & _ & I3).
  split; [|split; [|split]].
  - intros t H. apply I3 in H. now apply listenerInfos_deactivate in H.
  - intros t H. apply I3 in H. now apply listenerInfos_activate in H.
  - intros env e Ht w' cb. unfold w', dispatchEvent.
    destruct Ht as [Ht | Ht]; unfold cb; rewrite Ht; cbn [String.eqb Ascii.eqb Bool.eqb].
    + apply (fold_request_frame env e (k0 := L_focus)); [reflexivity|].
      intros k Hk. apply in_map_iff in Hk as ([t k'] & <- & Hk).
      apply filter_In in Hk as [Hk Et]. cbn [fst snd] in *.
      apply String.eqb_eq in Et. subst t.
      apply listenerInfos_focus. now apply I3.
    + apply (fold_request_frame env e (k0 := L_blur)); [reflexivity|].
      intros k Hk. apply in_map_iff in Hk as ([t k'] & <- & Hk).
      apply filter_In in Hk as [Hk Et]. cbn [fst snd] in *.
      apply String.eqb_eq in Et. subst t.
      apply listenerInfos_blur. now apply I3.
  - intros env w0. split; reflexivity.
Qed.
End FocusBlur.

Lemma focus_blur_outside_state_machine_witness :
  heap (dispatchEvent (bounded_env 100 50) (event_at_10_10 "blur")
          (scenario [ (bounded_env 100 50, Init);
                      (bounded_env 100 50, Dispatch (event_at_10_10 "keydown")) ]))
  = heap (scenario [ (bounded_env 100 50, Init);
                     (bounded_env 100 50, Dispatch (event_at_10_10 "keydown")) ]).
Proof.
  refine (proj1 (proj2 (proj1 (proj2 (proj2
            (focus_blur_outside_state_machine _)))
            (bounded_env 100 50) (event_at_10_10 "blur") (or_intror eq_refl)))).
  apply reachable_run. apply reachable_new.
Defined.

(** ** The timing estimator *)

Section TimingLaws.
Context {num : Type} {N : JSNumber num} {L : JSNumberLaws num}.
Variable numbers : Numbers num.
Local Open Scope js_scope.

Hypothesis active_pos :
  (num_of_Z 0 <? ACTIVE_OPACITY_DURATION_MS numbers) = true.
Hypothesis active_finite :
  num_isFinite (ACTIVE_OPACITY_DURATION_MS numbers) = true.
Hypothesis divisor_pos :
  (num_of_Z 0 <? OPACITY_DURATION_DIVISOR numbers) = true.
Hypothesis divisor_finite :
  num_isFinite (OPACITY_DURATION_DIVISOR numbers) = true.
Hypothesis min_number :
  (MIN_OPACITY_DURATION_MS numbers <=? MIN_OPACITY_DURATION_MS numbers) = true.

Lemma approxOpacity_monotone (e1 e2 : num) :
  (e1 <=? e2) = true ->
  (approxOpacity_at numbers e1 <=? approxOpacity_at numbers e2) = true.
Proof.
  intros H. unfold approxOpacity_at.
  pose proof (div_mono e1 e2 _ active_pos active_finite H) as Hd.
  apply min_glb.
  - eapply le_trans; [|exact Hd].
    apply min_le_l; [exact (le_refl_l _ _ Hd) | apply one_number].
  - apply min_le_r; [exact (le_refl_l _ _ Hd) | apply one_number].
Qed.

Lemma scaled_opacity_monotone (a1 a2 : num) :
  (a1 <=? a2) = true ->
  (num_of_Z 1000 * a1 / OPACITY_DURATION_DIVISOR numbers
   <=? num_of_Z 1000 * a2 / OPACITY_DURATION_DIVISOR numbers) = true.
Proof.
  intros H. apply div_mono; [exact divisor_pos | exact divisor_finite |].
  apply mul_mono; [exact (proj1 thousand_pos) | exact (proj2 thousand_pos) | exact H].
Qed.

Lemma opacityDuration_monotone (e1 e2 : num) :
  (e1 <=? e2) = true ->
  (opacityDuration_at numbers e1 <=? opacityDuration_at numbers e2) = true.
Proof.
  intros H. unfold opacityDuration_at.
  pose proof (scaled_opacity_monotone _ _ (approxOpacity_monotone _ _ H)) as Hs.
  apply max_lub.
  - apply max_le_l; [exact min_number | exact (le_refl_r _ _ Hs)].
  - eapply le_trans; [exact Hs|].
    apply max_le_r; [exact min_number | exact (le_refl_r _ _ Hs)].
Qed.

Lemma approxOpacity_saturates (e : num) :
  (ACTIVE_OPACITY_DURATION_MS numbers <=? e) = true ->
  (approxOpacity_at numbers e <=? num_of_Z 1) = true
  /\ (num_of_Z 1 <=? approxOpacity_at numbers e) = true.
Proof.
  intros H. unfold approxOpacity_at.
  pose proof (div_mono _ _ _ active_pos active_finite H) as Hd.
  split.
  - apply min_le_r; [exact (le_refl_r _ _ Hd) | apply one_number].
  - apply min_glb; [|apply one_number].
    eapply le_trans; [|exact Hd]. now apply div_self.
Qed.

Lemma opacityDuration_floor (e : num) :
  (e <=? e) = true ->
  (MIN_OPACITY_DURATION_MS numbers <=? opacityDuration_at numbers e) = true.
Proof.
  intros H. unfold opacityDuration_at.
  apply max_le_l; [exact min_number|].
  exact (le_refl_l _ _ (scaled_opacity_monotone _ _ (approxOpacity_monotone _ _ H))).
Qed.

End TimingLaws.

(** Binary64 satisfies the laws. *)
Lemma JSNumberLaws_float : JSNumberLaws float.
Proof.
  split; cbn [num_le num_lt num_of_Z num_div num_mul num_isFinite Math_min
              Math_max JSNumber_float].
  - exact float_le_trans.
  - intros x y H. apply leb_value in H as (Nx & _). now apply float_le_refl.
  - intros x y H. apply leb_value in H as (_ & Ny & _). now apply float_le_refl.
  - vm_compute. reflexivity.
  - split; vm_compute; reflexivity.
  - intros x y Hx Hy. apply leb_value in Hx as (Nx & _), Hy as (Ny & _).
    destruct (@F64_min_cases x y Nx Ny) as [[-> H]|[-> H]]; apply leb_value;
      (split; [assumption|split; [assumption|lia]]).
  - intros x y Hx Hy. apply leb_value in Hx as (Nx & _), Hy as (Ny & _).
    destruct (@F64_min_cases x y Nx Ny) as [[-> H]|[-> H]]; apply leb_value;
      (split; [assumption|split; [assumption|lia]]).
  - intros x y z Hx Hy.
    assert (Nx : Prim2SF x <> S754_nan) by (apply leb_value in Hx; tauto).
    assert (Ny : Prim2SF y <> S754_nan) by (apply leb_value in Hy; tauto).
    now destruct (@F64_min_cases x y Nx Ny) as [[-> _]|[-> _]].
  - intros x y Hx Hy. apply leb_value in Hx as (Nx & _), Hy as (Ny & _).
    destruct (@F64_max_cases x y Nx Ny) as [[-> H]|[-> H]]; apply leb_value;
      (split; [assumption|split; [assumption|lia]]).
  - intros x y Hx Hy. apply leb_value in Hx as (Nx & _), Hy as (Ny & _).
    destruct (@F64_max_cases x y Nx Ny) as [[-> H]|[-> H]]; apply leb_value;
      (split; [assumption|split; [assumption|lia]]).
  - intros x y z Hx Hy.
    assert (Nx : Prim2SF x <> S754_nan) by (apply leb_value in Hx; tauto).
    assert (Ny : Prim2SF y <> S754_nan) by (apply leb_value in Hy; tauto).
    now destruct (@F64_max_cases x y Nx Ny) as [[-> _]|[-> _]].
  - intros x y a. apply float_div_mono.
  - intros a Ha Hf. change (F64.of_Z 0) with 0%float in Ha.
    rewrite (float_div_self Ha Hf). vm_compute. reflexivity.
  - intros c x y. apply float_mul_mono.
Qed.

(** C7. On binary64, with a positive finite active-opacity duration and
    divisor and a minimum that is a number: [approxOpacity] and
    [opacityDuration] do not decrease when the elapsed time grows,
    [approxOpacity] is 1 once the elapsed time has reached the
    active-opacity duration, and [opacityDuration] is at least the minimum
    opacity duration for every elapsed time that is a number.  The
    estimator returns that [opacityDuration] for the elapsed time
    [Date.now() - activationStartTime], whatever the scale and the
    transform duration. *)
Theorem unbounded_deactivation_timing :
  forall numbers : Numbers float,
    (0 <? ACTIVE_OPACITY_DURATION_MS numbers)%float = true ->
    is_finite (ACTIVE_OPACITY_DURATION_MS numbers) = true ->
    (0 <? OPACITY_DURATION_DIVISOR numbers)%float = true ->
    is_finite (OPACITY_DURATION_DIVISOR numbers) = true ->
    is_nan (MIN_OPACITY_DURATION_MS numbers) = false ->
    (forall e1 e2 : float,
        (e1 <=? e2)%float = true ->
        (approxOpacity_at numbers e1 <=? approxOpacity_at numbers e2)%float
        = true
        /\ (opacityDuration_at numbers e1 <=? opacityDuration_at numbers e2)%float
           = true)
    /\ (forall e : float,
          (ACTIVE_OPACITY_DURATION_MS numbers <=? e)%float = true ->
          approxOpacity_at numbers e = 1%float)
    /\ (forall e : float,
          is_nan e = false ->
          (MIN_OPACITY_DURATION_MS numbers <=? opacityDuration_at numbers e)%float
          = true)
    /\ (forall xfDuration_ fgScale_ now activationStartTime : float,
          opacityDuration
            (getUnboundedDeactivationInfo_ numbers xfDuration_ fgScale_ now
               activationStartTime)
          = opacityDuration_at numbers (now - activationStartTime)%float).
Proof.
  intros numbers Ha Hfa Hd Hfd Hm.
  assert (Hm' : (MIN_OPACITY_DURATION_MS numbers
                 <=? MIN_OPACITY_DURATION_MS numbers)%float = true)
    by (apply float_le_refl; now apply is_nan_value).
  split; [|split; [|split]].
  - intros e1 e2 H. split.
    + exact (@approxOpacity_monotone float _ JSNumberLaws_float numbers
               Ha Hfa e1 e2 H).
    + exact (@opacityDuration_monotone float _ JSNumberLaws_float numbers
               Ha Hfa Hd Hfd Hm' e1 e2 H).
  - intros e H.
    destruct (@approxOpacity_saturates float _ JSNumberLaws_float numbers
                Ha Hfa e H) as [H1 H2].
    now apply float_le_antisym_one.
  - intros e He.
    apply (@opacityDuration_floor float _ JSNumberLaws_float numbers
             Ha Hfa Hd Hfd Hm' e).
    apply float_le_refl. now apply is_nan_value.
  - reflexivity.
Qed.

Lemma unbounded_deactivation_timing_witness :
  (opacityDuration_at scenario_numbers 50 <=? opacityDuration_at scenario_numbers 100)%float
  = true.
Proof.
  exact (proj2 (proj1 (unbounded_deactivation_timing scenario_numbers
                         eq_refl eq_refl eq_refl eq_refl eq_refl)
                  50%float 100%float eq_refl)).
Defined.

(** The estimator on binary64, with the sample constants: after 0, 50, 110
    and 500 ms the fade lasts 200, 200, 1000/3 and 1000/3 ms, and the scale
    reached is 0, 0, a tenth of the final scale and the final scale. *)
Example estimator_on_binary64 :
  map (fun now : float =>
         let info :=
           getUnboundedDeactivationInfo_ scenario_numbers 300%float 4%float
             now 0%float in
         (opacityDuration info, approxCurScale info))
      [0; 50; 110; 500]%float
  = [(200, 0); (200, 0); (1000 / 3, (110 - 80) / 300 * 4); (1000 / 3, 4)]%float.
Proof. vm_compute. reflexivity. Qed.

(** The same facts computed, with the sample constants, for every whole
    number of milliseconds up to a second. *)
Example timing_on_binary64_up_to_a_second :
  nondecreasing (map (approxOpacity_at scenario_numbers) (milliseconds 1000)) = true
  /\ nondecreasing (map (opacityDuration_at scenario_numbers) (milliseconds 1000))
     = true
  /\ forallb (fun e => (approxOpacity_at scenario_numbers e =? 1)%float)
             (skipn 110 (milliseconds 1000)) = true
  /\ forallb (fun e => (200 <=? opacityDuration_at scenario_numbers e)%float)
             (milliseconds 1000) = true.
Proof. repeat split; vm_compute; reflexivity. Qed.

(** * Further properties *)

(** ** An environment without the required feature *)

Lemma dormant_fields (n : nat) :
  this (dormant n) = this constructor /\ heap (dormant n) = heap constructor
  /\ rafQueue (dormant n) = [] /\ timeouts (dormant n) = []
  /\ handlers (dormant n) = [] /\ resizeHandler (dormant n) = false.
Proof.
  induction n as [|n IH]; [repeat split|]. exact IH.
Qed.

Section Unsupported.
Variable numbers : Numbers float.
Variable getNormalizedEventCoords : Event -> Point -> ClientRect -> Point.
Variable keys : list CssVar.

Lemma step_dormant (env : Env) (op : Op) (n : nat) :
  browserSupportsCssVars env = false -> op <> Layout ->
  step numbers getNormalizedEventCoords keys env op (dormant n)
  = dormant (lifecycleCalls [(env, op)] + n).
Proof.
  intros Hs Hop.
  destruct (dormant_fields n) as (_ & _ & Hq & Ht & Hh & Hr).
  destruct op as [ | | |e| | |id]; cbn [step lifecycleCalls Nat.add].
  - unfold init, isSupported_. rewrite Hs. reflexivity.
  - unfold destroy, isSupported_. rewrite Hs. reflexivity.
  - now destruct Hop.
  - unfold dispatchEvent. rewrite Hh. reflexivity.
  - unfold resize. now rewrite Hr.
  - unfold animationFrame. rewrite Hq. reflexivity.
  - unfold timeout. rewrite Ht. reflexivity.
Qed.

(** X1. On an environment that lacks the required feature, whatever is
    initialized, torn down, dispatched, resized, run as a frame or expired
    leaves a new foundation as it was constructed: no handler registered,
    no frame callback or timeout pending, no field changed.  The only calls
    on the adapter are the capability queries of [init] and [destroy]. *)
Theorem unsupported_environment_is_inert :
  forall (ops : list (Env * Op)),
    unsupportedOps ops ->
    run numbers getNormalizedEventCoords keys ops constructor
    = dormant (lifecycleCalls ops).
Proof.
  intros ops H.
  assert (G : forall n,
             run numbers getNormalizedEventCoords keys ops (dormant n)
             = dormant (lifecycleCalls ops + n)).
  { induction H as [|[env op] ops [Hs Hop] H IH]; intros n; [reflexivity|].
    change (run numbers getNormalizedEventCoords keys ((env, op) :: ops) (dormant n))
      with (run numbers getNormalizedEventCoords keys ops
              (step numbers getNormalizedEventCoords keys env op (dormant n))).
    cbn [fst snd] in Hs, Hop. rewrite (@step_dormant env op n Hs Hop), IH. f_equal.
    destruct op; cbn [lifecycleCalls]; lia. }
  rewrite <- (Nat.add_0_r (lifecycleCalls ops)). exact (G 0%nat).
Qed.
End Unsupported.

Lemma unsupported_environment_is_inert_witness :
  scenario [ (unsupported_env, Init);
             (unsupported_env, Dispatch (event_at_10_10 "mousedown"));
             (unsupported_env, AnimationFrame);
             (unsupported_env, Destroy) ]
  = dormant 2.
Proof.
  apply (unsupported_environment_is_inert scenario_numbers page_coords
           scenario_VAR_keys).
  repeat constructor; discriminate.
Defined.

(** ** The frame queue *)

Lemma queueStable_refl (w : World) : queueStable w w.
Proof. repeat split. Qed.

Lemma queueStable_trans (w1 w2 w3 : World) :
  queueStable w1 w2 -> queueStable w2 w3 -> queueStable w1 w3.
Proof.
  intros (H1 & H2 & H3) (K1 & K2 & K3). repeat split; congruence.
Qed.

Lemma queueStable_fold {A : Type} (f : World -> A -> World) (l : list A)
    (w : World) :
  (forall a w, queueStable w (f w a)) -> queueStable w (fold_left f l w).
Proof.
  intros H. revert w. induction l as [|a l IH]; intros w; cbn [fold_left].
  - apply queueStable_refl.
  - eapply queueStable_trans; [apply H | apply IH].
Qed.

Lemma call_queueStable (c : Call) (w : World) : queueStable w (call c w).
Proof. repeat split. Qed.

Lemma registerInteractionHandler_queueStable (t : string) (k : Listener)
    (w : World) :
  queueStable w (registerInteractionHandler t k w).
Proof.
  unfold registerInteractionHandler. destruct (existsb _ _); repeat split.
Qed.

Lemma deregisterInteractionHandler_queueStable (t : string) (k : Listener)
    (w : World) :
  queueStable w (deregisterInteractionHandler t k w).
Proof. repeat split. Qed.

Lemma registerResizeHandler_queueStable (w : World) :
  queueStable w (registerResizeHandler w).
Proof. repeat split. Qed.

Lemma deregisterResizeHandler_queueStable (w : World) :
  queueStable w (deregisterResizeHandler w).
Proof. repeat split. Qed.

Lemma addEventListeners__queueStable (w : World) :
  queueStable w (addEventListeners_ w).
Proof.
  unfold addEventListeners_.
  eapply queueStable_trans; [|apply registerResizeHandler_queueStable].
  apply queueStable_fold. intros info w0. apply queueStable_fold. intros k w1.
  apply registerInteractionHandler_queueStable.
Qed.

Lemma removeEventListeners__queueStable (w : World) :
  queueStable w (removeEventListeners_ w).
Proof.
  unfold removeEventListeners_.
  eapply queueStable_trans; [|apply deregisterResizeHandler_queueStable].
  apply queueStable_fold. intros info w0. apply queueStable_fold. intros k w1.
  apply deregisterInteractionHandler_queueStable.
Qed.

Lemma removeCssVars__queueStable (keys : list CssVar) (w : World) :
  queueStable w (removeCssVars_ keys w).
Proof.
  unfold removeCssVars_. apply queueStable_fold. intros k w0.
  apply call_queueStable.
Qed.

Lemma layoutInternal__queueStable (numbers : Numbers float) (env : Env)
    (w : World) :
  queueStable w (layoutInternal_ numbers env w).
Proof.
  unfold layoutInternal_, updateLayoutCssVars_.
  destruct (isUnbounded env); repeat split.
Qed.

Lemma animateActivation__queueStable (env : Env) (w : World) :
  queueStable w (animateActivation_ env w).
Proof.
  unfold animateActivation_, animateUnboundedActivation_, cancel.
  cbn [fold_left].
  destruct (cancelBgBounded_ _), (cancelFgBounded_ _), (cancelFgUnbounded_ _),
    (Nat.eqb _ 0), (isUnbounded env); repeat split.
Qed.

Lemma animateDeactivation__queueStable (numbers : Numbers float)
    (getNormalizedEventCoords : Event -> Point -> ClientRect -> Point)
    (env : Env) (e : Event) (s : ActivationState) (w : World) :
  queueStable w (animateDeactivation_ numbers getNormalizedEventCoords env e s w).
Proof.
  unfold animateDeactivation_, animateUnboundedDeactivation_,
    animateBoundedDeactivation_.
  destruct (wasActivatedByPointer s || wasElementMadeActive s);
    [|apply queueStable_refl].
  destruct (isUnbounded env); [repeat split|].
  destruct (isPointerDeactivation (type e)); repeat split.
Qed.

Lemma confirmActivation_queueStable (env : Env) (e : Event) (l : nat)
    (w : World) :
  queueStable w (confirmActivation env e l w).
Proof.
  unfold confirmActivation.
  destruct (String.eqb (type e) "keydown"), (isSurfaceActive env);
    try (eapply queueStable_trans; [|apply animateActivation__queueStable]);
    repeat split.
Qed.

Section FrameQueue.
Variable numbers : Numbers float.
Variable getNormalizedEventCoords : Event -> Point -> ClientRect -> Point.
Variable keys : list CssVar.

(** No frame callback requests or cancels a frame; only the layout
    callback touches [layoutFrame_], which it clears. *)
Lemma runFrameCallback_queue (env : Env) (cb : FrameCallback) (w : World) :
  let w' := runFrameCallback numbers getNormalizedEventCoords keys env cb w in
  rafQueue w' = rafQueue w /\ nextFrameId w' = nextFrameId w
  /\ layoutFrame_ (this w')
     = if isLayoutFrame cb then 0%nat else layoutFrame_ (this w).
Proof.
  destruct cb as [|e l|e s| | | |]; cbn [runFrameCallback isLayoutFrame].
  - apply (@queueStable_trans w
             (if isUnbounded env
              then call (AddClass UNBOUNDED) (call IsUnbounded (call (AddClass ROOT) w))
              else call IsUnbounded (call (AddClass ROOT) w))).
    + destruct (isUnbounded env); repeat split.
    + apply layoutInternal__queueStable.
  - apply confirmActivation_queueStable.
  - apply animateDeactivation__queueStable.
  - apply (@queueStable_trans w (call (RemoveClass UNBOUNDED) (call (RemoveClass ROOT) w)));
      [repeat split | apply removeCssVars__queueStable].
  - destruct (layoutInternal__queueStable numbers env w) as (H1 & H2 & _).
    repeat split; assumption.
  - repeat split.
  - repeat split.
Qed.

Lemma pending_filter_same {A : Type} (id : nat) (q : list (nat * A)) :
  pending id (filter (fun p => negb (Nat.eqb (fst p) id)) q) = None.
Proof.
  induction q as [|[i a] q IH]; cbn; [reflexivity|].
  destruct (Nat.eqb i id) eqn:E; cbn; [assumption|]. now rewrite E.
Qed.

Lemma pending_filter_other {A : Type} (id id' : nat) (q : list (nat * A)) :
  id' <> id ->
  pending id' (filter (fun p => negb (Nat.eqb (fst p) id)) q) = pending id' q.
Proof.
  intros H. induction q as [|[i a] q IH]; cbn; [reflexivity|].
  destruct (Nat.eqb_spec i id) as [->|Hi]; cbn.
  - destruct (Nat.eqb_spec id id'); [congruence|assumption].
  - now rewrite IH.
Qed.

Lemma pending_None_filter {A : Type} (id : nat) (q : list (nat * A)) :
  pending id q = None -> filter (fun p => negb (Nat.eqb (fst p) id)) q = q.
Proof.
  induction q as [|[i a] q IH]; cbn; [reflexivity|].
  destruct (Nat.eqb i id); cbn; [discriminate|]. intros H. now rewrite IH.
Qed.

Lemma runFrameCallbacks_queue (env : Env) (ids : list nat) (w : World) :
  rafQueue (runFrameCallbacks numbers getNormalizedEventCoords keys env ids w)
  = filter (fun p => negb (existsb (Nat.eqb (fst p)) ids)) (rafQueue w).
Proof.
  revert w. induction ids as [|id ids IH]; intros w; cbn [runFrameCallbacks existsb].
  - symmetry. generalize (rafQueue w) as q.
    induction q as [|p q IHq]; [reflexivity|].
    cbn. f_equal. exact IHq.
  - assert (E : forall q : list (nat * FrameCallback),
               filter (fun p => negb (existsb (Nat.eqb (fst p)) ids))
                      (filter (fun p => negb (Nat.eqb (fst p) id)) q)
               = filter (fun p => negb (Nat.eqb (fst p) id
                                        || existsb (Nat.eqb (fst p)) ids)) q).
    { induction q as [|p q IHq]; cbn; [reflexivity|].
      destruct (Nat.eqb (fst p) id); cbn; [assumption|].
      destruct (existsb _ ids); cbn; congruence. }
    destruct (pending id (rafQueue w)) eqn:P.
    + rewrite IH.
      destruct (runFrameCallback_queue env f (cancelAnimationFrame id w)) as (-> & _).
      apply E.
    + rewrite IH, <- E. now rewrite (pending_None_filter _ _ P).
Qed.

(** X2. An animation frame leaves no frame callback pending: it runs the
    callbacks that were requested before it, and none of the callbacks of
    the foundation requests or cancels a frame. *)
Theorem animation_frame_empties_queue :
  forall (env : Env) (w : World),
    rafQueue (animationFrame numbers getNormalizedEventCoords keys env w) = []
    /\ forall cb w0,
         rafQueue (runFrameCallback numbers getNormalizedEventCoords keys env cb w0)
         = rafQueue w0.
Proof.
  intros env w. split.
  - unfold animationFrame. rewrite runFrameCallbacks_queue.
    assert (F : forall (l : list (nat * FrameCallback)) (q0 : list (nat * FrameCallback)),
               (forall p0, In p0 q0 -> In (fst p0) (map fst l)) ->
               filter (fun p0 => negb (existsb (Nat.eqb (fst p0)) (map fst l))) q0 = []).
    { intros l q0. induction q0 as [|p0 q0 IH0]; intros H; cbn; [reflexivity|].
      assert (X : existsb (Nat.eqb (fst p0)) (map fst l) = true).
      { apply existsb_exists. exists (fst p0). split; [apply H; now left|].
        apply Nat.eqb_refl. }
      rewrite X. cbn. apply IH0. intros p1 H1. apply H. now right. }
    apply F. intros p0 H0. now apply in_map.
  - intros cb w0. apply runFrameCallback_queue.
Qed.

(** *** Coalesced layout *)

Lemma queueStable_invariant (w w' : World) :
  queueStable w w' -> queueInvariant w -> queueInvariant w'.
Proof.
  intros (H1 & H2 & H3) I. unfold queueInvariant.
  now rewrite H1, H2, H3.
Qed.

Lemma requestAnimationFrame_queueInvariant (cb : FrameCallback) (w : World) :
  cb <> LayoutFrame ->
  queueInvariant w -> queueInvariant (snd (requestAnimationFrame cb w)).
Proof.
  intros Hcb (Hn & I1 & I2 & I3). split; [|split; [|split]]; cbn.
  - lia.
  - intros id c H. apply in_app_or in H as [H | [H | []]].
    + apply I1 in H. lia.
    + inversion H; subst. lia.
  - rewrite map_app. cbn. apply NoDup_app; [assumption | repeat constructor; auto |].
    intros i Hi [E | []]. apply in_map_iff in Hi as ([j c] & Ej & Hi).
    apply I1 in Hi. cbn in Ej. lia.
  - intros id H. apply in_app_or in H as [H | [H | []]]; [now apply I3|].
    inversion H; congruence.
Qed.

Lemma NoDup_map_fst_filter {A : Type} (f : nat * A -> bool)
    (q : list (nat * A)) :
  NoDup (map fst q) -> NoDup (map fst (filter f q)).
Proof.
  induction q as [|p q IH]; cbn; [constructor|].
  intros I. inversion I as [|? ? Hn Hd]; subst.
  destruct (f p); cbn; [|now apply IH].
  constructor; [|now apply IH]. intros Hin. apply Hn.
  apply in_map_iff in Hin as (p' & E & Hp). apply filter_In in Hp as [Hp _].
  rewrite <- E. now apply in_map.
Qed.

Lemma cancelAnimationFrame_queueInvariant (id : nat) (w : World) :
  queueInvariant w -> queueInvariant (cancelAnimationFrame id w).
Proof.
  intros (Hn & I1 & I2 & I3). split; [|split; [|split]]; cbn.
  - assumption.
  - intros i c H. apply filter_In in H as [H _]. now apply I1 in H.
  - now apply NoDup_map_fst_filter.
  - intros i H. apply filter_In in H as [H _]. now apply I3.
Qed.

Lemma layout_queueInvariant (w : World) :
  queueInvariant w -> queueInvariant (layout w).
Proof.
  intros I. unfold layout.
  set (w1 := if negb _ then _ else w).
  assert (I1 : queueInvariant w1
               /\ (forall id, ~ In (id, LayoutFrame) (rafQueue w1))).
  { unfold w1. destruct (Nat.eqb_spec (layoutFrame_ (this w)) 0) as [E|E]; cbn [negb].
    - split; [assumption|]. intros id H. destruct I as (_ & Ia & _ & Ic).
      apply Ic in H as H'. apply Ia in H. lia.
    - split; [now apply cancelAnimationFrame_queueInvariant|].
      intros id H. cbn in H. apply filter_In in H as [H Hid].
      destruct I as (_ & _ & _ & Ic). apply Ic in H. cbn in Hid.
      rewrite H, Nat.eqb_refl in Hid. discriminate. }
  destruct I1 as ((Hn & Ia & Ib & _) & Hno).
  cbn [requestAnimationFrame]. split; [|split; [|split]]; cbn.
  - lia.
  - intros id c H. apply in_app_or in H as [H | [H | []]].
    + apply Ia in H. lia.
    + inversion H; subst. lia.
  - rewrite map_app. cbn. apply NoDup_app; [assumption | repeat constructor; auto |].
    intros i Hi [E | []]. apply in_map_iff in Hi as ([j c] & Ej & Hi).
    apply Ia in Hi. cbn in Ej. lia.
  - intros id H. apply in_app_or in H as [H | [H | []]].
    + now apply Hno in H.
    + now inversion H.
Qed.

Lemma activate__queueInvariant (env : Env) (e : Event) (w : World) :
  queueInvariant w -> queueInvariant (activate_ env e w).
Proof.
  intros I. unfold activate_. cbn zeta.
  destruct (nth_error _ _) as [s|]; [|assumption].
  destruct (isActivated s); [assumption|].
  apply requestAnimationFrame_queueInvariant; [discriminate|].
  eapply queueStable_invariant; [|exact I]. repeat split.
Qed.

Lemma deactivate__queueInvariant (env : Env) (e : Event) (w : World) :
  queueInvariant w -> queueInvariant (deactivate_ env e w).
Proof.
  intros I. unfold deactivate_.
  destruct (nth_error _ _) as [s|]; [|assumption].
  destruct (negb (isActivated s)); [assumption|].
  destruct (activationEvent s) as [e0|]; [|assumption].
  cbn zeta.
  set (w1 := if same_type _ _ then _ else w).
  assert (I1 : queueInvariant w1).
  { unfold w1. destruct (same_type _ _); [|assumption].
    apply requestAnimationFrame_queueInvariant; [discriminate|assumption]. }
  destruct (if wasActivatedByPointer s then _ else _); [|assumption].
  eapply queueStable_invariant; [|exact I1]. repeat split.
Qed.

Lemma dispatchEvent_queueInvariant (env : Env) (e : Event) (w : World) :
  queueInvariant w -> queueInvariant (dispatchEvent env e w).
Proof.
  unfold dispatchEvent.
  generalize (map snd (filter (fun p => String.eqb (fst p) (type e)) (handlers w))).
  intros ks. revert w. induction ks as [|k ks IH]; intros w I; cbn [fold_left];
    [assumption|].
  apply IH. destruct k; cbn [listeners_].
  - now apply activate__queueInvariant.
  - now apply deactivate__queueInvariant.
  - apply requestAnimationFrame_queueInvariant; [discriminate|assumption].
  - apply requestAnimationFrame_queueInvariant; [discriminate|assumption].
Qed.

Lemma runFrameCallbacks_queueInvariant (env : Env) (ids : list nat) (w : World) :
  queueInvariant w ->
  queueInvariant
    (runFrameCallbacks numbers getNormalizedEventCoords keys env ids w).
Proof.
  revert w. induction ids as [|id ids IH]; intros w I; cbn [runFrameCallbacks];
    [assumption|].
  destruct (pending id (rafQueue w)) as [cb|] eqn:P; [|auto].
  apply IH.
  pose proof (cancelAnimationFrame_queueInvariant id I) as (Hn & Ia & Ib & Ic).
  destruct (runFrameCallback_queue env cb (cancelAnimationFrame id w))
    as (Hq & Hi & Hl).
  unfold queueInvariant. rewrite Hq, Hi, Hl.
  split; [assumption|]. split; [assumption|]. split; [assumption|].
  destruct cb; cbn [isLayoutFrame]; try assumption.
  intros j H. exfalso. cbn in H. apply filter_In in H as [H Hj].
  apply pending_In in P. destruct I as (_ & _ & _ & I3).
  apply I3 in H. apply I3 in P. cbn in Hj.
  rewrite <- H, P, Nat.eqb_refl in Hj. discriminate.
Qed.

Lemma step_queueInvariant (env : Env) (op : Op) (w : World) :
  queueInvariant w ->
  queueInvariant (step numbers getNormalizedEventCoords keys env op w).
Proof.
  intros I. destruct op as [ | | |e| | |id]; cbn [step].
  - unfold init, isSupported_. destruct (browserSupportsCssVars env); cbn [negb].
    + apply requestAnimationFrame_queueInvariant; [discriminate|].
      eapply queueStable_invariant; [apply addEventListeners__queueStable|].
      eapply queueStable_invariant; [apply call_queueStable | exact I].
    + eapply queueStable_invariant; [apply call_queueStable | exact I].
  - unfold destroy, isSupported_. destruct (browserSupportsCssVars env); cbn [negb].
    + apply requestAnimationFrame_queueInvariant; [discriminate|].
      eapply queueStable_invariant; [apply removeEventListeners__queueStable|].
      eapply queueStable_invariant; [apply call_queueStable | exact I].
    + eapply queueStable_invariant; [apply call_queueStable | exact I].
  - now apply layout_queueInvariant.
  - now apply dispatchEvent_queueInvariant.
  - unfold resize. destruct (resizeHandler w); [|assumption].
    now apply layout_queueInvariant.
  - now apply runFrameCallbacks_queueInvariant.
  - unfold timeout. destruct (pending id (timeouts w)); [|assumption].
    eapply queueStable_invariant; [|exact I]. repeat split.
Qed.

Lemma reachable_queueInvariant (w : World) :
  reachable numbers getNormalizedEventCoords keys w -> queueInvariant w.
Proof.
  intros R. induction R as [|env op w R IH]; [|now apply step_queueInvariant].
  split; [cbn; lia|]. split; [intros id cb []|]. split; [constructor|].
  intros id [].
Qed.

Lemma one_layout_frame (q : list (nat * FrameCallback)) (i : nat) :
  NoDup (map fst q) ->
  (forall id, In (id, LayoutFrame) q -> i = id) ->
  (List.length (filter (fun p => isLayoutFrame (snd p)) q) <= 1)%nat.
Proof.
  induction q as [|[j cb] q IH]; cbn [map filter fst snd]; intros Hd Hi;
    [cbn; lia|].
  inversion Hd as [|? ? Hn Hd']; subst.
  assert (Hi' : forall id, In (id, LayoutFrame) q -> i = id).
  { intros id H. apply Hi. now right. }
  destruct (isLayoutFrame cb) eqn:E; [|now apply IH].
  destruct cb; try discriminate.
  assert (Z : filter (fun p => isLayoutFrame (snd p)) q = []).
  { assert (Hj : i = j) by (apply Hi; now left). subst j.
    clear - Hn Hi'. induction q as [|[k c] q IHq]; [reflexivity|].
    cbn [filter snd]. destruct c; cbn [isLayoutFrame];
      try (apply IHq; [intros H; apply Hn; now right
                      | intros id H; apply Hi'; now right]).
    exfalso. apply Hn. left. cbn. symmetry. apply Hi'. now left. }
  rewrite Z. cbn. lia.
Qed.

(** X3. However often [layout] is called and resizes arrive, at most one
    layout callback is pending in any world a foundation can reach, and it
    is the one whose id [layoutFrame_] holds: a newer request replaces the
    pending one. *)
Theorem layout_is_coalesced :
  forall w : World,
    reachable numbers getNormalizedEventCoords keys w ->
    (List.length (filter (fun p => isLayoutFrame (snd p)) (rafQueue w)) <= 1)%nat
    /\ (forall id, In (id, LayoutFrame) (rafQueue w) ->
                   layoutFrame_ (this w) = id)
    /\ (List.length
          (filter (fun p => isLayoutFrame (snd p)) (rafQueue (layout w)))
        = 1)%nat.
Proof.
  intros w R. apply reachable_queueInvariant in R as I.
  pose proof I as (_ & _ & Hd & Hl).
  split; [exact (one_layout_frame _ Hd Hl)|]. split; [exact Hl|].
  pose proof (layout_queueInvariant I) as (_ & _ & Hd' & Hl').
  pose proof (one_layout_frame _ Hd' Hl') as Hle.
  assert (Hin : In (nextFrameId w, LayoutFrame) (rafQueue (layout w))).
  { unfold layout. destruct (negb _); cbn; apply in_or_app; right; now left. }
  assert (Hge : (1 <= List.length
                   (filter (fun p => isLayoutFrame (snd p)) (rafQueue (layout w))))%nat).
  { assert (Hf : In (nextFrameId w, LayoutFrame)
                   (filter (fun p => isLayoutFrame (snd p)) (rafQueue (layout w)))).
    { apply filter_In. now split. }
    destruct (filter _ _); [destruct Hf | cbn; lia]. }
  lia.
Qed.
End FrameQueue.

Lemma layout_is_coalesced_witness :
  (List.length
     (filter (fun p => isLayoutFrame (snd p))
        (rafQueue (scenario [ (bounded_env 100 50, Init);
                              (bounded_env 100 50, Layout);
                              (bounded_env 100 50, Resize);
                              (bounded_env 100 50, Layout) ]))) <= 1)%nat.
Proof.
  refine (proj1 (layout_is_coalesced _)).
  apply reachable_run. apply reachable_new.
Defined.

(** ** Registration of the listeners *)

Lemma same_handler_refl (t : string) (k : Listener) :
  same_handler t k (t, k) = true.
Proof. unfold same_handler. cbn. rewrite String.eqb_refl. now destruct k. Qed.

Lemma same_handler_eq (t : string) (k : Listener) (p : string * Listener) :
  same_handler t k p = true -> p = (t, k).
Proof.
  destruct p as [t' k']. unfold same_handler. cbn. intros H.
  apply andb_prop in H as [Ht Hk]. apply String.eqb_eq in Ht. subst t'.
  destruct k', k; congruence.
Qed.

Lemma registerInteractionHandler_In (t : string) (k : Listener) (w : World) :
  In (t, k) (handlers (registerInteractionHandler t k w))
  /\ forall p, In p (handlers w) ->
               In p (handlers (registerInteractionHandler t k w)).
Proof.
  unfold registerInteractionHandler. cbn zeta.
  destruct (existsb _ _) eqn:E; cbn.
  - split; [|auto]. apply existsb_exists in E as (p & Hp & Hs).
    apply same_handler_eq in Hs. now subst p.
  - split; [apply in_or_app; right; now left|].
    intros p Hp. apply in_or_app. now left.
Qed.

Lemma register_fold_In (info : list (Listener * string)) (w : World) :
  let w' :=
    fold_left (fun w k => registerInteractionHandler (snd k) (fst k) w) info w in
  (forall k t, In (k, t) info -> In (t, k) (handlers w'))
  /\ (forall p, In p (handlers w) -> In p (handlers w')).
Proof.
  revert w. induction info as [|[k0 t0] info IH]; intros w; cbn [fold_left fst snd].
  - split; [intros k t []|auto].
  - destruct (IH (registerInteractionHandler t0 k0 w)) as (IH1 & IH2).
    destruct (registerInteractionHandler_In t0 k0 w) as (R1 & R2).
    split.
    + intros k t [E | H]; [|now apply IH1]. inversion E; subst. now apply IH2.
    + intros p Hp. auto.
Qed.

Lemma register_all_In (infos : list (list (Listener * string))) (w : World) :
  let w' :=
    fold_left
      (fun w info =>
         fold_left (fun w k => registerInteractionHandler (snd k) (fst k) w)
                   info w) infos w in
  (forall k t, In (k, t) (List.concat infos) -> In (t, k) (handlers w'))
  /\ (forall p, In p (handlers w) -> In p (handlers w')).
Proof.
  revert w. induction infos as [|info infos IH]; intros w;
    cbn [fold_left List.concat].
  - split; [intros k t []|auto].
  - set (w1 := fold_left _ info w).
    destruct (IH w1) as (IH1 & IH2).
    destruct (register_fold_In info w) as (R1 & R2). fold w1 in R1, R2.
    split.
    + intros k t H. apply in_app_or in H as [H | H]; [|now apply IH1].
      apply IH2. now apply R1.
    + intros p Hp. auto.
Qed.

Lemma deregister_fold_In (info : list (Listener * string)) (w : World)
    (p : string * Listener) :
  In p (handlers
          (fold_left (fun w k => deregisterInteractionHandler (snd k) (fst k) w)
                     info w)) ->
  In p (handlers w)
  /\ forall k t, In (k, t) info -> same_handler t k p = false.
Proof.
  revert w. induction info as [|[k0 t0] info IH]; intros w; cbn [fold_left fst snd].
  - intros H. split; [assumption|]. intros k t [].
  - intros H. apply IH in H as (H & Hs). cbn in H.
    apply filter_In in H as [H Hn]. split; [assumption|].
    intros k t [E | Hk]; [|now apply Hs].
    inversion E; subst. now apply negb_true_iff in Hn.
Qed.

Lemma deregister_all_In (infos : list (list (Listener * string))) (w : World)
    (p : string * Listener) :
  In p (handlers
          (fold_left
             (fun w info =>
                fold_left
                  (fun w k => deregisterInteractionHandler (snd k) (fst k) w)
                  info w) infos w)) ->
  In p (handlers w)
  /\ forall k t, In (k, t) (List.concat infos) -> same_handler t k p = false.
Proof.
  revert w. induction infos as [|info infos IH]; intros w;
    cbn [fold_left List.concat].
  - intros H. split; [assumption|]. intros k t [].
  - intros H. apply IH in H as (H & Hs).
    apply deregister_fold_In in H as (H & Hs'). split; [assumption|].
    intros k t Hk. apply in_app_or in Hk as [Hk | Hk]; auto.
Qed.

Lemma fold_preserves {A B : Type} (proj : World -> B) (f : World -> A -> World)
    (l : list A) (w : World) :
  (forall a w, proj (f w a) = proj w) -> proj (fold_left f l w) = proj w.
Proof.
  intros H. revert w. induction l as [|a l IH]; intros w; cbn [fold_left];
    [reflexivity|]. now rewrite IH.
Qed.

Lemma registerResizeHandler_fields (w : World) :
  this (registerResizeHandler w) = this w
  /\ heap (registerResizeHandler w) = heap w
  /\ timeouts (registerResizeHandler w) = timeouts w
  /\ handlers (registerResizeHandler w) = handlers w
  /\ resizeHandler (registerResizeHandler w) = true.
Proof. repeat split. Qed.

Lemma deregisterResizeHandler_fields (w : World) :
  handlers (deregisterResizeHandler w) = handlers w
  /\ resizeHandler (deregisterResizeHandler w) = false.
Proof. repeat split. Qed.

Lemma requestAnimationFrame_fields (cb : FrameCallback) (w : World) :
  let w' := snd (requestAnimationFrame cb w) in
  this w' = this w /\ heap w' = heap w /\ timeouts w' = timeouts w
  /\ handlers w' = handlers w /\ resizeHandler w' = resizeHandler w
  /\ rafQueue w' = rafQueue w ++ [(nextFrameId w, cb)].
Proof. repeat split. Qed.

Lemma addEventListeners__fields (w : World) :
  this (addEventListeners_ w) = this w /\ heap (addEventListeners_ w) = heap w
  /\ timeouts (addEventListeners_ w) = timeouts w
  /\ resizeHandler (addEventListeners_ w) = true.
Proof.
  unfold addEventListeners_.
  assert (R : forall t k w0,
             this (registerInteractionHandler t k w0) = this w0
             /\ heap (registerInteractionHandler t k w0) = heap w0
             /\ timeouts (registerInteractionHandler t k w0) = timeouts w0).
  { intros t k w0. unfold registerInteractionHandler.
    destruct (existsb _ _); repeat split. }
  match goal with
  | |- context [registerResizeHandler ?x] =>
      destruct (registerResizeHandler_fields x) as (-> & -> & -> & _ & ->)
  end.
  split; [|split; [|split]].
  - apply (fold_preserves this). intros info w0.
    apply (fold_preserves this). intros k w1. apply R.
  - apply (fold_preserves heap). intros info w0.
    apply (fold_preserves heap). intros k w1. apply R.
  - apply (fold_preserves timeouts). intros info w0.
    apply (fold_preserves timeouts). intros k w1. apply R.
  - reflexivity.
Qed.

(** X4. [init] on a supporting environment registers every listener of
    [listenerInfos_] for its event type and the resize handler, and
    requests the one frame callback that adds the root marker and lays
    out; it touches neither the fields of [this] nor the activation
    state, and arms no timer. *)
Theorem init_registers_listeners :
  forall (env : Env) (w : World),
    browserSupportsCssVars env = true ->
    (forall k t, In (k, t) (List.concat listenerInfos_) ->
                 In (t, k) (handlers (init env w)))
    /\ resizeHandler (init env w) = true
    /\ rafQueue (init env w) = rafQueue w ++ [(nextFrameId w, InitFrame)]
    /\ this (init env w) = this w
    /\ heap (init env w) = heap w
    /\ timeouts (init env w) = timeouts w.
Proof.
  intros env w Hs. unfold init, isSupported_. rewrite Hs. cbn [negb].
  set (w0 := call BrowserSupportsCssVars w).
  destruct (addEventListeners__fields w0) as (Ht & Hh & Hto & Hr).
  destruct (addEventListeners__queueStable w0) as (Hq & Hn & _).
  destruct (requestAnimationFrame_fields InitFrame (addEventListeners_ w0))
    as (-> & -> & -> & -> & -> & ->).
  rewrite Ht, Hh, Hto, Hr, Hq, Hn.
  split; [|repeat split].
  intros k t H. unfold addEventListeners_.
  match goal with
  | |- context [registerResizeHandler ?x] =>
      destruct (registerResizeHandler_fields x) as (_ & _ & _ & -> & _)
  end.
  exact (proj1 (@register_all_In listenerInfos_ w0) k t H).
Qed.

Lemma init_registers_listeners_witness :
  In ("keyup"%string, L_deactivate)
     (handlers (init (bounded_env 100 50) constructor)).
Proof.
  apply (proj1 (init_registers_listeners (bounded_env 100 50) constructor
                  eq_refl)).
  cbn. tauto.
Defined.

(** X5. [destroy] on a supporting environment deregisters every listener
    of [listenerInfos_] and the resize handler, and registers nothing:
    none of the foundation's own listeners remains registered, and a
    handler that remains was registered before.  It requests the one frame
    callback that removes the markers and the style variables, cancels none
    of the pending frame callbacks and leaves the activation state
    alone. *)
Theorem destroy_removes_listeners :
  forall (env : Env) (w : World),
    browserSupportsCssVars env = true ->
    (forall k t, In (k, t) (List.concat listenerInfos_) ->
                 ~ In (t, k) (handlers (destroy env w)))
    /\ (forall p, In p (handlers (destroy env w)) -> In p (handlers w))
    /\ resizeHandler (destroy env w) = false
    /\ rafQueue (destroy env w) = rafQueue w ++ [(nextFrameId w, DestroyFrame)]
    /\ heap (destroy env w) = heap w
    /\ activationState_ (this (destroy env w)) = activationState_ (this w).
Proof.
  intros env w Hs.
  unfold destroy, isSupported_. rewrite Hs. cbn [negb].
  set (w0 := call BrowserSupportsCssVars w).
  destruct (removeEventListeners__queueStable w0) as (Hq & Hn & _).
  destruct (removeEventListeners__stable w0) as (Hh & Ha & _).
  destruct (requestAnimationFrame_fields DestroyFrame (removeEventListeners_ w0))
    as (Et & -> & _ & -> & -> & ->).
  rewrite Et, Hq, Hn, Hh, Ha.
  assert (K : forall p,
             In p (handlers (removeEventListeners_ w0)) ->
             In p (handlers w)
             /\ forall k t, In (k, t) (List.concat listenerInfos_) ->
                            same_handler t k p = false).
  { intros p H. unfold removeEventListeners_ in H.
    match type of H with
    | context [deregisterResizeHandler ?x] =>
        destruct (deregisterResizeHandler_fields x) as (E & _);
        rewrite E in H
    end.
    exact (@deregister_all_In listenerInfos_ w0 p H). }
  split; [|split; [|split; [|repeat split]]].
  - intros k t Hk Hin. destruct (K _ Hin) as (_ & Hno).
    specialize (Hno k t Hk). now rewrite same_handler_refl in Hno.
  - intros p Hp. now apply K.
  - unfold removeEventListeners_.
    match goal with
    | |- context [deregisterResizeHandler ?x] =>
        now destruct (deregisterResizeHandler_fields x) as (_ & ->)
    end.
Qed.

Lemma destroy_removes_listeners_witness :
  ~ In ("mouseup"%string, L_deactivate)
       (handlers (destroy (bounded_env 100 50)
                    (scenario [ (bounded_env 100 50, Init);
                                (bounded_env 100 50, AnimationFrame) ]))).
Proof.
  apply (proj1 (destroy_removes_listeners (bounded_env 100 50)
                  (scenario [ (bounded_env 100 50, Init);
                              (bounded_env 100 50, AnimationFrame) ])
                  eq_refl)).
  cbn. tauto.
Defined.

(** ** Events outside a cycle *)

Lemma listenerInfos_other (k : Listener) (t : string) :
  In (k, t) (List.concat listenerInfos_) ->
  ~ In t (activationTypes ++ ["focus"%string; "blur"%string])%list ->
  k = L_deactivate.
Proof.
  cbn. intros H Hn.
  repeat (destruct H as [H|H];
          [inversion H; subst; try reflexivity; exfalso; apply Hn; tauto|]).
  destruct H.
Qed.

Lemma listenerInfos_activate_types (t : string) :
  In (L_activate, t) (List.concat listenerInfos_) -> In t activationTypes.
Proof.
  cbn. intros H.
  repeat (destruct H as [H|H]; [inversion H; subst; tauto|]).
  destruct H.
Qed.

Lemma fold_identity {A : Type} (f : World -> A -> World) (l : list A) (w : World) :
  (forall a, In a l -> f w a = w) -> fold_left f l w = w.
Proof.
  induction l as [|a l IH]; intros H; cbn [fold_left]; [reflexivity|].
  rewrite (H a) by now left. apply IH. intros b Hb. apply H. now right.
Qed.

Lemma deactivationTypes_other (t : string) :
  In t deactivationTypes ->
  ~ In t (activationTypes ++ ["focus"%string; "blur"%string])%list.
Proof.
  cbn. intros H Hn.
  repeat (destruct H as [H|H];
          [subst t; repeat (destruct Hn as [Hn|Hn]; [discriminate|]);
           destruct Hn|]).
  destruct H.
Qed.

Section AtRest.
Variable numbers : Numbers float.
Variable getNormalizedEventCoords : Event -> Point -> ClientRect -> Point.
Variable keys : list CssVar.

(** X6. While no cycle is active, a release event (touchend, pointerup,
    mouseup or keyup) changes nothing at all in a world a foundation can
    reach: the only listener of the foundation for it returns at once, so a
    release without a press is tolerated and leaves no trace. *)
Theorem event_outside_cycle_is_ignored :
  forall (env : Env) (e : Event) (w : World) (s : ActivationState),
    reachable numbers getNormalizedEventCoords keys w ->
    currentActivationState w = Some s ->
    isActivated s = false ->
    In (type e) deactivationTypes ->
    dispatchEvent env e w = w.
Proof.
  intros env e w s R Hs Ha Ht. apply reachable_invariant in R as (_ & _ & I3).
  apply deactivationTypes_other in Ht.
  unfold dispatchEvent. apply fold_identity. intros k Hk.
  apply in_map_iff in Hk as ([t k'] & Ek & Hk). cbn [snd] in Ek. subst k'.
  apply filter_In in Hk as [Hk Et]. cbn [fst] in Et.
  apply String.eqb_eq in Et. subst t. apply I3 in Hk.
  rewrite (listenerInfos_other Hk Ht). cbn [listeners_].
  unfold deactivate_. unfold currentActivationState in Hs. now rewrite Hs, Ha.
Qed.
End AtRest.

Lemma event_outside_cycle_is_ignored_witness :
  dispatchEvent (bounded_env 100 50) (event_at_10_10 "mouseup")
    (scenario [ (bounded_env 100 50, Init);
                (bounded_env 100 50, AnimationFrame) ])
  = scenario [ (bounded_env 100 50, Init);
               (bounded_env 100 50, AnimationFrame) ].
Proof.
  eapply (event_outside_cycle_is_ignored (numbers := scenario_numbers)
            (getNormalizedEventCoords := page_coords)
            (keys := scenario_VAR_keys)).
  - apply reachable_run. apply reachable_new.
  - vm_compute. reflexivity.
  - reflexivity.
  - cbn. tauto.
Defined.

(** ** A key released before the next frame *)

(** X7. A key-down in a state at rest followed by the key-up before any
    frame: the two events request the confirmation and the deactivation
    callback, in this order, and leave the state at rest again.  The
    snapshot taken by the key-up is neither pointer-activated nor
    confirmed, so its deactivation callback does nothing, whatever the
    world it runs in. *)
Theorem key_released_before_confirmation :
  forall (numbers : Numbers float)
         (getNormalizedEventCoords : Event -> Point -> ClientRect -> Point)
         (env1 env2 : Env) (down up : Event) (w : World),
    currentActivationState w = Some defaultActivationState_ ->
    type down = "keydown"%string ->
    type up = "keyup"%string ->
    let w2 := deactivate_ env2 up (activate_ env1 down w) in
    exists state,
      rafQueue w2
      = rafQueue w
        ++ [ (nextFrameId w, ConfirmActivation down (activationState_ (this w)));
             (S (nextFrameId w), AnimateDeactivation up state) ]
      /\ activationStartTime state = Date_now env1
      /\ currentActivationState w2 = Some defaultActivationState_
      /\ log w2 = log w
      /\ forall env3 w3,
           animateDeactivation_ numbers getNormalizedEventCoords env3 up state w3
           = w3.
Proof.
  intros numbers gnec env1 env2 down up w Hs Hd Hu w2.
  unfold currentActivationState in Hs.
  set (s1 := {| isActivated := true;
                wasActivatedByPointer := isPointerActivation (type down);
                wasElementMadeActive := false;
                activationStartTime := Date_now env1;
                activationEvent := Some down |}).
  set (w1 := activate_ env1 down w).
  assert (E1 : w1 = snd (requestAnimationFrame
                           (ConfirmActivation down (activationState_ (this w)))
                           (mutate (activationState_ (this w))
                              (fun s => {| isActivated := true;
                                 wasActivatedByPointer := isPointerActivation (type down);
                                 wasElementMadeActive := wasElementMadeActive s;
                                 activationStartTime := Date_now env1;
                                 activationEvent := Some down |}) w))).
  { unfold w1, activate_. cbn zeta. now rewrite Hs. }
  assert (C1 : nth_error (heap w1) (activationState_ (this w1)) = Some s1).
  { rewrite E1. cbn. rewrite nth_error_update, Nat.eqb_refl, Hs. reflexivity. }
  assert (E2 : w2 = resetActivationState
                      (snd (requestAnimationFrame (AnimateDeactivation up s1) w1))).
  { unfold w2. fold w1. unfold deactivate_. rewrite C1. cbn.
    rewrite Hd, Hu. reflexivity. }
  exists s1. rewrite E2. split; [|split; [|split; [|split]]].
  - rewrite E1. cbn. now rewrite <- app_assoc.
  - reflexivity.
  - apply resetActivationState_current.
  - rewrite E1. reflexivity.
  - intros env3 w3. unfold animateDeactivation_, s1. cbn. now rewrite Hd.
Qed.

Lemma key_released_before_confirmation_witness :
  exists state,
    rafQueue (deactivate_ (bounded_env 100 50) (event_at_10_10 "keyup")
                (activate_ (bounded_env 100 50) (event_at_10_10 "keydown")
                   constructor))
    = [ (1%nat, ConfirmActivation (event_at_10_10 "keydown") 0);
        (2%nat, AnimateDeactivation (event_at_10_10 "keyup") state) ].
Proof.
  destruct (key_released_before_confirmation scenario_numbers page_coords
              (bounded_env 100 50) (bounded_env 100 50)
              (event_at_10_10 "keydown") (event_at_10_10 "keyup") constructor
              eq_refl eq_refl eq_refl) as (state & H & _).
  exists state. exact H.
Defined.

(** ** The stored activation event *)

Lemma isPointerActivation_types (t : string) :
  In t activationTypes ->
  isPointerActivation t = negb (String.eqb t "keydown").
Proof.
  cbn. intros H.
  repeat (destruct H as [H|H]; [subst; reflexivity|]). destruct H.
Qed.

Lemma stable_typedCurrent (w w' : World) :
  stable w w' -> typedCurrent w -> typedCurrent w'.
Proof.
  intros (H1 & H2 & _) T s. unfold currentActivationState.
  rewrite H1, H2. apply T.
Qed.

Lemma resetActivationState_typedCurrent (w : World) :
  typedCurrent (resetActivationState w).
Proof.
  intros s. rewrite resetActivationState_current. intros [= <-] H. discriminate.
Qed.

Lemma mutate_typedCurrent (w : World) (l : nat) (b : bool) :
  typedCurrent w -> typedCurrent (mutate l (set_wasElementMadeActive b) w).
Proof.
  intros T s. unfold currentActivationState. cbn. rewrite nth_error_update.
  destruct (Nat.eqb _ l); [|apply T].
  destruct (nth_error (heap w) (activationState_ (this w))) as [s0|] eqn:E;
    [|discriminate].
  cbn. intros [= <-]. exact (T s0 E).
Qed.

Lemma activate__typedCurrent (env : Env) (e : Event) (w : World) :
  In (type e) activationTypes -> typedCurrent w -> typedCurrent (activate_ env e w).
Proof.
  intros Ht T. unfold activate_. cbn zeta.
  destruct (nth_error _ _) as [s0|] eqn:E; [|assumption].
  destruct (isActivated s0); [assumption|].
  intros s. unfold currentActivationState. cbn.
  rewrite nth_error_update, Nat.eqb_refl, E. cbn. intros [= <-] _.
  exists e. cbn. split; [reflexivity|]. split; [assumption|].
  now apply isPointerActivation_types.
Qed.

Lemma deactivate__typedCurrent (env : Env) (e : Event) (w : World) :
  typedCurrent w -> typedCurrent (deactivate_ env e w).
Proof.
  intros T. unfold deactivate_.
  destruct (nth_error _ _) as [s0|]; [|assumption].
  destruct (negb (isActivated s0)); [assumption|].
  destruct (activationEvent s0) as [e0|]; [|assumption].
  cbn zeta.
  destruct (if wasActivatedByPointer s0 then _ else _);
    [apply resetActivationState_typedCurrent|].
  destruct (same_type _ _); [|assumption].
  eapply stable_typedCurrent; [|exact T].
  apply stable_requestAnimationFrame. discriminate.
Qed.

Lemma confirmActivation_typedCurrent (env : Env) (e : Event) (l : nat)
    (w : World) :
  typedCurrent w -> typedCurrent (confirmActivation env e l w).
Proof.
  intros T. unfold confirmActivation.
  set (p := if String.eqb (type e) "keydown" then _ else _).
  assert (Hp : typedCurrent (snd p)).
  { unfold p. destruct (String.eqb _ _); cbn [snd]; [|assumption].
    eapply stable_typedCurrent; [apply call_stable | exact T]. }
  destruct p as [made w1]. cbn [snd] in Hp.
  pose proof (mutate_typedCurrent l made Hp) as T2.
  destruct made.
  - eapply stable_typedCurrent; [apply animateActivation__stable | exact T2].
  - apply resetActivationState_typedCurrent.
Qed.

Section StoredEvent.
Variable numbers : Numbers float.
Variable getNormalizedEventCoords : Event -> Point -> ClientRect -> Point.
Variable keys : list CssVar.

Lemma runFrameCallback_typedCurrent (env : Env) (cb : FrameCallback) (w : World) :
  typedCurrent w ->
  typedCurrent (runFrameCallback numbers getNormalizedEventCoords keys env cb w).
Proof.
  intros T. destruct cb as [|e l|e s| | | |]; cbn [runFrameCallback].
  - eapply stable_typedCurrent; [|exact T].
    eapply stable_trans; [|apply layoutInternal__stable].
    destruct (isUnbounded env); apply stable_same; reflexivity.
  - now apply confirmActivation_typedCurrent.
  - eapply stable_typedCurrent; [apply animateDeactivation__stable | exact T].
  - eapply stable_typedCurrent; [|exact T].
    eapply stable_trans; [|apply removeCssVars__stable].
    apply stable_same; reflexivity.
  - eapply stable_typedCurrent; [|exact T].
    eapply stable_trans; [apply layoutInternal__stable|].
    apply stable_same; reflexivity.
  - eapply stable_typedCurrent; [apply call_stable | exact T].
  - eapply stable_typedCurrent; [apply call_stable | exact T].
Qed.

Lemma runFrameCallbacks_typedCurrent (env : Env) (ids : list nat) (w : World) :
  typedCurrent w ->
  typedCurrent (runFrameCallbacks numbers getNormalizedEventCoords keys env ids w).
Proof.
  revert w. induction ids as [|id ids IH]; intros w T; cbn [runFrameCallbacks];
    [assumption|].
  destruct (pending id (rafQueue w)) as [cb|]; [|auto].
  apply IH. apply runFrameCallback_typedCurrent.
  eapply stable_typedCurrent; [apply stable_cancelAnimationFrame | exact T].
Qed.

Lemma dispatchEvent_typedCurrent (env : Env) (e : Event) (w : World) :
  handlersFromListenerInfos w -> typedCurrent w ->
  typedCurrent (dispatchEvent env e w).
Proof.
  intros I3. unfold dispatchEvent.
  assert (Hks : forall k,
             In k (map snd (filter (fun p => String.eqb (fst p) (type e))
                                   (handlers w))) ->
             In (k, type e) (List.concat listenerInfos_)).
  { intros k Hk. apply in_map_iff in Hk as ([t k'] & Ek & Hk). cbn [snd] in Ek.
    subst k'. apply filter_In in Hk as [Hk Et]. cbn [fst] in Et.
    apply String.eqb_eq in Et. subst t. now apply I3. }
  revert Hks.
  generalize (map snd (filter (fun p => String.eqb (fst p) (type e)) (handlers w))).
  clear I3. intros ks. revert w.
  induction ks as [|k ks IH]; intros w Hks T; cbn [fold_left]; [assumption|].
  assert (Hk : In (k, type e) (List.concat listenerInfos_))
    by (apply Hks; now left).
  apply IH; [intros k0 H0; apply Hks; now right|].
  destruct k; cbn [listeners_].
  - apply activate__typedCurrent; [|assumption].
    now apply listenerInfos_activate_types.
  - now apply deactivate__typedCurrent.
  - eapply stable_typedCurrent; [|exact T].
    apply stable_requestAnimationFrame. discriminate.
  - eapply stable_typedCurrent; [|exact T].
    apply stable_requestAnimationFrame. discriminate.
Qed.

Lemma step_typedCurrent (env : Env) (op : Op) (w : World) :
  worldInvariant w -> typedCurrent w ->
  typedCurrent (step numbers getNormalizedEventCoords keys env op w).
Proof.
  intros (_ & _ & I3) T. destruct op as [ | | |e| | |id]; cbn [step].
  - eapply stable_typedCurrent; [apply init_stable | exact T].
  - eapply stable_typedCurrent; [apply destroy_stable | exact T].
  - eapply stable_typedCurrent; [apply layout_stable | exact T].
  - now apply dispatchEvent_typedCurrent.
  - unfold resize. destruct (resizeHandler w); [|assumption].
    eapply stable_typedCurrent; [apply layout_stable | exact T].
  - now apply runFrameCallbacks_typedCurrent.
  - unfold timeout. destruct (pending id (timeouts w)); [|assumption].
    eapply stable_typedCurrent; [|exact T]. apply stable_same; reflexivity.
Qed.

Lemma reachable_typedCurrent (w : World) :
  reachable numbers getNormalizedEventCoords keys w -> typedCurrent w.
Proof.
  intros R. induction R as [|env op w R IH].
  - intros s [= <-] H. discriminate.
  - apply step_typedCurrent; [|assumption]. now apply reachable_invariant in R.
Qed.

(** X8. In any world a foundation can reach, the event stored by an
    active cycle is of one of the four activation types (never focus or
    blur), and the cycle counts as pointer-activated exactly when that
    type is not keydown. *)
Theorem stored_activation_event_is_typed :
  forall (w : World) (s : ActivationState),
    reachable numbers getNormalizedEventCoords keys w ->
    currentActivationState w = Some s ->
    isActivated s = true ->
    exists e0,
      activationEvent s = Some e0
      /\ In (type e0) activationTypes
      /\ wasActivatedByPointer s = negb (String.eqb (type e0) "keydown").
Proof.
  intros w s R Hs Ha. apply reachable_typedCurrent in R. now apply R.
Qed.
End StoredEvent.

Lemma stored_activation_event_is_typed_witness :
  exists e0,
    activationEvent
      {| isActivated := true; wasActivatedByPointer := true;
         wasElementMadeActive := false; activationStartTime := 0;
         activationEvent := Some (event_at_10_10 "touchstart") |}
    = Some e0
    /\ In (type e0) activationTypes
    /\ true = negb (String.eqb (type e0) "keydown").
Proof.
  refine (stored_activation_event_is_typed
            (numbers := scenario_numbers) (getNormalizedEventCoords := page_coords)
            (keys := scenario_VAR_keys)
            (w := scenario [ (bounded_env 100 50, Init);
                             (bounded_env 100 50,
                              Dispatch (event_at_10_10 "touchstart")) ])
            _ _ _).
  - apply reachable_run. apply reachable_new.
  - vm_compute. reflexivity.
  - reflexivity.
Defined.

(** ** Activation visuals cancel what a deactivation left running *)

(** X9. The activation visuals disarm the fade timer that [this] holds
    and clear the field, leave every other timeout as it is, and call each
    stored cancel function once, after removing the three deactivation
    markers and before adding the background-active marker. *)
Theorem activation_visuals_cancel_deactivation :
  forall (env : Env) (w : World),
    let w' := animateActivation_ env w in
    let timer := unboundedOpacityFadeTimer_ (this w) in
    unboundedOpacityFadeTimer_ (this w') = 0%nat
    /\ (timer <> 0%nat -> pending timer (timeouts w') = None)
    /\ (forall id, id <> timer -> pending id (timeouts w') = pending id (timeouts w))
    /\ (forall h,
          In (Some h) [cancelBgBounded_ (this w); cancelFgBounded_ (this w);
                       cancelFgUnbounded_ (this w)] ->
          In (CancelAnimation h) (log w'))
    /\ exists before after,
         log w' = after ++ AddClass BG_ACTIVE :: before
                  ++ [RemoveClass FG_BOUNDED_ACTIVE_FILL;
                      RemoveClass FG_UNBOUNDED_DEACTIVATION;
                      RemoveClass BG_BOUNDED_ACTIVE_FILL] ++ log w
         /\ (forall c, In c before -> exists h, c = CancelAnimation h)
         /\ (forall c, In c after ->
                       c = IsUnbounded \/ c = AddClass FG_UNBOUNDED_ACTIVATION).
Proof.
  intros env w w' timer.
  destruct (animateActivation__fields env w) as (Ht & Hto & _ & _ & Hl).
  fold w' in Ht, Hto, Hl. fold timer in Hto.
  split; [exact Ht|]. split; [|split; [|split]].
  - intros Hn. rewrite Hto. apply Nat.eqb_neq in Hn. rewrite Hn.
    apply pending_filter_same.
  - intros id Hid. rewrite Hto. destruct (Nat.eqb timer 0); [reflexivity|].
    now apply pending_filter_other.
  - intros h Hh. rewrite Hl. cbn in Hh.
    destruct Hh as [E | [E | [E | []]]]; rewrite E;
      repeat (apply in_or_app; (left; now left) || right);
      destruct (cancelFgUnbounded_ (this w)), (cancelFgBounded_ (this w));
      cbn; tauto.
  - exists (match cancelFgUnbounded_ (this w) with
            | Some h => [CancelAnimation h] | None => [] end
            ++ match cancelFgBounded_ (this w) with
               | Some h => [CancelAnimation h] | None => [] end
            ++ match cancelBgBounded_ (this w) with
               | Some h => [CancelAnimation h] | None => [] end),
           ((if isUnbounded env then [AddClass FG_UNBOUNDED_ACTIVATION] else [])
            ++ [IsUnbounded]).
    split; [|split].
    + rewrite Hl. rewrite <- !app_assoc. reflexivity.
    + intros c Hc.
      destruct (cancelFgUnbounded_ (this w)), (cancelFgBounded_ (this w)),
        (cancelBgBounded_ (this w)); cbn in Hc;
        repeat (destruct Hc as [Hc|Hc]; [eauto|]); destruct Hc.
    + intros c Hc. destruct (isUnbounded env); cbn in Hc;
        repeat (destruct Hc as [Hc|Hc]; [auto|]); destruct Hc.
Qed.

Lemma activation_visuals_cancel_deactivation_witness :
  pending 1 (timeouts (animateActivation_ (unbounded_env 0)
                         (scenario
                            [ (unbounded_env 0, Init);
                              (unbounded_env 0, Dispatch (event_at_10_10 "mousedown"));
                              (unbounded_env 0, Dispatch (event_at_10_10 "mouseup"));
                              (unbounded_env 50, AnimationFrame) ])))
  = None.
Proof.
  apply (proj1 (proj2 (activation_visuals_cancel_deactivation (unbounded_env 0)
                         (scenario
                            [ (unbounded_env 0, Init);
                              (unbounded_env 0, Dispatch (event_at_10_10 "mousedown"));
                              (unbounded_env 0, Dispatch (event_at_10_10 "mouseup"));
                              (unbounded_env 50, AnimationFrame) ])))).
  vm_compute. discriminate.
Defined.

(** ** Timeouts *)

Lemma timersStable_refl (w : World) : timersStable w w.
Proof. split; reflexivity. Qed.

Lemma timersStable_trans (w1 w2 w3 : World) :
  timersStable w1 w2 -> timersStable w2 w3 -> timersStable w1 w3.
Proof. intros (H1 & H2) (K1 & K2). split; congruence. Qed.

Lemma timersStable_fold {A : Type} (f : World -> A -> World) (l : list A)
    (w : World) :
  (forall a w, timersStable w (f w a)) -> timersStable w (fold_left f l w).
Proof.
  intros H. revert w. induction l as [|a l IH]; intros w; cbn [fold_left].
  - apply timersStable_refl.
  - eapply timersStable_trans; [apply H | apply IH].
Qed.

Lemma timersStable_fresh (w w' : World) :
  timersStable w w' -> timersFresh w -> timersFresh w'.
Proof.
  intros (H1 & H2) (F1 & F2). unfold timersFresh. rewrite H1, H2.
  split; assumption.
Qed.

Lemma call_timersStable (c : Call) (w : World) : timersStable w (call c w).
Proof. split; reflexivity. Qed.

Lemma requestAnimationFrame_timersStable (cb : FrameCallback) (w : World) :
  timersStable w (snd (requestAnimationFrame cb w)).
Proof. split; reflexivity. Qed.

Lemma registerResizeHandler_timersStable (w : World) :
  timersStable w (registerResizeHandler w).
Proof. split; reflexivity. Qed.

Lemma deregisterResizeHandler_timersStable (w : World) :
  timersStable w (deregisterResizeHandler w).
Proof. split; reflexivity. Qed.

Lemma addEventListeners__timersStable (w : World) :
  timersStable w (addEventListeners_ w).
Proof.
  unfold addEventListeners_.
  eapply timersStable_trans; [|apply registerResizeHandler_timersStable].
  apply timersStable_fold. intros info w0. apply timersStable_fold. intros k w1.
  unfold registerInteractionHandler. destruct (existsb _ _); split; reflexivity.
Qed.

Lemma removeEventListeners__timersStable (w : World) :
  timersStable w (removeEventListeners_ w).
Proof.
  unfold removeEventListeners_.
  eapply timersStable_trans; [|apply deregisterResizeHandler_timersStable].
  apply timersStable_fold. intros info w0. apply timersStable_fold. intros k w1.
  split; reflexivity.
Qed.

Lemma init_timersStable (env : Env) (w : World) : timersStable w (init env w).
Proof.
  unfold init, isSupported_. destruct (browserSupportsCssVars env); cbn [negb].
  - eapply timersStable_trans; [|apply requestAnimationFrame_timersStable].
    eapply timersStable_trans; [|apply addEventListeners__timersStable].
    apply call_timersStable.
  - apply call_timersStable.
Qed.

Lemma destroy_timersStable (env : Env) (w : World) :
  timersStable w (destroy env w).
Proof.
  unfold destroy, isSupported_. destruct (browserSupportsCssVars env); cbn [negb].
  - eapply timersStable_trans; [|apply requestAnimationFrame_timersStable].
    eapply timersStable_trans; [|apply removeEventListeners__timersStable].
    apply call_timersStable.
  - apply call_timersStable.
Qed.

Lemma layout_timersStable (w : World) : timersStable w (layout w).
Proof.
  unfold layout. destruct (negb _); split; reflexivity.
Qed.

Lemma activate__timersStable (env : Env) (e : Event) (w : World) :
  timersStable w (activate_ env e w).
Proof.
  unfold activate_. cbn zeta.
  destruct (nth_error _ _) as [s|]; [|apply timersStable_refl].
  destruct (isActivated s); [apply timersStable_refl|]. split; reflexivity.
Qed.

Lemma deactivate__timersStable (env : Env) (e : Event) (w : World) :
  timersStable w (deactivate_ env e w).
Proof.
  unfold deactivate_.
  destruct (nth_error _ _) as [s|]; [|apply timersStable_refl].
  destruct (negb (isActivated s)); [apply timersStable_refl|].
  destruct (activationEvent s) as [e0|]; [|apply timersStable_refl].
  cbn zeta.
  destruct (same_type _ _), (if wasActivatedByPointer s then _ else _);
    split; reflexivity.
Qed.

Lemma dispatchEvent_timersStable (env : Env) (e : Event) (w : World) :
  timersStable w (dispatchEvent env e w).
Proof.
  unfold dispatchEvent. apply timersStable_fold. intros k w0.
  destruct k; cbn [listeners_].
  - apply activate__timersStable.
  - apply deactivate__timersStable.
  - apply requestAnimationFrame_timersStable.
  - apply requestAnimationFrame_timersStable.
Qed.

Lemma layoutInternal__timersStable (numbers : Numbers float) (env : Env)
    (w : World) :
  timersStable w (layoutInternal_ numbers env w).
Proof.
  unfold layoutInternal_, updateLayoutCssVars_.
  destruct (isUnbounded env); split; reflexivity.
Qed.

Lemma removeCssVars__timersStable (keys : list CssVar) (w : World) :
  timersStable w (removeCssVars_ keys w).
Proof.
  unfold removeCssVars_. apply timersStable_fold. intros k w0.
  apply call_timersStable.
Qed.

Lemma filter_timersFresh (p : nat * float -> bool) (w w' : World) :
  timeouts w' = filter p (timeouts w) -> nextTimerId w' = nextTimerId w ->
  timersFresh w -> timersFresh w'.
Proof.
  intros H1 H2 (F1 & F2). unfold timersFresh. rewrite H1, H2.
  split; [assumption|]. intros id d H. apply filter_In in H as [H _].
  now apply F2 in H.
Qed.

Lemma animateActivation__nextTimerId (env : Env) (w : World) :
  nextTimerId (animateActivation_ env w) = nextTimerId w.
Proof.
  unfold animateActivation_, animateUnboundedActivation_, cancel.
  cbn [fold_left].
  destruct (cancelBgBounded_ _), (cancelFgBounded_ _), (cancelFgUnbounded_ _),
    (Nat.eqb _ 0), (isUnbounded env); reflexivity.
Qed.

Lemma animateActivation__timersFresh (env : Env) (w : World) :
  timersFresh w -> timersFresh (animateActivation_ env w).
Proof.
  intros F.
  destruct (animateActivation__fields env w) as (_ & Hto & _).
  cbn zeta in Hto.
  destruct (Nat.eqb (unboundedOpacityFadeTimer_ (this w)) 0).
  - apply (@timersStable_fresh w); [|exact F].
    split; [exact Hto | apply animateActivation__nextTimerId].
  - eapply filter_timersFresh;
      [exact Hto | apply animateActivation__nextTimerId | exact F].
Qed.

Lemma confirmActivation_timersFresh (env : Env) (e : Event) (l : nat)
    (w : World) :
  timersFresh w -> timersFresh (confirmActivation env e l w).
Proof.
  intros F. unfold confirmActivation.
  destruct (String.eqb (type e) "keydown"); [destruct (isSurfaceActive env)|];
    try (apply animateActivation__timersFresh);
    (apply (@timersStable_fresh w); [split; reflexivity | exact F]).
Qed.

Lemma animateUnboundedDeactivation__fields (info : DeactivationInfo float)
    (w : World) :
  let w' := animateUnboundedDeactivation_ info w in
  timeouts w' = timeouts w ++ [(nextTimerId w, opacityDuration info)]
  /\ nextTimerId w' = S (nextTimerId w)
  /\ unboundedOpacityFadeTimer_ (this w') = nextTimerId w
  /\ nextHandle w' = nextHandle w
  /\ cancelBgBounded_ (this w') = cancelBgBounded_ (this w)
  /\ cancelFgBounded_ (this w') = cancelFgBounded_ (this w)
  /\ log w'
     = [ RemoveClass FG_UNBOUNDED_ACTIVATION;
         AddClass FG_UNBOUNDED_DEACTIVATION;
         UpdateCssVariable VAR_FG_UNBOUNDED_TRANSFORM_DURATION
           (Ms (transformDuration info));
         UpdateCssVariable VAR_FG_UNBOUNDED_OPACITY_DURATION
           (Ms (opacityDuration info));
         UpdateCssVariable VAR_FG_APPROX_XF (ScaleOf (approxCurScale info)) ]
       ++ log w.
Proof. repeat split. Qed.

Lemma animateBoundedDeactivation__fields
    (getNormalizedEventCoords : Event -> Point -> ClientRect -> Point)
    (env : Env) (e : Event) (isPointerEvent : bool) (w : World) :
  let w' := animateBoundedDeactivation_ getNormalizedEventCoords env e
              isPointerEvent w in
  let centre :=
    {| x := (width (frame_ (this w)) / 2 - initialSize_ (this w) / 2)%float;
       y := (height (frame_ (this w)) / 2 - initialSize_ (this w) / 2)%float |} in
  let start :=
    if isPointerEvent then
      let p := getNormalizedEventCoords e (getWindowPageOffset env)
                 (computeBoundingRect env) in
      {| x := (x p - initialSize_ (this w) / 2)%float;
         y := (y p - initialSize_ (this w) / 2)%float |}
    else centre in
  timeouts w' = timeouts w
  /\ nextTimerId w' = nextTimerId w
  /\ unboundedOpacityFadeTimer_ (this w') = unboundedOpacityFadeTimer_ (this w)
  /\ cancelBgBounded_ (this w') = Some (nextHandle w)
  /\ cancelFgBounded_ (this w') = Some (S (nextHandle w))
  /\ cancelFgUnbounded_ (this w') = cancelFgUnbounded_ (this w)
  /\ nextHandle w' = S (S (nextHandle w))
  /\ log w'
     = [ AnimateWithClass FG_BOUNDED_ACTIVE_FILL AnimationEnd (S (nextHandle w));
         AnimateWithClass BG_BOUNDED_ACTIVE_FILL TransitionEnd (nextHandle w);
         UpdateCssVariable VAR_FG_TRANSLATE_END (PxPair (x centre) (y centre));
         UpdateCssVariable VAR_FG_TRANSLATE_START (PxPair (x start) (y start)) ]
       ++ (if isPointerEvent then [ComputeBoundingRect; GetWindowPageOffset]
           else [])
       ++ log w.
Proof.
  unfold animateBoundedDeactivation_. destruct isPointerEvent; repeat split.
Qed.

Lemma animateDeactivation__timersFresh (numbers : Numbers float)
    (getNormalizedEventCoords : Event -> Point -> ClientRect -> Point)
    (env : Env) (e : Event) (s : ActivationState) (w : World) :
  timersFresh w ->
  timersFresh (animateDeactivation_ numbers getNormalizedEventCoords env e s w).
Proof.
  intros F. unfold animateDeactivation_.
  destruct (wasActivatedByPointer s || wasElementMadeActive s); [|exact F].
  cbn zeta. destruct (isUnbounded env).
  - match goal with
    | |- timersFresh (animateUnboundedDeactivation_ ?i ?w0) =>
        destruct (animateUnboundedDeactivation__fields i w0)
          as (Hto & Hn & _)
    end.
    cbn zeta in Hto, Hn. cbn [timeouts nextTimerId call] in Hto, Hn.
    destruct F as (F1 & F2). unfold timersFresh. rewrite Hto, Hn.
    split; [lia|]. intros id d H. apply in_app_or in H as [H | [H | []]].
    + apply F2 in H. lia.
    + inversion H; subst. lia.
  - match goal with
    | |- timersFresh (animateBoundedDeactivation_ ?g ?v ?ev ?b ?w0) =>
        destruct (animateBoundedDeactivation__fields g v ev b w0)
          as (Hto & Hn & _)
    end.
    apply (@timersStable_fresh w); [|exact F]. split; assumption.
Qed.

Section Timers.
Variable numbers : Numbers float.
Variable getNormalizedEventCoords : Event -> Point -> ClientRect -> Point.
Variable keys : list CssVar.

Lemma runFrameCallback_timersFresh (env : Env) (cb : FrameCallback) (w : World) :
  timersFresh w ->
  timersFresh (runFrameCallback numbers getNormalizedEventCoords keys env cb w).
Proof.
  intros F. destruct cb as [|e l|e s| | | |]; cbn [runFrameCallback].
  - eapply timersStable_fresh; [apply layoutInternal__timersStable|].
    destruct (isUnbounded env);
      (apply (@timersStable_fresh w); [split; reflexivity | exact F]).
  - now apply confirmActivation_timersFresh.
  - now apply animateDeactivation__timersFresh.
  - eapply timersStable_fresh; [apply removeCssVars__timersStable|].
    apply (@timersStable_fresh w); [split; reflexivity | exact F].
  - destruct (layoutInternal__timersStable numbers env w) as (H1 & H2).
    apply (@timersStable_fresh w); [split; assumption | exact F].
  - apply (@timersStable_fresh w); [split; reflexivity | exact F].
  - apply (@timersStable_fresh w); [split; reflexivity | exact F].
Qed.

Lemma runFrameCallbacks_timersFresh (env : Env) (ids : list nat) (w : World) :
  timersFresh w ->
  timersFresh
    (runFrameCallbacks numbers getNormalizedEventCoords keys env ids w).
Proof.
  revert w. induction ids as [|id ids IH]; intros w F; cbn [runFrameCallbacks];
    [assumption|].
  destruct (pending id (rafQueue w)) as [cb|]; [|auto].
  apply IH. apply runFrameCallback_timersFresh.
  apply (@timersStable_fresh w); [split; reflexivity | exact F].
Qed.

Lemma step_timersFresh (env : Env) (op : Op) (w : World) :
  timersFresh w ->
  timersFresh (step numbers getNormalizedEventCoords keys env op w).
Proof.
  intros F. destruct op as [ | | |e| | |id]; cbn [step].
  - eapply timersStable_fresh; [apply init_timersStable | exact F].
  - eapply timersStable_fresh; [apply destroy_timersStable | exact F].
  - eapply timersStable_fresh; [apply layout_timersStable | exact F].
  - eapply timersStable_fresh; [apply dispatchEvent_timersStable | exact F].
  - unfold resize. destruct (resizeHandler w); [|assumption].
    eapply timersStable_fresh; [apply layout_timersStable | exact F].
  - now apply runFrameCallbacks_timersFresh.
  - unfold timeout. destruct (pending id (timeouts w)); [|assumption].
    eapply filter_timersFresh; [| |exact F]; reflexivity.
Qed.

Lemma reachable_timersFresh (w : World) :
  reachable numbers getNormalizedEventCoords keys w -> timersFresh w.
Proof.
  intros R. induction R as [|env op w R IH]; [|now apply step_timersFresh].
  split; [cbn; lia|]. intros id d [].
Qed.
End Timers.

Lemma pending_app_fresh {A : Type} (id : nat) (a : A) (q : list (nat * A)) :
  (forall i b, In (i, b) q -> i <> id) ->
  pending id (q ++ [(id, a)]) = Some a.
Proof.
  induction q as [|[i b] q IH]; intros H; cbn [app pending].
  - now rewrite Nat.eqb_refl.
  - destruct (Nat.eqb_spec i id) as [E|E].
    + exfalso. apply (H i b); [now left | exact E].
    + apply IH. intros j c Hj. apply (H j c). now right.
Qed.

Lemma pending_app_other {A : Type} (i id : nat) (a : A) (q : list (nat * A)) :
  i <> id -> pending i (q ++ [(id, a)]) = pending i q.
Proof.
  intros Hi. induction q as [|[j b] q IH]; cbn [app pending].
  - destruct (Nat.eqb_spec id i); [congruence | reflexivity].
  - destruct (Nat.eqb j i); [reflexivity | exact IH].
Qed.

(** ** Deactivation visuals *)

Section DeactivationVisuals.
Variable numbers : Numbers float.
Variable getNormalizedEventCoords : Event -> Point -> ClientRect -> Point.
Variable keys : list CssVar.

(** X10. On an unbounded surface the deactivation visuals of an
    activation that made the element active arm one timeout and keep its
    id, which is not 0, in [unboundedOpacityFadeTimer_]; its delay is the
    opacity duration they publish, computed from the time since the
    activation; the transform duration they publish is the constant; no
    animation is started.  When the timeout expires the fade marker is
    removed, and the field still holds the id. *)
Theorem unbounded_deactivation_arms_fade_timer :
  forall (env : Env) (e : Event) (state : ActivationState) (w : World),
    reachable numbers getNormalizedEventCoords keys w ->
    wasActivatedByPointer state || wasElementMadeActive state = true ->
    isUnbounded env = true ->
    let w' := animateDeactivation_ numbers getNormalizedEventCoords env e state w in
    let d := opacityDuration_at numbers
               (Date_now env - activationStartTime state)%float in
    let id := nextTimerId w in
    unboundedOpacityFadeTimer_ (this w') = id
    /\ id <> 0%nat
    /\ pending id (timeouts w') = Some d
    /\ (forall i, i <> id -> pending i (timeouts w') = pending i (timeouts w))
    /\ latestCssVariable VAR_FG_UNBOUNDED_OPACITY_DURATION (log w') = Some (Ms d)
    /\ latestCssVariable VAR_FG_UNBOUNDED_TRANSFORM_DURATION (log w')
       = Some (Ms (UNBOUNDED_TRANSFORM_DURATION_MS numbers))
    /\ nextHandle w' = nextHandle w
    /\ log (timeout id w') = RemoveClass FG_UNBOUNDED_DEACTIVATION :: log w'
    /\ pending id (timeouts (timeout id w')) = None
    /\ unboundedOpacityFadeTimer_ (this (timeout id w')) = id.
Proof.
  intros env e state w R Hs Hu w' d id.
  apply reachable_timersFresh in R as (F1 & F2).
  assert (E : w' = animateUnboundedDeactivation_
                     (getUnboundedDeactivationInfo_ numbers
                        (xfDuration_ (this w)) (fgScale_ (this w))
                        (Date_now env) (activationStartTime state))
                     (call IsUnbounded (call (RemoveClass BG_ACTIVE) w))).
  { unfold w', animateDeactivation_. rewrite Hs, Hu. reflexivity. }
  destruct (animateUnboundedDeactivation__fields
              (getUnboundedDeactivationInfo_ numbers
                 (xfDuration_ (this w)) (fgScale_ (this w))
                 (Date_now env) (activationStartTime state))
              (call IsUnbounded (call (RemoveClass BG_ACTIVE) w)))
    as (Hto & _ & Hf & Hh & _ & _ & Hl).
  cbn zeta in Hto, Hf, Hh, Hl. rewrite <- E in Hto, Hf, Hh, Hl.
  cbn [timeouts nextTimerId nextHandle call opacityDuration transformDuration
       getUnboundedDeactivationInfo_] in Hto, Hf, Hh, Hl.
  fold id in Hto, Hf. change (opacityDuration_at numbers _) with d in Hto, Hl.
  clearbody w'. clear E.
  assert (Hp : pending id (timeouts w') = Some d).
  { rewrite Hto. apply pending_app_fresh. intros i b H. apply F2 in H.
    unfold id. lia. }
  split; [exact Hf|]. split; [unfold id; lia|]. split; [exact Hp|].
  split; [intros i Hi; rewrite Hto; now apply pending_app_other|].
  split; [rewrite Hl; reflexivity|]. split; [rewrite Hl; reflexivity|].
  split; [exact Hh|].
  unfold timeout. rewrite Hp. split; [reflexivity|]. split; [|exact Hf].
  apply pending_filter_same.
Qed.

(** X11. On a bounded surface the deactivation visuals of an activation
    that made the element active start the background and the foreground
    animation, keep the two cancel functions in [cancelBgBounded_] and
    [cancelFgBounded_], and arm no timeout; the next activation visuals call
    both cancel functions, and leave them in the fields. *)
Theorem bounded_deactivation_is_cancelled_by_activation :
  forall (env env' : Env) (e : Event) (state : ActivationState) (w : World),
    wasActivatedByPointer state || wasElementMadeActive state = true ->
    isUnbounded env = false ->
    let w' := animateDeactivation_ numbers getNormalizedEventCoords env e state w in
    let w'' := animateActivation_ env' w' in
    let bg := nextHandle w in
    let fg := S (nextHandle w) in
    cancelBgBounded_ (this w') = Some bg
    /\ cancelFgBounded_ (this w') = Some fg
    /\ In (AnimateWithClass BG_BOUNDED_ACTIVE_FILL TransitionEnd bg) (log w')
    /\ In (AnimateWithClass FG_BOUNDED_ACTIVE_FILL AnimationEnd fg) (log w')
    /\ timeouts w' = timeouts w
    /\ unboundedOpacityFadeTimer_ (this w') = unboundedOpacityFadeTimer_ (this w)
    /\ In (CancelAnimation bg) (log w'')
    /\ In (CancelAnimation fg) (log w'')
    /\ cancelBgBounded_ (this w'') = Some bg
    /\ cancelFgBounded_ (this w'') = Some fg.
Proof.
  intros env env' e state w Hs Hu w' w'' bg fg.
  assert (E : w' = animateBoundedDeactivation_ getNormalizedEventCoords env e
                     (isPointerDeactivation (type e))
                     (call IsUnbounded (call (RemoveClass BG_ACTIVE) w))).
  { unfold w', animateDeactivation_. rewrite Hs, Hu. reflexivity. }
  destruct (animateBoundedDeactivation__fields getNormalizedEventCoords env e
              (isPointerDeactivation (type e))
              (call IsUnbounded (call (RemoveClass BG_ACTIVE) w)))
    as (Hto & _ & Hf & Hb & Hg & _ & _ & Hl).
  cbn zeta in Hto, Hf, Hb, Hg, Hl. rewrite <- E in Hto, Hf, Hb, Hg, Hl.
  cbn [timeouts nextHandle this call] in Hto, Hf, Hb, Hg.
  clearbody w'. clear E.
  destruct (animateActivation__fields env' w') as (_ & _ & Kb & Kg & Kl).
  fold w'' in Kb, Kg, Kl. rewrite Hb, Hg in Kl.
  split; [exact Hb|]. split; [exact Hg|].
  split; [rewrite Hl; right; now left|]. split; [rewrite Hl; now left|].
  split; [exact Hto|]. split; [exact Hf|].
  split; [|split; [|split; [rewrite Kb; exact Hb | rewrite Kg; exact Hg]]].
  - rewrite Kl. apply in_or_app. right. apply in_or_app. right.
    apply in_or_app. right. apply in_or_app. right. now left.
  - rewrite Kl. apply in_or_app. right. apply in_or_app. right.
    apply in_or_app. right. apply in_or_app. left. now left.
Qed.

(** X12. Deactivation visuals on a bounded surface for an event that is
    not a pointer release (a key release) measure nothing: the foreground
    starts and ends at the centre of the stored frame, minus half the stored
    initial size. *)
Theorem keyboard_deactivation_stays_centred :
  forall (env : Env) (e : Event) (state : ActivationState) (w : World),
    wasActivatedByPointer state || wasElementMadeActive state = true ->
    isUnbounded env = false ->
    isPointerDeactivation (type e) = false ->
    let w' := animateDeactivation_ numbers getNormalizedEventCoords env e state w in
    let centre :=
      PxPair (width (frame_ (this w)) / 2 - initialSize_ (this w) / 2)
             (height (frame_ (this w)) / 2 - initialSize_ (this w) / 2) in
    latestCssVariable VAR_FG_TRANSLATE_START (log w') = Some centre
    /\ latestCssVariable VAR_FG_TRANSLATE_END (log w') = Some centre
    /\ filter isMeasurement (log w') = filter isMeasurement (log w).
Proof.
  intros env e state w Hs Hu Hp w' centre.
  assert (E : w' = animateBoundedDeactivation_ getNormalizedEventCoords env e
                     false
                     (call IsUnbounded (call (RemoveClass BG_ACTIVE) w))).
  { unfold w', animateDeactivation_. rewrite Hs, Hu, Hp. reflexivity. }
  destruct (animateBoundedDeactivation__fields getNormalizedEventCoords env e
              false (call IsUnbounded (call (RemoveClass BG_ACTIVE) w)))
    as (_ & _ & _ & _ & _ & _ & _ & Hl).
  cbn zeta in Hl. rewrite <- E in Hl. clearbody w'. clear E.
  rewrite Hl. split; [reflexivity|]. split; reflexivity.
Qed.
End DeactivationVisuals.

Lemma unbounded_deactivation_arms_fade_timer_witness :
  pending 1
    (timeouts
       (animateDeactivation_ scenario_numbers page_coords (unbounded_env 50)
          (event_at_10_10 "mouseup")
          {| isActivated := true; wasActivatedByPointer := true;
             wasElementMadeActive := true; activationStartTime := 0;
             activationEvent := Some (event_at_10_10 "mousedown") |}
          (scenario [ (unbounded_env 0, Init) ])))
  = Some 200%float.
Proof.
  refine (proj1 (proj2 (proj2
            (@unbounded_deactivation_arms_fade_timer
               scenario_numbers page_coords scenario_VAR_keys
               (unbounded_env 50) (event_at_10_10 "mouseup")
               {| isActivated := true; wasActivatedByPointer := true;
                  wasElementMadeActive := true; activationStartTime := 0;
                  activationEvent := Some (event_at_10_10 "mousedown") |}
               (scenario [ (unbounded_env 0, Init) ]) _ _ _)))).
  - apply reachable_run. apply reachable_new.
  - reflexivity.
  - reflexivity.
Defined.

Lemma bounded_deactivation_is_cancelled_by_activation_witness :
  In (CancelAnimation 0)
     (log (animateActivation_ (bounded_env 100 50)
             (animateDeactivation_ scenario_numbers page_coords
                (bounded_env 100 50) (event_at_10_10 "mouseup")
                {| isActivated := true; wasActivatedByPointer := true;
                   wasElementMadeActive := true; activationStartTime := 0;
                   activationEvent := Some (event_at_10_10 "mousedown") |}
                constructor))).
Proof.
  refine (proj1 (proj2 (proj2 (proj2 (proj2 (proj2 (proj2
            (@bounded_deactivation_is_cancelled_by_activation
               scenario_numbers page_coords
               (bounded_env 100 50) (bounded_env 100 50)
               (event_at_10_10 "mouseup")
               {| isActivated := true; wasActivatedByPointer := true;
                  wasElementMadeActive := true; activationStartTime := 0;
                  activationEvent := Some (event_at_10_10 "mousedown") |}
               constructor _ _)))))))).
  - reflexivity.
  - reflexivity.
Defined.

Lemma keyboard_deactivation_stays_centred_witness :
  latestCssVariable VAR_FG_TRANSLATE_START
    (log (animateDeactivation_ scenario_numbers page_coords
            (bounded_env 100 50) (event_at_10_10 "keyup")
            {| isActivated := true; wasActivatedByPointer := false;
               wasElementMadeActive := true; activationStartTime := 0;
               activationEvent := Some (event_at_10_10 "keydown") |}
            constructor))
  = Some (PxPair (0 / 2 - 0 / 2) (0 / 2 - 0 / 2)).
Proof.
  refine (proj1
            (@keyboard_deactivation_stays_centred
               scenario_numbers page_coords
               (bounded_env 100 50) (event_at_10_10 "keyup")
               {| isActivated := true; wasActivatedByPointer := false;
                  wasElementMadeActive := true; activationStartTime := 0;
                  activationEvent := Some (event_at_10_10 "keydown") |}
               constructor _ _ _)).
  - reflexivity.
  - reflexivity.
  - reflexivity.
Defined.

(** ** What the frame callbacks publish *)

Lemma CssVar_eqb_refl (v : CssVar) : CssVar_eqb v v = true.
Proof. destruct v; reflexivity. Qed.

Lemma latestCssVariable_nulls (k : CssVar) (p rest : list Call) :
  forallb isNullUpdate p = true ->
  latestCssVariable k (p ++ UpdateCssVariable k Null :: rest) = Some Null.
Proof.
  induction p as [|c p IH]; cbn [app forallb latestCssVariable]; intros H.
  - now rewrite CssVar_eqb_refl.
  - apply andb_prop in H as [Hc Hp].
    destruct c as [| | | | | | | | |v value| | | |]; try discriminate.
    destruct value; try discriminate.
    destruct (CssVar_eqb k v); [reflexivity | now apply IH].
Qed.

Lemma removeCssVars__log (keys : list CssVar) (w : World) :
  log (removeCssVars_ keys w)
  = rev (map (fun k => UpdateCssVariable k Null) keys) ++ log w.
Proof.
  unfold removeCssVars_. revert w.
  induction keys as [|k keys IH]; intros w; cbn [fold_left map rev];
    [reflexivity|].
  rewrite IH. cbn [log call]. now rewrite <- app_assoc.
Qed.

Lemma removeCssVars__this (keys : list CssVar) (w : World) :
  this (removeCssVars_ keys w) = this w
  /\ timeouts (removeCssVars_ keys w) = timeouts w
  /\ rafQueue (removeCssVars_ keys w) = rafQueue w
  /\ handlers (removeCssVars_ keys w) = handlers w.
Proof.
  unfold removeCssVars_. revert w.
  induction keys as [|k keys IH]; intros w; cbn [fold_left];
    [repeat split|].
  destruct (IH (call (UpdateCssVariable k Null) w)) as (-> & -> & -> & ->).
  repeat split.
Qed.

Lemma forallb_nulls (keys : list CssVar) :
  forallb isNullUpdate (map (fun k => UpdateCssVariable k Null) keys) = true.
Proof. induction keys as [|k keys IH]; [reflexivity | exact IH]. Qed.

(** X13. The frame callback of [destroy] removes the root and the
    unbounded marker and then sets each of the style variables to null, in
    the order of the keys, so that null is the last value of every one of
    them.  It touches neither the fields of the foundation nor the pending
    timeouts, frame callbacks and handlers. *)
Theorem destroy_frame_clears_variables :
  forall (numbers : Numbers float)
         (getNormalizedEventCoords : Event -> Point -> ClientRect -> Point)
         (keys : list CssVar) (env : Env) (w : World),
    let w' :=
      runFrameCallback numbers getNormalizedEventCoords keys env DestroyFrame w in
    log w' = rev (map (fun k => UpdateCssVariable k Null) keys)
             ++ [RemoveClass UNBOUNDED; RemoveClass ROOT] ++ log w
    /\ (forall k, In k keys -> latestCssVariable k (log w') = Some Null)
    /\ this w' = this w
    /\ timeouts w' = timeouts w
    /\ rafQueue w' = rafQueue w
    /\ handlers w' = handlers w.
Proof.
  intros numbers gnec keys env w w'.
  assert (Hl : log w' = rev (map (fun k => UpdateCssVariable k Null) keys)
                        ++ [RemoveClass UNBOUNDED; RemoveClass ROOT] ++ log w).
  { unfold w'. cbn [runFrameCallback]. now rewrite removeCssVars__log. }
  split; [exact Hl|]. split.
  - intros k Hk. rewrite Hl. apply in_split in Hk as (l1 & l2 & ->).
    rewrite map_app, rev_app_distr. cbn [map rev].
    rewrite <- !app_assoc. cbn [app].
    apply latestCssVariable_nulls.
    rewrite forallb_forall. intros c Hc. apply in_rev in Hc.
    apply in_map_iff in Hc as (k' & <- & _). reflexivity.
  - unfold w'. cbn [runFrameCallback].
    destruct (removeCssVars__this keys
                (call (RemoveClass UNBOUNDED) (call (RemoveClass ROOT) w)))
      as (-> & -> & -> & ->).
    repeat split.
Qed.

Lemma updateLayoutCssVars__fields (env : Env) (w : World) :
  let w' := updateLayoutCssVars_ env w in
  let coords :=
    {| coords_left :=
         F64.round (width (frame_ (this w)) / 2 - initialSize_ (this w) / 2);
       coords_top :=
         F64.round (height (frame_ (this w)) / 2 - initialSize_ (this w) / 2) |} in
  this w'
  = (if isUnbounded env then set_unboundedCoords_ coords (this w) else this w)
  /\ log w'
     = (if isUnbounded env
        then [ UpdateCssVariable VAR_TOP (Px (coords_top coords));
               UpdateCssVariable VAR_LEFT (Px (coords_left coords)) ]
        else [])
       ++ [ IsUnbounded;
            UpdateCssVariable VAR_FG_SCALE (Plain (fgScale_ (this w)));
            UpdateCssVariable VAR_FG_UNBOUNDED_TRANSFORM_DURATION
              (Ms (xfDuration_ (this w)));
            UpdateCssVariable VAR_FG_SIZE (Px (initialSize_ (this w)));
            UpdateCssVariable VAR_SURFACE_HEIGHT (Px (height (frame_ (this w))));
            UpdateCssVariable VAR_SURFACE_WIDTH (Px (width (frame_ (this w)))) ]
       ++ log w.
Proof.
  unfold updateLayoutCssVars_. destruct (isUnbounded env); split; reflexivity.
Qed.

(** X14. A layout pass measures the surface once and publishes what it
    stores: the width and height of the stored frame, the stored initial
    size, transform duration and scale.  On an unbounded surface it stores
    the rounded position of the foreground and publishes it as left and
    top; on a bounded one it leaves the stored position and the two
    variables as they are. *)
Theorem layout_publishes_stored_metrics :
  forall (numbers : Numbers float) (env : Env) (w : World),
    let w' := layoutInternal_ numbers env w in
    let f := this w' in
    let published v := latestCssVariable v (log w') in
    published VAR_SURFACE_WIDTH = Some (Px (width (frame_ f)))
    /\ published VAR_SURFACE_HEIGHT = Some (Px (height (frame_ f)))
    /\ published VAR_FG_SIZE = Some (Px (initialSize_ f))
    /\ published VAR_FG_UNBOUNDED_TRANSFORM_DURATION = Some (Ms (xfDuration_ f))
    /\ published VAR_FG_SCALE = Some (Plain (fgScale_ f))
    /\ (if isUnbounded env then
          unboundedCoords_ f
          = {| coords_left :=
                 F64.round (width (frame_ f) / 2 - initialSize_ f / 2);
               coords_top :=
                 F64.round (height (frame_ f) / 2 - initialSize_ f / 2) |}
          /\ published VAR_LEFT = Some (Px (coords_left (unboundedCoords_ f)))
          /\ published VAR_TOP = Some (Px (coords_top (unboundedCoords_ f)))
        else
          unboundedCoords_ f = unboundedCoords_ (this w)
          /\ published VAR_LEFT = latestCssVariable VAR_LEFT (log w)
          /\ published VAR_TOP = latestCssVariable VAR_TOP (log w))
    /\ filter isMeasurement (log w')
       = ComputeBoundingRect :: filter isMeasurement (log w).
Proof.
  intros numbers env w w' f published. unfold published, f, w', layoutInternal_.
  cbn zeta.
  match goal with
  | |- context [updateLayoutCssVars_ env ?w0] =>
      destruct (updateLayoutCssVars__fields env w0) as (Ht & Hl);
      cbn zeta in Ht, Hl; rewrite Ht, Hl; clear Ht Hl
  end.
  destruct (isUnbounded env); cbn [app latestCssVariable CssVar_eqb filter isMeasurement];
    repeat split.
Qed.

(** X15. The frame callback of [init] adds the root marker, and the
    unbounded marker on an unbounded surface, and no other; the frame
    callback of [destroy] removes each of them, whatever the surface is
    then. *)
Theorem destroy_frame_undoes_init_frame :
  forall (numbers : Numbers float)
         (getNormalizedEventCoords : Event -> Point -> ClientRect -> Point)
         (keys : list CssVar) (env env' : Env) (w w0 : World) (c : CssClass),
    In (AddClass c)
       (log (runFrameCallback numbers getNormalizedEventCoords keys env InitFrame w)) ->
    ~ In (AddClass c) (log w) ->
    (c = ROOT \/ (c = UNBOUNDED /\ isUnbounded env = true))
    /\ In (RemoveClass c)
         (log (runFrameCallback numbers getNormalizedEventCoords keys env'
                 DestroyFrame w0)).
Proof.
  intros numbers gnec keys env env' w w0 c H Hn.
  assert (Hc : c = ROOT \/ (c = UNBOUNDED /\ isUnbounded env = true)).
  { cbn [runFrameCallback] in H. unfold layoutInternal_ in H. cbn zeta in H.
    match type of H with
    | context [updateLayoutCssVars_ env ?w1] =>
        destruct (updateLayoutCssVars__fields env w1) as (_ & Hl);
        cbn zeta in Hl; rewrite Hl in H; clear Hl
    end.
    destruct (isUnbounded env);
      cbn [app In log call set_this] in H;
      repeat (destruct H as [H|H]; [try discriminate H|]);
      try contradiction.
    - injection H as <-. right. now split.
    - injection H as <-. now left.
    - injection H as <-. now left. }
  split; [exact Hc|].
  cbn [runFrameCallback]. rewrite removeCssVars__log.
  apply in_or_app. right. cbn [log call].
  destruct Hc as [-> | [-> _]]; [right; now left | now left].
Qed.

Lemma destroy_frame_undoes_init_frame_witness :
  In (RemoveClass UNBOUNDED)
     (log (runFrameCallback scenario_numbers page_coords scenario_VAR_keys
             (bounded_env 100 50) DestroyFrame constructor)).
Proof.
  refine (proj2
            (@destroy_frame_undoes_init_frame
               scenario_numbers page_coords scenario_VAR_keys
               (unbounded_env 0) (bounded_env 100 50) constructor constructor
               UNBOUNDED _ _)).
  - vm_compute. tauto.
  - intros [].
Defined.
